(** * langgraph.graph.graph: the graph builder, its validator and the
      lowering to Pregel channels, triggers and writers.

    The development follows [src/langgraph/graph/graph.py]:
    - Python dictionaries ([Graph.nodes], [Graph.branches], the plan's
      [nodes] and [channels], a branch's [ends]) keep insertion order and are
      iterated in that order, so they are association lists with the
      dictionary update of Python (in place for a present key, appended
      otherwise);
    - Python sets ([Graph.edges], [all_sources], [all_targets]) are
      duplicate-free lists enumerated in insertion order;
    - exceptions are values of [Error]; a builder method is a function from
      the builder to an [Outcome]: the builder afterwards, the warnings
      logged, and the value returned or the exception raised. *)

From Stdlib Require Import Ascii String List Bool Arith Lia Permutation.
Import ListNotations.
Open Scope string_scope.

(** ** Python containers *)

Module Dict.
Section WithValues.
Variable V : Type.

Definition t := list (string * V).

(** [d.get(k)] / [d[k]] *)
Fixpoint get (d : t) (k : string) : option V :=
  match d with
  | [] => None
  | (k', v) :: rest => if String.eqb k' k then Some v else get rest k
  end.

(** [k in d] *)
Definition mem (d : t) (k : string) : bool :=
  match get d k with Some _ => true | None => false end.

(** [d[k] = v] *)
Fixpoint set (d : t) (k : string) (v : V) : t :=
  match d with
  | [] => [(k, v)]
  | (k', v') :: rest =>
      if String.eqb k' k then (k', v) :: rest else (k', v') :: set rest k v
  end.

Definition keys (d : t) : list string := map fst d.
Definition values (d : t) : list V := map snd d.
End WithValues.
Arguments get {V} d k.
Arguments mem {V} d k.
Arguments set {V} d k v.
Arguments keys {V} d.
Arguments values {V} d.
End Dict.

Module PySet.
Section WithElements.
Variable A : Type.
Variable eqb : A -> A -> bool.

Definition mem (x : A) (s : list A) : bool := existsb (eqb x) s.

(** [s.add(x)] *)
Definition add (x : A) (s : list A) : list A :=
  if mem x s then s else s ++ [x].

(** a set comprehension over a list *)
Definition of_list (l : list A) : list A :=
  fold_left (fun s x => add x s) l [].
End WithElements.
Arguments mem {A} eqb x s.
Arguments add {A} eqb x s.
Arguments of_list {A} eqb l.
End PySet.

Definition edge_eqb (e1 e2 : string * string) : bool :=
  String.eqb (fst e1) (fst e2) && String.eqb (snd e1) (snd e2).

Definition str_mem : string -> list string -> bool := PySet.mem String.eqb.
Definition str_add : string -> list string -> list string := PySet.add String.eqb.

(** ** Constants *)

Definition START : string := "__start__".
Definition END : string := "__end__".
Definition TAG_HIDDEN : string := "langsmith:hidden".

(** ** Exceptions and outcomes *)

Inductive Error : Type :=
| NodeAlreadyPresent (key : string)
| NodeReserved (key : string)
| EndCannotBeStart
| StartCannotBeEnd
| AlreadyFoundPath (start_key : string)
| BranchAlreadyExists (path_name : option string) (source : string)
| DeadEnd (node : string)
| UnknownSourceNode (source : string)
| UnknownBranchTarget (start cond target : string)
| NotReachable (node : string)
| UnknownTargetNode (target : string)
| InterruptNotFound (node : string)
| KeyError (key : string)
| UnboundLocalError (variable : string).

Inductive ExceptionClass := PyValueError | PyKeyError | PyUnboundLocalError.

Definition exception_class (e : Error) : ExceptionClass :=
  match e with
  | KeyError _ => PyKeyError
  | UnboundLocalError _ => PyUnboundLocalError
  | _ => PyValueError
  end.

Definition show_name (n : option string) : string :=
  match n with Some s => s | None => "None" end.

(** the text of the exception, as the f-strings of the source build it;
    for the two exceptions of the interpreter, its own text (Python 3.11) *)
Definition message (e : Error) : string :=
  match e with
  | NodeAlreadyPresent key => "Node `" ++ key ++ "` already present."
  | NodeReserved key => "Node `" ++ key ++ "` is reserved."
  | EndCannotBeStart => "END cannot be a start node"
  | StartCannotBeEnd => "START cannot be an end node"
  | AlreadyFoundPath k =>
      "Already found path for node '" ++ k ++ "'." ++
      String "010"%char
        "For multiple edges, use StateGraph with an annotated state key."
  | BranchAlreadyExists n s =>
      "Branch with name `" ++ show_name n ++ "` already exists for node `" ++ s ++ "`"
  | DeadEnd n => "Node '" ++ n ++ "' is a dead-end"
  | UnknownSourceNode s => "Found edge starting at unkown node '" ++ s ++ "'"
  | UnknownBranchTarget s c e =>
      "At '" ++ s ++ "' node, '" ++ c ++ "' branch found unknown target '" ++ e ++ "'"
  | NotReachable n => "Node `" ++ n ++ "` is not reachable"
  | UnknownTargetNode t => "Found edge ending at unknown node `" ++ t ++ "`"
  | InterruptNotFound n => "Interrupt node `" ++ n ++ "` not found"
  | KeyError k => "'" ++ k ++ "'"
  | UnboundLocalError v =>
      "cannot access local variable '" ++ v ++ "' where it is not associated with a value"
  end.

Inductive Result (A : Type) : Type :=
| Ok (a : A)
| Raise (e : Error).
Arguments Ok {A} a.
Arguments Raise {A} e.

Definition is_ok {A} (r : Result A) : bool :=
  match r with Ok _ => true | Raise _ => false end.

Definition rbind {A B} (r : Result A) (k : A -> Result B) : Result B :=
  match r with Ok a => k a | Raise e => Raise e end.

(** a [for] loop whose body may raise *)
Fixpoint foldM {A B} (f : A -> B -> Result A) (l : list B) (a : A) : Result A :=
  match l with
  | [] => Ok a
  | x :: rest => rbind (f a x) (foldM f rest)
  end.

(** a list comprehension whose element expression may raise *)
Fixpoint mapM {A B} (f : A -> Result B) (l : list A) : Result (list B) :=
  match l with
  | [] => Ok []
  | x :: rest => rbind (f x) (fun y => rbind (mapM f rest) (fun ys => Ok (y :: ys)))
  end.

(** What a method call leaves behind: the receiver afterwards, the
    [logger.warning] messages, and the value or exception. *)
Record Outcome (S A : Type) : Type := mkOutcome {
  state : S;
  logged : list string;
  result : Result A
}.
Arguments mkOutcome {S A} state logged result.
Arguments state {S A} o.
Arguments logged {S A} o.
Arguments result {S A} o.

Definition M (S A : Type) : Type := S -> Outcome S A.

Definition ret {S A} (a : A) : M S A := fun s => mkOutcome s [] (Ok a).
Definition raise {S A} (e : Error) : M S A := fun s => mkOutcome s [] (Raise e).
Definition warning {S} (msg : string) : M S unit := fun s => mkOutcome s [msg] (Ok tt).
Definition modify {S} (f : S -> S) : M S unit := fun s => mkOutcome (f s) [] (Ok tt).
Definition gets {S A} (f : S -> A) : M S A := fun s => mkOutcome s [] (Ok (f s)).
Definition lift {S A} (r : Result A) : M S A := fun s => mkOutcome s [] r.

Definition bind {S A B} (m : M S A) (k : A -> M S B) : M S B :=
  fun s =>
    match m s with
    | mkOutcome s1 l1 (Ok a) =>
        match k a s1 with
        | mkOutcome s2 l2 r2 => mkOutcome s2 (l1 ++ l2) r2
        end
    | mkOutcome s1 l1 (Raise e) => mkOutcome s1 l1 (Raise e)
    end.

Definition when {S} (c : bool) (m : M S unit) : M S unit :=
  if c then m else ret tt.

Declare Scope py_scope.
Delimit Scope py_scope with py.
Notation "x <- m ;; k" := (bind m (fun x => k))
  (at level 61, m at next level, right associativity) : py_scope.
Notation "m ;; k" := (bind m (fun _ => k))
  (at level 61, right associativity) : py_scope.

(** ** The data model *)

Section Model.

(** The payload that flows through the graph (Python's [Any]). *)
Variable Value : Type.

(** A routing function returns one label or a list of labels. *)
Inductive PathResult : Type :=
| One (label : string)
| Many (labels : list string).

(** [coerce_to_runnable(path, name=None, trace=True)]: the routing function
    as a runnable, with the name the coercion found for it (if any). *)
Record PathRunnable : Type := mkPath {
  path_name : option string;
  path_invoke : Value -> PathResult
}.

(** [coerce_to_runnable(action, name=key, trace=False)] *)
Record NodeRunnable : Type := mkNodeRunnable {
  node_name : string;
  node_invoke : Value -> Value
}.

Definition coerce_to_runnable (action : Value -> Value) (name : string) : NodeRunnable :=
  mkNodeRunnable name action.

(** [class Branch(NamedTuple)]; [then_] is the field [then]. *)
Record Branch : Type := mkBranch {
  path : PathRunnable;
  ends : option (Dict.t string);
  then_ : option string
}.

(** [class Graph] *)
Record Graph : Type := mkGraph {
  nodes : Dict.t NodeRunnable;
  edges : list (string * string);
  branches : Dict.t (Dict.t Branch);
  support_multiple_edges : bool;
  compiled : bool
}.

(** [Graph.__init__] *)
Definition Graph_init : Graph := mkGraph [] [] [] false false.

Definition set_nodes (g : Graph) (n : Dict.t NodeRunnable) : Graph :=
  mkGraph n (edges g) (branches g) (support_multiple_edges g) (compiled g).
Definition set_edges (g : Graph) (e : list (string * string)) : Graph :=
  mkGraph (nodes g) e (branches g) (support_multiple_edges g) (compiled g).
Definition set_branches (g : Graph) (b : Dict.t (Dict.t Branch)) : Graph :=
  mkGraph (nodes g) (edges g) b (support_multiple_edges g) (compiled g).
Definition set_compiled (g : Graph) (c : bool) : Graph :=
  mkGraph (nodes g) (edges g) (branches g) (support_multiple_edges g) c.

(** [Graph._all_edges] *)
Definition _all_edges (self : Graph) : list (string * string) := edges self.

(** ** The builder *)

Definition warn_add_node : string :=
  "Adding a node to a graph that has already been compiled. This will not be reflected in the compiled graph.".
Definition warn_add_edge : string :=
  "Adding an edge to a graph that has already been compiled. This will not be reflected in the compiled graph.".

(** [Graph.add_node] *)
Definition add_node (key : string) (action : Value -> Value) : M Graph unit :=
  (self <- gets (fun g => g) ;;
   when (compiled self) (warning warn_add_node) ;;
   if Dict.mem (nodes self) key then raise (NodeAlreadyPresent key)
   else if String.eqb key END || String.eqb key START then raise (NodeReserved key)
   else modify (fun g => set_nodes g (Dict.set (nodes g) key (coerce_to_runnable action key))))%py.

(** [Graph.add_edge] *)
Definition add_edge (start_key end_key : string) : M Graph unit :=
  (self <- gets (fun g => g) ;;
   when (compiled self) (warning warn_add_edge) ;;
   if String.eqb start_key END then raise EndCannotBeStart
   else if String.eqb end_key START then raise StartCannotBeEnd
   else if negb (support_multiple_edges self)
           && str_mem start_key (PySet.of_list String.eqb (map fst (edges self)))
   then raise (AlreadyFoundPath start_key)
   else modify (fun g => set_edges g (PySet.add edge_eqb (start_key, end_key) (edges g))))%py.

(** [self.branches[source]] on a [defaultdict(dict)]: a missing key is
    inserted with an empty dictionary before it is returned. *)
Definition defaultdict_getitem (source : string) : M Graph (Dict.t Branch) :=
  (self <- gets (fun g => g) ;;
   match Dict.get (branches self) source with
   | Some d => ret d
   | None =>
       modify (fun g => set_branches g (Dict.set (branches g) source [])) ;;
       ret []
   end)%py.

(** [path.name or "condition"] *)
Definition branch_name (p : PathRunnable) : string :=
  match path_name p with
  | Some n => if String.eqb n "" then "condition" else n
  | None => "condition"
  end.

(** [Graph.add_conditional_edges] *)
Definition add_conditional_edges (source : string) (path : PathRunnable)
  (path_map : option (Dict.t string)) (then_ : option string) : M Graph unit :=
  (self <- gets (fun g => g) ;;
   when (compiled self) (warning warn_add_edge) ;;
   let name := branch_name path in
   d <- defaultdict_getitem source ;;
   if Dict.mem d name then raise (BranchAlreadyExists (path_name path) source)
   else
     d' <- defaultdict_getitem source ;;
     modify (fun g =>
       set_branches g (Dict.set (branches g) source
                         (Dict.set d' name (mkBranch path path_map then_)))))%py.

(** [Graph.set_entry_point] *)
Definition set_entry_point (key : string) : M Graph unit := add_edge START key.

(** [Graph.set_conditional_entry_point] *)
Definition set_conditional_entry_point (path : PathRunnable)
  (path_map : option (Dict.t string)) (then_ : option string) : M Graph unit :=
  add_conditional_edges START path path_map then_.

(** [Graph.set_finish_point] *)
Definition set_finish_point (key : string) : M Graph unit := add_edge key END.

(** ** The structural validator *)

(** [node != branch.then], where [branch.then] may be [None] *)
Definition differs_from_then (node : string) (th : option string) : bool :=
  match th with
  | Some t => negb (String.eqb node t)
  | None => true
  end.

(** Lines 230-239, the body of the loop over one source's branches.  The
    accumulator carries [all_sources] and the local variable [node], which
    the innermost loop binds and which is read again on line 245. *)
Definition sources_of_branch (self : Graph) (start : string)
  (acc : list string * option string) (item : string * Branch)
  : list string * option string :=
  let branch := snd item in
  let all_sources := str_add start (fst acc) in
  match then_ branch with
  | None => (all_sources, snd acc)
  | Some th =>
      match ends branch with
      | Some e =>
          (fold_left (fun s end_ => str_add end_ s) (Dict.values e) all_sources,
           snd acc)
      | None =>
          fold_left
            (fun a node =>
               (if negb (String.eqb node start) && negb (String.eqb node th)
                then str_add node (fst a) else fst a,
                Some node))
            (Dict.keys (nodes self)) (all_sources, snd acc)
      end
  end.

(** Lines 228-239: [all_sources], and the binding of [node] afterwards. *)
Definition assemble_sources (self : Graph) : list string * option string :=
  fold_left
    (fun acc entry => fold_left (sources_of_branch self (fst entry)) (snd entry) acc)
    (branches self)
    (PySet.of_list String.eqb (map fst (_all_edges self)), None).

Definition all_sources (self : Graph) : list string := fst (assemble_sources self).

(** Lines 241-243; returns the binding of [node] when the loop ends. *)
Fixpoint check_dead_ends (keys : list string) (all_sources : list string)
  (node : option string) : Result (option string) :=
  match keys with
  | [] => Ok node
  | k :: rest =>
      if negb (str_mem k all_sources) then Raise (DeadEnd k)
      else check_dead_ends rest all_sources (Some k)
  end.

(** Lines 244-246: the loop variable is [source], the test reads [node]. *)
Fixpoint check_sources (self : Graph) (iter : list string) (node : option string)
  : Result unit :=
  match iter with
  | [] => Ok tt
  | source :: rest =>
      match node with
      | None => Raise (UnboundLocalError "node")
      | Some n =>
          if negb (Dict.mem (nodes self) n) && negb (String.eqb n START)
          then Raise (UnknownSourceNode source)
          else check_sources self rest node
      end
  end.

(** Lines 251-265, the body of the loop over one source's branches. *)
Definition targets_of_branch (self : Graph) (start : string)
  (all_targets : list string) (item : string * Branch) : Result (list string) :=
  let cond := fst item in
  let branch := snd item in
  let all_targets :=
    match then_ branch with
    | Some th => str_add th all_targets
    | None => all_targets
    end in
  match ends branch with
  | Some e =>
      foldM
        (fun t end_ =>
           if negb (Dict.mem (nodes self) end_) && negb (String.eqb end_ END)
           then Raise (UnknownBranchTarget start cond end_)
           else Ok (str_add end_ t))
        (Dict.values e) all_targets
  | None =>
      Ok (fold_left
            (fun t node =>
               if negb (String.eqb node start) && differs_from_then node (then_ branch)
               then str_add node t else t)
            (Dict.keys (nodes self)) (str_add END all_targets))
  end.

(** Lines 249-265 *)
Definition assemble_targets (self : Graph) : Result (list string) :=
  foldM
    (fun acc entry => foldM (targets_of_branch self (fst entry)) (snd entry) acc)
    (branches self)
    (PySet.of_list String.eqb (map snd (_all_edges self))).

(** Lines 267-269 *)
Fixpoint check_reachable (keys : list string) (all_targets : list string) : Result unit :=
  match keys with
  | [] => Ok tt
  | k :: rest =>
      if negb (str_mem k all_targets) then Raise (NotReachable k)
      else check_reachable rest all_targets
  end.

(** Lines 270-272 *)
Fixpoint check_targets (self : Graph) (iter : list string) : Result unit :=
  match iter with
  | [] => Ok tt
  | target :: rest =>
      if negb (Dict.mem (nodes self) target) && negb (String.eqb target END)
      then Raise (UnknownTargetNode target)
      else check_targets self rest
  end.

(** Lines 274-277; [if interrupt:] skips [None] and the empty sequence. *)
Fixpoint check_interrupts (self : Graph) (interrupt : list string) : Result unit :=
  match interrupt with
  | [] => Ok tt
  | node :: rest =>
      if negb (Dict.mem (nodes self) node) then Raise (InterruptNotFound node)
      else check_interrupts self rest
  end.

(** Lines 227-246: [# assemble sources], [# validate sources] *)
Definition validate_sources (self : Graph) : Result unit :=
  let srcs := assemble_sources self in
  rbind (check_dead_ends (Dict.keys (nodes self)) (fst srcs) (snd srcs)) (fun node =>
  check_sources self (fst srcs) node).

(** Lines 248-272: [# assemble targets], [# validate targets] *)
Definition validate_targets (self : Graph) : Result unit :=
  rbind (assemble_targets self) (fun all_targets =>
  rbind (check_reachable (Dict.keys (nodes self)) all_targets) (fun _ =>
  check_targets self all_targets)).

(** Lines 273-277: [# validate interrupts] *)
Definition validate_interrupts (self : Graph) (interrupt : option (list string))
  : Result unit :=
  match interrupt with
  | Some i => check_interrupts self i
  | None => Ok tt
  end.

(** Everything [Graph.validate] checks before it sets [compiled]. *)
Definition validate_checks (self : Graph) (interrupt : option (list string)) : Result unit :=
  rbind (validate_sources self) (fun _ =>
  rbind (validate_targets self) (fun _ =>
  validate_interrupts self interrupt)).

(** [Graph.validate] *)
Definition validate (interrupt : option (list string)) : M Graph unit :=
  (self <- gets (fun g => g) ;;
   lift (validate_checks self interrupt) ;;
   modify (fun g => set_compiled g true))%py.

(** ** Branch routing *)

(** [if not isinstance(result, list): result = [result]] *)
Definition normalise (r : PathResult) : list string :=
  match r with
  | One label => [label]
  | Many labels => labels
  end.

(** [self.ends[r]] *)
Definition getitem (d : Dict.t string) (k : string) : Result string :=
  match Dict.get d k with
  | Some v => Ok v
  | None => Raise (KeyError k)
  end.

(** [if self.ends:], false for [None] and for the empty dictionary *)
Definition truthy {A} (d : option (list A)) : bool :=
  match d with
  | Some (_ :: _) => true
  | _ => false
  end.

(** [Branch._route] (and [Branch._aroute], which differs only in awaiting the
    routing function), with [reader=None] as [attach_branch] registers it.
    [writer] returns a [ChannelWrite], which is truthy, so the result is the
    list of channels that write publishes to. *)
Definition _route (self : Branch) (input : Value)
  (writer : list string -> list string) : Result (list string) :=
  let result := normalise (path_invoke (path self) input) in
  rbind
    (if truthy (ends self)
     then match ends self with
          | Some e => mapM (getitem e) result
          | None => Ok result
          end
     else Ok result)
    (fun destinations => Ok (writer destinations)).

(** ** The lowered plan *)

(** Modelled from the spec: the Pregel package ([EphemeralValue],
    [PregelNode], [ChannelWrite], [Channel.subscribe_to], [Pregel.validate])
    is imported by this file and defined elsewhere.  A unit is a trigger
    list, an action and a list of writer stages; a channel is an ephemeral
    value slot.

    [EphemeralValue(Any)] *)
Inductive ChannelKind : Type := EphemeralValue.

(** A writer stage of a unit: a [ChannelWrite] over fixed channels (always
    tagged [TAG_HIDDEN]), or the registered callable [branch.run(branch_writer)]
    of [attach_branch], closed over [start] and [name]. *)
Inductive Writer : Type :=
| ChannelWrite (entries : list string)
| BranchRun (branch : Branch) (start name : string).

(** [PregelNode]: [bound] is the action, [None] for the default pass-through. *)
Record PregelNode : Type := mkPregelNode {
  channels : list string;
  triggers : list string;
  bound : option NodeRunnable;
  writers : list Writer;
  tags : list string
}.

(** [PregelNode(channels=[], triggers=[]) | node | ChannelWrite([ChannelWriteEntry(key)])] *)
Definition node_unit (key : string) (node : NodeRunnable) : PregelNode :=
  mkPregelNode [] [] (Some node) [ChannelWrite [key]] [].

(** Modelled from the spec: [Channel.subscribe_to(START, tags=[TAG_HIDDEN])]
    of the Pregel package, a unit with no action and no writer that has the
    one channel as its trigger. *)
Definition subscribe_to (channel : string) (tags : list string) : PregelNode :=
  mkPregelNode [channel] [channel] None [] tags.

(** [unit.writers.append(w)], also [unit |= w] for a registered writer *)
Definition append_writer (u : PregelNode) (w : Writer) : PregelNode :=
  mkPregelNode (channels u) (triggers u) (bound u) (writers u ++ [w]) (tags u).

(** [unit.triggers.append(ch); unit.channels.append(ch)] *)
Definition append_trigger (u : PregelNode) (ch : string) : PregelNode :=
  mkPregelNode (channels u ++ [ch]) (triggers u ++ [ch]) (bound u) (writers u) (tags u).

(** [class CompiledGraph(Pregel)].  The attribute [graph] is a reference to
    the builder, not a copy: see [Heap]. *)
Record CompiledGraph : Type := mkCompiledGraph {
  cg_nodes : Dict.t PregelNode;
  cg_channels : Dict.t ChannelKind;
  input_channels : string;
  output_channels : string;
  stream_channels : list string;
  interrupt_before_nodes : list string;
  interrupt_after_nodes : list string;
  debug : bool
}.

Definition with_nodes (c : CompiledGraph) (n : Dict.t PregelNode) : CompiledGraph :=
  mkCompiledGraph n (cg_channels c) (input_channels c) (output_channels c)
    (stream_channels c) (interrupt_before_nodes c) (interrupt_after_nodes c) (debug c).
Definition with_channels (c : CompiledGraph) (ch : Dict.t ChannelKind) : CompiledGraph :=
  mkCompiledGraph (cg_nodes c) ch (input_channels c) (output_channels c)
    (stream_channels c) (interrupt_before_nodes c) (interrupt_after_nodes c) (debug c).
Definition with_stream_channels (c : CompiledGraph) (s : list string) : CompiledGraph :=
  mkCompiledGraph (cg_nodes c) (cg_channels c) (input_channels c) (output_channels c)
    s (interrupt_before_nodes c) (interrupt_after_nodes c) (debug c).

(** [self.nodes[key]] *)
Definition unit_of (c : CompiledGraph) (key : string) : Result PregelNode :=
  match Dict.get (cg_nodes c) key with
  | Some u => Ok u
  | None => Raise (KeyError key)
  end.

(** [CompiledGraph.attach_node] *)
Definition attach_node (self : CompiledGraph) (key : string) (node : NodeRunnable)
  : CompiledGraph :=
  let self := with_channels self (Dict.set (cg_channels self) key EphemeralValue) in
  let self := with_nodes self (Dict.set (cg_nodes self) key (node_unit key node)) in
  with_stream_channels self (stream_channels self ++ [key]).

(** [CompiledGraph.attach_edge] *)
Definition attach_edge (self : CompiledGraph) (start end_ : string)
  : Result CompiledGraph :=
  if String.eqb end_ END then
    rbind (unit_of self start) (fun u =>
    Ok (with_nodes self (Dict.set (cg_nodes self) start (append_writer u (ChannelWrite [END])))))
  else
    rbind (unit_of self end_) (fun u =>
    Ok (with_nodes self (Dict.set (cg_nodes self) end_ (append_trigger u start)))).

(** [f"branch:{start}:{name}:{end}"] *)
Definition branch_channel (start name end_ : string) : string :=
  "branch:" ++ start ++ ":" ++ name ++ ":" ++ end_.

(** The local function [branch_writer] of [attach_branch]: the channels of
    the [ChannelWrite] it returns. *)
Definition branch_writer (start name : string) (ends : list string) : list string :=
  map (fun end_ => if negb (String.eqb end_ END) then branch_channel start name end_ else END)
      ends.

(** Lines 367-372, one iteration of the loop over [ends]. *)
Definition attach_reader (start name : string) (self : CompiledGraph) (end_ : string)
  : Result CompiledGraph :=
  if negb (String.eqb end_ END) then
    let channel_name := branch_channel start name end_ in
    let self := with_channels self (Dict.set (cg_channels self) channel_name EphemeralValue) in
    rbind (unit_of self end_) (fun u =>
    Ok (with_nodes self (Dict.set (cg_nodes self) end_ (append_trigger u channel_name))))
  else Ok self.

(** [CompiledGraph.attach_branch] *)
Definition attach_branch (self : CompiledGraph) (start name : string) (branch : Branch)
  : Result CompiledGraph :=
  let self :=
    if String.eqb start START && negb (Dict.mem (cg_nodes self) start)
    then with_nodes self (Dict.set (cg_nodes self) start (subscribe_to START [TAG_HIDDEN]))
    else self in
  rbind (unit_of self start) (fun u =>
  let self := with_nodes self
                (Dict.set (cg_nodes self) start (append_writer u (BranchRun branch start name))) in
  let ends_ :=
    if truthy (ends branch)
    then match ends branch with Some e => Dict.values e | None => [] end
    else Dict.keys (cg_nodes self) in
  foldM (attach_reader start name) ends_ self).

(** What running a writer stage on [input] hands to the runner: the
    channels of the entries of its [ChannelWrite], in order, or the
    exception. *)
Definition run_writer (w : Writer) (input : Value) : Result (list string) :=
  match w with
  | ChannelWrite entries => Ok entries
  | BranchRun branch start name => _route branch input (branch_writer start name)
  end.

(** Modelled from the spec: [Pregel.validate], the runner's own check of a
    plan, is defined in the Pregel package; the output of the compiler is
    the plan as the three attach loops leave it, so the call hands it back. *)
Definition Pregel_validate (c : CompiledGraph) : Result CompiledGraph := Ok c.

(** Lines 296-309 of [Graph.compile]: the plan with the two system channels
    and no unit. *)
Definition empty_plan (interrupt_before interrupt_after : list string) (debug : bool)
  : CompiledGraph :=
  mkCompiledGraph [] [(START, EphemeralValue); (END, EphemeralValue)] START END []
    interrupt_before interrupt_after debug.

(** Lines 311-323 of [Graph.compile]: nodes, edges and branches attached in
    that order to the empty plan. *)
Definition lower (self : Graph) (interrupt_before interrupt_after : list string)
  (debug : bool) : Result CompiledGraph :=
  let compiled := empty_plan interrupt_before interrupt_after debug in
  let compiled :=
    fold_left (fun c entry => attach_node c (fst entry) (snd entry)) (nodes self) compiled in
  rbind (foldM (fun c e => attach_edge c (fst e) (snd e)) (edges self) compiled) (fun compiled =>
  rbind (foldM
           (fun c entry =>
              foldM (fun c' item => attach_branch c' (fst entry) (fst item) (snd item))
                    (snd entry) c)
           (branches self) compiled) (fun compiled =>
  Pregel_validate compiled)).

(** [interrupt_before or []] *)
Definition or_empty (l : option (list string)) : list string :=
  match l with Some x => x | None => [] end.

(** [Graph.compile] ([checkpointer] is only stored for the runner). *)
Definition compile (interrupt_before interrupt_after : option (list string))
  (debug : bool) : M Graph CompiledGraph :=
  (let interrupt_before := or_empty interrupt_before in
   let interrupt_after := or_empty interrupt_after in
   validate (Some (interrupt_before ++ interrupt_after)%list) ;;
   self <- gets (fun g => g) ;;
   lift (lower self interrupt_before interrupt_after debug))%py.

(** ** The builder and the plans it produced, as objects

    A [CompiledGraph] holds its own [nodes] and [channels] dictionaries,
    created by [compile], and a reference [graph] to the builder.  A method
    of the builder sees the builder only. *)
Record Heap : Type := mkHeap {
  builder : Graph;
  plans : list CompiledGraph
}.

(** a method call on the builder object *)
Definition on_builder {A} (m : M Graph A) : M Heap A :=
  fun h =>
    match m (builder h) with
    | mkOutcome g l r => mkOutcome (mkHeap g (plans h)) l r
    end.

(** [plan = builder.compile(...)]: the new plan is allocated next to the
    earlier ones; the value is its index. *)
Definition compile_on_heap (interrupt_before interrupt_after : option (list string))
  (debug : bool) : M Heap nat :=
  (plan <- on_builder (compile interrupt_before interrupt_after debug) ;;
   h <- gets (fun h => h) ;;
   modify (fun h => mkHeap (builder h) (plans h ++ [plan])) ;;
   ret (length (plans h)))%py.

(** [plan.graph]: the builder as it is now. *)
Definition graph_of_plan (h : Heap) (i : nat) : option Graph :=
  match nth_error (plans h) i with
  | Some _ => Some (builder h)
  | None => None
  end.

End Model.

Arguments mkPath {Value} path_name path_invoke.
Arguments path_name {Value} p.
Arguments path_invoke {Value} p v.
Arguments mkNodeRunnable {Value} node_name node_invoke.
Arguments node_name {Value} n.
Arguments node_invoke {Value} n v.
Arguments coerce_to_runnable {Value} action name.
Arguments mkBranch {Value} path ends then_.
Arguments path {Value} b.
Arguments ends {Value} b.
Arguments then_ {Value} b.
Arguments mkGraph {Value} nodes edges branches support_multiple_edges compiled.
Arguments nodes {Value} g.
Arguments edges {Value} g.
Arguments branches {Value} g.
Arguments support_multiple_edges {Value} g.
Arguments compiled {Value} g.
Arguments Graph_init {Value}.
Arguments set_nodes {Value} g n.
Arguments set_edges {Value} g e.
Arguments set_branches {Value} g b.
Arguments set_compiled {Value} g c.
Arguments _all_edges {Value} self.
Arguments add_node {Value} key action _.
Arguments add_edge {Value} start_key end_key _.
Arguments defaultdict_getitem {Value} source _.
Arguments branch_name {Value} p.
Arguments add_conditional_edges {Value} source path path_map then_ _.
Arguments set_entry_point {Value} key _.
Arguments set_conditional_entry_point {Value} path path_map then_ _.
Arguments set_finish_point {Value} key _.
Arguments sources_of_branch {Value} self start acc item.
Arguments assemble_sources {Value} self.
Arguments all_sources {Value} self.
Arguments check_sources {Value} self iter node.
Arguments targets_of_branch {Value} self start all_targets item.
Arguments assemble_targets {Value} self.
Arguments check_targets {Value} self iter.
Arguments check_interrupts {Value} self interrupt.
Arguments validate_sources {Value} self.
Arguments validate_targets {Value} self.
Arguments validate_interrupts {Value} self interrupt.
Arguments validate_checks {Value} self interrupt.
Arguments validate {Value} interrupt _.
Arguments _route {Value} self input writer.
Arguments ChannelWrite {Value} entries.
Arguments BranchRun {Value} branch start name.
Arguments mkPregelNode {Value} channels triggers bound writers tags.
Arguments channels {Value} p.
Arguments triggers {Value} p.
Arguments bound {Value} p.
Arguments writers {Value} p.
Arguments tags {Value} p.
Arguments node_unit {Value} key node.
Arguments subscribe_to {Value} channel tags.
Arguments append_writer {Value} u w.
Arguments append_trigger {Value} u ch.
Arguments mkCompiledGraph {Value} cg_nodes cg_channels input_channels output_channels
  stream_channels interrupt_before_nodes interrupt_after_nodes debug.
Arguments cg_nodes {Value} c.
Arguments cg_channels {Value} c.
Arguments input_channels {Value} c.
Arguments output_channels {Value} c.
Arguments stream_channels {Value} c.
Arguments interrupt_before_nodes {Value} c.
Arguments interrupt_after_nodes {Value} c.
Arguments debug {Value} c.
Arguments with_nodes {Value} c n.
Arguments with_channels {Value} c ch.
Arguments with_stream_channels {Value} c s.
Arguments unit_of {Value} c key.
Arguments attach_node {Value} self key node.
Arguments attach_edge {Value} self start end_.
Arguments attach_reader {Value} start name self end_.
Arguments attach_branch {Value} self start name branch.
Arguments run_writer {Value} w input.
Arguments Pregel_validate {Value} c.
Arguments empty_plan {Value} interrupt_before interrupt_after debug.
Arguments lower {Value} self interrupt_before interrupt_after debug.
Arguments compile {Value} interrupt_before interrupt_after debug _.
Arguments mkHeap {Value} builder plans.
Arguments builder {Value} h.
Arguments plans {Value} h.
Arguments on_builder {Value A} m _.
Arguments compile_on_heap {Value} interrupt_before interrupt_after debug _.
Arguments graph_of_plan {Value} h i.

(** ** Example programs *)

(** running a sequence of builder calls from a fresh [Graph()] *)
Definition build {Value A} (program : M (Graph Value) A) : Outcome (Graph Value) A :=
  program Graph_init.

Definition noop : string -> string := fun v => v.

(** nodes A and B in a line from the entry to the terminal identifier *)
Definition line_graph : M (Graph string) unit :=
  (add_node "A" noop ;;
   add_node "B" noop ;;
   set_entry_point "A" ;;
   add_edge "A" "B" ;;
   set_finish_point "B")%py.

Definition route_to (label : string) : PathRunnable string :=
  mkPath (Some "route") (fun _ => One label).

(** a branch on S over the destinations A and B that converges on T *)
Definition then_graph : M (Graph string) unit :=
  (add_node "S" noop ;;
   add_node "A" noop ;;
   add_node "B" noop ;;
   add_node "T" noop ;;
   set_entry_point "S" ;;
   add_conditional_edges "S" (route_to "a") (Some [("a", "A"); ("b", "B")]) (Some "T") ;;
   set_finish_point "T")%py.

(** a branch on A with neither [ends] nor [then]; B leads to the terminal *)
Definition open_branch_graph : M (Graph string) unit :=
  (add_node "A" noop ;;
   add_node "B" noop ;;
   set_entry_point "A" ;;
   add_conditional_edges "A" (route_to "B") None None ;;
   set_finish_point "B")%py.

(** the same, but nothing leaves B *)
Definition dead_end_graph : M (Graph string) unit :=
  (add_node "A" noop ;;
   add_node "B" noop ;;
   set_entry_point "A" ;;
   add_conditional_edges "A" (route_to "B") None None)%py.

(** a branch on A without [ends] that converges on T *)
Definition open_then_graph : M (Graph string) unit :=
  (add_node "A" noop ;;
   add_node "B" noop ;;
   add_node "T" noop ;;
   set_entry_point "A" ;;
   add_conditional_edges "A" (route_to "B") None (Some "T") ;;
   set_finish_point "T")%py.

(** two finish points: A by the entry edge, B by a branch of the entry *)
Definition two_finish_graph : M (Graph string) unit :=
  (add_node "A" noop ;;
   add_node "B" noop ;;
   set_entry_point "A" ;;
   set_finish_point "A" ;;
   set_conditional_entry_point (route_to "b") (Some [("b", "B")]) None ;;
   set_finish_point "B")%py.

(** an edge that starts at an identifier nobody declared *)
Definition ghost_graph : M (Graph string) unit :=
  (add_node "A" noop ;;
   set_entry_point "A" ;;
   set_finish_point "A" ;;
   add_edge "ghost" "A")%py.

(** no node at all, one edge *)
Definition no_nodes_graph : M (Graph string) unit :=
  add_edge START END.

(** the branch of the routing example: [ends={"x": "A", "y": "B"}] *)
Definition xy_branch (label : string) : Branch string :=
  mkBranch (route_to label) (Some [("x", "A"); ("y", "B")]) None.

Definition xy_graph : M (Graph string) unit :=
  (add_node "S" noop ;;
   add_node "A" noop ;;
   add_node "B" noop ;;
   set_entry_point "S" ;;
   add_conditional_edges "S" (route_to "x") (Some [("x", "A"); ("y", "B")]) None ;;
   set_finish_point "A" ;;
   set_finish_point "B")%py.

(** the line graph, compiled once, as the builder object and its plan *)
Definition compiled_line_heap : Heap string :=
  state (compile_on_heap None None false (mkHeap (state (build line_graph)) [])).

(** [path_map={}]: an explicit but empty mapping *)
Definition empty_map_branch : Branch string :=
  mkBranch (route_to "x") (Some []) None.

(** ** Vocabulary of the statements *)

(** the loop [for start, branches in ...: for name, branch in ...] visits
    the branch [b] named [name] on the source [start] *)
Definition has_branch {Value} (g : Graph Value) (start name : string) (b : Branch Value) : Prop :=
  exists brs, In (start, brs) (branches g) /\ In (name, b) brs.

(** [all_sources] only gains elements while it is assembled *)
Definition grows (a a' : list string * option string) : Prop :=
  incl (fst a) (fst a').

(** the exceptions of lines 248-272 *)
Definition raised_by_targets (e : Error) : Prop :=
  match e with
  | UnknownBranchTarget _ _ _ | NotReachable _ | UnknownTargetNode _ => True
  | _ => False
  end.

(** [u'] is [u] after some more [append]s *)
Definition unit_le {Value} (u u' : PregelNode Value) : Prop :=
  incl (triggers u) (triggers u') /\
  incl (writers u) (writers u') /\
  bound u' = bound u.

(** the plan [c'] is [c] after some more attaching: channels and units stay,
    trigger and writer lists only get longer *)
Definition extends {Value} (c c' : CompiledGraph Value) : Prop :=
  (forall ch, Dict.mem (cg_channels c) ch = true -> Dict.mem (cg_channels c') ch = true) /\
  (forall k u, Dict.get (cg_nodes c) k = Some u ->
     exists u', Dict.get (cg_nodes c') k = Some u' /\ unit_le u u').

(** a [ChannelWrite] stage with an entry for the channel [ch] *)
Definition static_writes_to {Value} (ch : string) (w : Writer Value) : bool :=
  match w with
  | ChannelWrite entries => str_mem ch entries
  | BranchRun _ _ _ => false
  end.

(** what the writer stages of the unit [u] registered under [k] look like:
    a fixed writer publishes to the unit's own channel or to the terminal
    channel; a routing writer belongs to a branch declared on [k]; a unit
    with an action has exactly one fixed writer to its own channel *)
Definition unit_well_written {Value} (g : Graph Value) (k : string) (u : PregelNode Value) : Prop :=
  (forall entries, In (ChannelWrite entries) (writers u) ->
     entries = [k] \/ entries = [END]) /\
  (forall b start name, In (BranchRun b start name) (writers u) ->
     start = k /\ has_branch g start name b) /\
  (k <> END ->
     length (filter (static_writes_to k) (writers u)) =
     match bound u with Some _ => 1 | None => 0 end).

Definition well_written {Value} (g : Graph Value) (c : CompiledGraph Value) : Prop :=
  forall k u, Dict.get (cg_nodes c) k = Some u -> unit_well_written g k u.

(** every unit is still as [attach_node] made it *)
Definition fresh_units {Value} (c : CompiledGraph Value) : Prop :=
  forall k u, Dict.get (cg_nodes c) k = Some u -> exists node, u = node_unit k node.

(** the units of [c] are still registered in [c'] *)
Definition keeps_units {Value} (c c' : CompiledGraph Value) : Prop :=
  forall k, Dict.mem (cg_nodes c) k = true -> Dict.mem (cg_nodes c') k = true.

(** the builder with every routing function replaced through [f]; names of
    branches, [ends] and [then] stay *)
Definition reroute_branch {Value} (f : PathRunnable Value -> PathRunnable Value)
  (b : Branch Value) : Branch Value :=
  mkBranch (f (path b)) (ends b) (then_ b).

Definition map_values {V W} (h : V -> W) (d : Dict.t V) : Dict.t W :=
  map (fun entry => (fst entry, h (snd entry))) d.

Definition reroute {Value} (f : PathRunnable Value -> PathRunnable Value)
  (g : Graph Value) : Graph Value :=
  mkGraph (nodes g) (edges g)
    (map_values (map_values (reroute_branch f)) (branches g))
    (support_multiple_edges g) (compiled g).

Definition reroute_writer {Value} (f : PathRunnable Value -> PathRunnable Value)
  (w : Writer Value) : Writer Value :=
  match w with
  | ChannelWrite entries => ChannelWrite entries
  | BranchRun b start name => BranchRun (reroute_branch f b) start name
  end.

Definition reroute_unit {Value} (f : PathRunnable Value -> PathRunnable Value)
  (u : PregelNode Value) : PregelNode Value :=
  mkPregelNode (channels u) (triggers u) (bound u)
    (map (reroute_writer f) (writers u)) (tags u).

(** the same plan, with the routing functions inside its writers replaced *)
Definition reroute_plan {Value} (f : PathRunnable Value -> PathRunnable Value)
  (c : CompiledGraph Value) : CompiledGraph Value :=
  mkCompiledGraph (map_values (reroute_unit f) (cg_nodes c)) (cg_channels c)
    (input_channels c) (output_channels c) (stream_channels c)
    (interrupt_before_nodes c) (interrupt_after_nodes c) (debug c).

Definition result_map {A B} (h : A -> B) (r : Result A) : Result B :=
  match r with
  | Ok a => Ok (h a)
  | Raise e => Raise e
  end.

(** what every builder method keeps true of the builder: the dictionaries
    have one entry per key, the reserved identifiers are no nodes, no edge
    leaves the terminal identifier or enters the entry identifier, the edge
    set has no duplicates and, unless multiple edges are allowed, no two
    edges share a source *)
Definition builder_invariant {Value} (g : Graph Value) : Prop :=
  NoDup (Dict.keys (nodes g)) /\
  ~ In START (Dict.keys (nodes g)) /\
  ~ In END (Dict.keys (nodes g)) /\
  NoDup (edges g) /\
  (forall s e, In (s, e) (edges g) -> s <> END /\ e <> START) /\
  (support_multiple_edges g = false -> NoDup (map fst (edges g))) /\
  NoDup (Dict.keys (branches g)) /\
  (forall s brs, In (s, brs) (branches g) -> NoDup (Dict.keys brs)).

(** two routing functions without a name of their own *)
Definition anonymous_to (label : string) : PathRunnable string :=
  mkPath None (fun _ => One label).

(** [self.branches[source][name]], without the insertion of a default *)
Definition find_branch {Value} (g : Graph Value) (source name : string)
  : option (Branch Value) :=
  match Dict.get (branches g) source with
  | Some d => Dict.get d name
  | None => None
  end.

(** the builders a program can reach: a fresh [Graph()] and whatever its
    methods leave behind, whether they return or raise *)
Inductive built {Value} : Graph Value -> Prop :=
| built_init : built Graph_init
| built_add_node g key action :
    built g -> built (state (add_node key action g))
| built_add_edge g start_key end_key :
    built g -> built (state (add_edge start_key end_key g))
| built_add_conditional_edges g source p path_map th :
    built g -> built (state (add_conditional_edges source p path_map th g))
| built_validate g interrupt :
    built g -> built (state (validate interrupt g))
| built_compile g ib ia dbg :
    built g -> built (state (compile ib ia dbg g)).

(** [k] is a declared node *)
Definition declared {Value} (g : Graph Value) (k : string) : Prop :=
  In k (Dict.keys (nodes g)).

(** what lines 228-239 put in [all_sources]: the source of an edge, the
    source of a branch, and the destinations of a branch that has a [then]
    node (the values of [ends], or the other declared nodes but [then]) *)
Definition is_source {Value} (g : Graph Value) (x : string) : Prop :=
  (exists e, In (x, e) (edges g)) \/
  (exists name b, has_branch g x name b) \/
  (exists s name b th m,
     has_branch g s name b /\ then_ b = Some th /\ ends b = Some m /\
     In x (Dict.values m)) \/
  (exists s name b th,
     has_branch g s name b /\ then_ b = Some th /\ ends b = None /\
     declared g x /\ x <> s /\ x <> th).

(** what lines 249-265 put in [all_targets]: the target of an edge, the
    [then] node of a branch, the values of its [ends], and for a branch
    with no [ends] the terminal identifier and the other declared nodes but
    [then] *)
Definition is_target {Value} (g : Graph Value) (x : string) : Prop :=
  (exists s, In (s, x) (edges g)) \/
  (exists s name b, has_branch g s name b /\ then_ b = Some x) \/
  (exists s name b m,
     has_branch g s name b /\ ends b = Some m /\ In x (Dict.values m)) \/
  (exists s name b,
     has_branch g s name b /\ ends b = None /\
     (x = END \/ (declared g x /\ x <> s /\ then_ b <> Some x))).

(** the values of every [ends] mapping are declared nodes or the terminal
    identifier *)
Definition ends_valid {Value} (g : Graph Value) : Prop :=
  forall s name b m e,
    has_branch g s name b -> ends b = Some m -> In e (Dict.values m) ->
    declared g e \/ e = END.

(** the source checks of lines 241-246 pass: every declared node is a
    source, and with no declared node there is no source at all *)
Definition sources_pass {Value} (g : Graph Value) : Prop :=
  (forall k, declared g k -> is_source g k) /\
  (nodes g = [] -> forall x, ~ is_source g x).

(** a node that nothing leaves and nothing enters, beside the line A - B *)
Definition isolated_graph : M (Graph string) unit :=
  (line_graph ;; add_node "C" noop)%py.

(** an edge into an identifier nobody declared *)
Definition typo_graph : M (Graph string) unit :=
  (add_node "A" noop ;;
   set_entry_point "A" ;;
   add_edge "A" "typo")%py.

(** a branch whose mapping names an identifier nobody declared *)
Definition bad_ends_graph : M (Graph string) unit :=
  (add_node "A" noop ;;
   set_entry_point "A" ;;
   add_conditional_edges "A" (route_to "x") (Some [("x", "nowhere"); ("y", END)]) None)%py.

(** B has an outgoing edge but nothing leads to it *)
Definition unreachable_graph : M (Graph string) unit :=
  (add_node "A" noop ;;
   add_node "B" noop ;;
   set_entry_point "A" ;;
   set_finish_point "A" ;;
   set_finish_point "B")%py.

(** where a trigger [t] of the unit [k] can come from: an edge into [k], a
    branch that can route to [k], or the subscription of the hidden entry
    unit *)
Definition trigger_origin {Value} (g : Graph Value) (k t : string) : Prop :=
  (In (t, k) (edges g) /\ k <> END) \/
  (exists s name b,
     has_branch g s name b /\ t = branch_channel s name k /\ k <> END /\
     (truthy (ends b) = true -> exists m, ends b = Some m /\ In k (Dict.values m))) \/
  (k = START /\ t = START /\ exists name b, has_branch g START name b).

Definition well_triggered {Value} (g : Graph Value) (c : CompiledGraph Value) : Prop :=
  forall k u, Dict.get (cg_nodes c) k = Some u ->
    channels u = triggers u /\
    forall t, In t (triggers u) -> trigger_origin g k t.

(** what a unit of the plan can be: a declared node, or the hidden entry
    unit of a branch on the entry identifier *)
Definition unit_origin {Value} (g : Graph Value) (k : string) : Prop :=
  declared g k \/ (k = START /\ exists name b, has_branch g START name b).

(** the destinations line 366 gives a branch a channel for: not the terminal
    identifier, a unit of the plan, and a value of [ends] when that is a
    non-empty mapping *)
Definition branch_destination {Value} (g : Graph Value) (b : Branch Value) (e : string)
  : Prop :=
  e <> END /\ unit_origin g e /\
  (truthy (ends b) = true -> exists m, ends b = Some m /\ In e (Dict.values m)).

(** what a channel of the registry can be *)
Definition channel_origin {Value} (g : Graph Value) (ch : string) : Prop :=
  ch = START \/ ch = END \/ declared g ch \/
  exists s name b e,
    has_branch g s name b /\ branch_destination g b e /\ ch = branch_channel s name e.

(** what the lowering needs beyond validation: an edge into the terminal
    identifier starts at a declared node, and a branch sits on a declared
    node or on the entry identifier *)
Definition lowerable {Value} (g : Graph Value) : Prop :=
  (forall s, In (s, END) (edges g) -> declared g s) /\
  (forall s name b, has_branch g s name b -> declared g s \/ s = START).

(** Lines 296-320 of [Graph.compile]: the plan as the three attach loops
    leave it, before line 323 hands it to the runner's own validation. *)
Definition attach_all {Value} (self : Graph Value)
  (interrupt_before interrupt_after : list string) (debug : bool)
  : Result (CompiledGraph Value) :=
  let compiled := empty_plan interrupt_before interrupt_after debug in
  let compiled :=
    fold_left (fun c entry => attach_node c (fst entry) (snd entry)) (nodes self) compiled in
  rbind (foldM (fun c e => attach_edge c (fst e) (snd e)) (edges self) compiled) (fun compiled =>
  foldM (fun c entry =>
           foldM (fun c' item => attach_branch c' (fst entry) (fst item) (snd item))
                 (snd entry) c)
        (branches self) compiled).

(** an entry edge straight to the terminal identifier, beside a branch of
    the entry identifier that leads to A *)
Definition entry_to_end_graph : M (Graph string) unit :=
  (add_node "A" noop ;;
   set_entry_point END ;;
   set_conditional_entry_point (route_to "a") (Some [("a", "A")]) None ;;
   set_finish_point "A")%py.

Definition well_registered {Value} (g : Graph Value) (c : CompiledGraph Value) : Prop :=
  forall ch, Dict.mem (cg_channels c) ch = true -> channel_origin g ch.

Definition units_known {Value} (g : Graph Value) (c : CompiledGraph Value) : Prop :=
  forall k, Dict.mem (cg_nodes c) k = true -> unit_origin g k.

(** every unit is the unit of a declared node: so it is until the branches
    are attached *)
Definition units_declared {Value} (g : Graph Value) (c : CompiledGraph Value) : Prop :=
  forall k, Dict.mem (cg_nodes c) k = true -> declared g k.

(** every declared node has its unit *)
Definition units_cover {Value} (g : Graph Value) (c : CompiledGraph Value) : Prop :=
  forall k, declared g k -> Dict.mem (cg_nodes c) k = true.

(** the attributes of the plan that the attach methods never touch *)
Definition same_frame {Value} (c c' : CompiledGraph Value) : Prop :=
  input_channels c' = input_channels c /\
  output_channels c' = output_channels c /\
  stream_channels c' = stream_channels c /\
  interrupt_before_nodes c' = interrupt_before_nodes c /\
  interrupt_after_nodes c' = interrupt_after_nodes c /\
  debug c' = debug c.

(** the registry only grows *)
Definition keeps_channels {Value} (c c' : CompiledGraph Value) : Prop :=
  forall ch, Dict.mem (cg_channels c) ch = true -> Dict.mem (cg_channels c') ch = true.

(** does the identifier contain the separator of the channel names? *)
Fixpoint has_colon (s : string) : bool :=
  match s with
  | EmptyString => false
  | String ch rest => Ascii.eqb ch ":"%char || has_colon rest
  end.



(** every trigger is a registered channel or the source of an edge *)
Definition triggers_accounted {Value} (g : Graph Value) (c : CompiledGraph Value) : Prop :=
  Dict.mem (cg_channels c) START = true /\
  forall k u t, Dict.get (cg_nodes c) k = Some u -> In t (triggers u) ->
    Dict.mem (cg_channels c) t = true \/ In (t, k) (edges g).

(** a fixed writer to the terminal channel comes from an edge *)
Definition terminal_writers_from_edges {Value} (g : Graph Value) (c : CompiledGraph Value)
  : Prop :=
  forall k u, Dict.get (cg_nodes c) k = Some u ->
    In (ChannelWrite [END]) (writers u) -> k = END \/ In (k, END) (edges g).

(** the writer stages of the unit registered under [k]; none when the
    plan has no such unit *)
Definition writers_at {Value} (c : CompiledGraph Value) (k : string) : list (Writer Value) :=
  match Dict.get (cg_nodes c) k with
  | Some u => writers u
  | None => []
  end.

(** [self.branches[k].items()] *)
Definition branches_at {Value} (g : Graph Value) (k : string)
  : list (string * Branch Value) :=
  flat_map (fun entry => if String.eqb (fst entry) k then snd entry else []) (branches g).

(** a routing writer stage registered for the branch [name] on [start] *)
Definition routes_for {Value} (start name : string) (w : Writer Value) : bool :=
  match w with
  | ChannelWrite _ => false
  | BranchRun _ s n => String.eqb s start && String.eqb n name
  end.

(** the stage [w] can write to the channel [ch]: [ch] is an entry of a
    fixed writer, or some run of a routing writer returns and writes to it *)
Definition may_write {Value} (w : Writer Value) (ch : string) : Prop :=
  match w with
  | ChannelWrite entries => In ch entries
  | BranchRun _ _ _ =>
      exists input chans, run_writer w input = Ok chans /\ In ch chans
  end.

(** * Properties *)

Ltac case_ifs :=
  repeat match goal with
         | |- context [if ?c then _ else _] => destruct c eqn:?; simpl
         end.

(** ** Containers *)

Lemma get_In {V} (d : Dict.t V) k v : Dict.get d k = Some v -> In (k, v) d.
Proof.
  induction d as [|[k' v'] d IH]; simpl; [discriminate|].
  destruct (String.eqb_spec k' k) as [->|Hne]; intro H.
  - injection H as ->. now left.
  - right. now apply IH.
Qed.

Lemma mem_keys {V} (d : Dict.t V) k : Dict.mem d k = true <-> In k (Dict.keys d).
Proof.
  unfold Dict.mem. induction d as [|[k' v'] d IH]; simpl.
  - split; [discriminate | tauto].
  - destruct (String.eqb_spec k' k) as [->|Hne].
    + split; auto.
    + rewrite IH. split; [auto | intros [H|H]; [contradiction | exact H]].
Qed.

Lemma mem_get {V} (d : Dict.t V) k : Dict.mem d k = true <-> exists v, Dict.get d k = Some v.
Proof.
  unfold Dict.mem. destruct (Dict.get d k) as [v|].
  - split; eauto.
  - split; [discriminate | intros [v H]; discriminate].
Qed.

Lemma get_set_same {V} (d : Dict.t V) k v : Dict.get (Dict.set d k v) k = Some v.
Proof.
  induction d as [|[k' v'] d IH]; simpl.
  - now rewrite String.eqb_refl.
  - destruct (String.eqb_spec k' k) as [->|Hne]; simpl.
    + now rewrite String.eqb_refl.
    + destruct (String.eqb_spec k' k); [contradiction | exact IH].
Qed.

Lemma get_set_other {V} (d : Dict.t V) k k' v :
  k <> k' -> Dict.get (Dict.set d k v) k' = Dict.get d k'.
Proof.
  intro Hne. induction d as [|[k0 v0] d IH]; simpl.
  - destruct (String.eqb_spec k k'); [contradiction | reflexivity].
  - destruct (String.eqb_spec k0 k) as [->|Hk]; simpl.
    + destruct (String.eqb_spec k k'); [contradiction | reflexivity].
    + destruct (String.eqb_spec k0 k'); [reflexivity | exact IH].
Qed.

Lemma get_set {V} (d : Dict.t V) k k' v :
  Dict.get (Dict.set d k v) k' = if String.eqb k k' then Some v else Dict.get d k'.
Proof.
  destruct (String.eqb_spec k k') as [->|Hne].
  - apply get_set_same.
  - now apply get_set_other.
Qed.

Lemma mem_set {V} (d : Dict.t V) k k' v :
  Dict.mem (Dict.set d k v) k' = String.eqb k k' || Dict.mem d k'.
Proof.
  unfold Dict.mem. rewrite get_set. now destruct (String.eqb k k').
Qed.

Lemma keys_set_present {V} (d : Dict.t V) k v :
  Dict.mem d k = true -> Dict.keys (Dict.set d k v) = Dict.keys d.
Proof.
  unfold Dict.mem. induction d as [|[k0 v0] d IH]; simpl; [discriminate|].
  destruct (String.eqb_spec k0 k) as [->|Hk]; simpl; [reflexivity|].
  intro H. now rewrite IH.
Qed.

Lemma keys_set_NoDup {V} (d : Dict.t V) k v :
  NoDup (Dict.keys d) -> NoDup (Dict.keys (Dict.set d k v)).
Proof.
  intro Hnd. destruct (Dict.mem d k) eqn:Hm.
  - now rewrite keys_set_present.
  - assert (Hk : Dict.keys (Dict.set d k v) = (Dict.keys d ++ [k])%list).
    { clear Hnd. unfold Dict.mem in Hm. induction d as [|[k0 v0] d IH]; simpl in *; [reflexivity|].
      destruct (String.eqb_spec k0 k) as [->|Hk]; [discriminate|].
      simpl. now rewrite IH. }
    rewrite Hk. apply NoDup_app; [exact Hnd | repeat constructor; intros [] | ].
    intros x Hx [<-|[]]. apply mem_keys in Hx. congruence.
Qed.

Lemma str_mem_In x s : str_mem x s = true <-> In x s.
Proof.
  unfold str_mem, PySet.mem. rewrite existsb_exists. split.
  - intros [y [Hy He]]. apply String.eqb_eq in He. now subst.
  - intro H. exists x. split; [exact H | apply String.eqb_refl].
Qed.

Lemma str_add_In x y s : In x (str_add y s) <-> x = y \/ In x s.
Proof.
  unfold str_add, PySet.add. fold (str_mem y s).
  destruct (str_mem y s) eqn:Hm.
  - apply str_mem_In in Hm. split; [auto | intros [->|H]; assumption].
  - rewrite in_app_iff. simpl. split.
    + intros [H|[<-|[]]]; auto.
    + intros [->|H]; auto.
Qed.

(** ** Loops *)

Lemma fold_left_visit {A B} (R : A -> A -> Prop) (f : A -> B -> A) :
  (forall a, R a a) ->
  (forall a b c, R a b -> R b c -> R a c) ->
  (forall a x, R a (f a x)) ->
  forall l a x, In x l ->
    exists a1, R a a1 /\ R (f a1 x) (fold_left f l a).
Proof.
  intros Hrefl Htrans Hstep.
  assert (Hmono : forall l a, R a (fold_left f l a)).
  { induction l as [|y l IH]; intro a; simpl; [apply Hrefl|].
    eapply Htrans; [apply Hstep | apply IH]. }
  induction l as [|y l IH]; intros a x Hin; [destruct Hin|].
  destruct Hin as [->|Hin]; simpl.
  - exists a. split; [apply Hrefl | apply Hmono].
  - destruct (IH (f a y) x Hin) as [a1 [H1 H2]].
    exists a1. split; [eapply Htrans; [apply Hstep | exact H1] | exact H2].
Qed.

Lemma fold_left_mono {A B} (R : A -> A -> Prop) (f : A -> B -> A) :
  (forall a, R a a) ->
  (forall a b c, R a b -> R b c -> R a c) ->
  (forall a x, R a (f a x)) ->
  forall l a, R a (fold_left f l a).
Proof.
  intros Hrefl Htrans Hstep. induction l as [|y l IH]; intro a; simpl; [apply Hrefl|].
  eapply Htrans; [apply Hstep | apply IH].
Qed.

Lemma foldM_mono {A B} (R : A -> A -> Prop) (f : A -> B -> Result A) :
  (forall a, R a a) ->
  (forall a b c, R a b -> R b c -> R a c) ->
  (forall a x a', f a x = Ok a' -> R a a') ->
  forall l a r, foldM f l a = Ok r -> R a r.
Proof.
  intros Hrefl Htrans Hstep. induction l as [|y l IH]; intros a r; simpl.
  - intro H. injection H as <-. apply Hrefl.
  - destruct (f a y) as [a'|e] eqn:Hf; simpl; [|discriminate].
    intro H. eapply Htrans; [eapply Hstep; exact Hf | eapply IH; exact H].
Qed.

Lemma foldM_visit {A B} (R : A -> A -> Prop) (f : A -> B -> Result A) :
  (forall a, R a a) ->
  (forall a b c, R a b -> R b c -> R a c) ->
  (forall a x a', f a x = Ok a' -> R a a') ->
  forall l a r x, foldM f l a = Ok r -> In x l ->
    exists a1 a2, R a a1 /\ f a1 x = Ok a2 /\ R a2 r.
Proof.
  intros Hrefl Htrans Hstep. induction l as [|y l IH]; intros a r x Hf Hin; [destruct Hin|].
  simpl in Hf. destruct (f a y) as [a'|e] eqn:Hfy; simpl in Hf; [|discriminate].
  destruct Hin as [->|Hin].
  - exists a, a'. split; [apply Hrefl|]. split; [exact Hfy|].
    eapply foldM_mono; eauto.
  - destruct (IH a' r x Hf Hin) as [a1 [a2 [H1 [H2 H3]]]].
    exists a1, a2. split; [eapply Htrans; [eapply Hstep; exact Hfy | exact H1] | auto].
Qed.

Lemma foldM_invariant {A B} (P : A -> Prop) (f : A -> B -> Result A) :
  (forall a x a', P a -> f a x = Ok a' -> P a') ->
  forall l a r, P a -> foldM f l a = Ok r -> P r.
Proof.
  intros Hstep. induction l as [|y l IH]; intros a r Ha; simpl.
  - intro H. injection H as <-. exact Ha.
  - destruct (f a y) as [a'|e] eqn:Hf; simpl; [|discriminate].
    apply IH. eapply Hstep; eauto.
Qed.

Lemma foldM_raise {A B} (Q : Error -> Prop) (f : A -> B -> Result A) :
  (forall a x e, f a x = Raise e -> Q e) ->
  forall l a e, foldM f l a = Raise e -> Q e.
Proof.
  intros Hstep. induction l as [|y l IH]; intros a e; simpl; [discriminate|].
  destruct (f a y) as [a'|e'] eqn:Hf; simpl.
  - apply IH.
  - intro H. injection H as <-. eapply Hstep; exact Hf.
Qed.

(** ** The validator *)

Section ValidatorFacts.
Context {Value : Type}.
Implicit Types (g : Graph Value) (b : Branch Value).

Lemma validate_result i g : result (validate i g) = validate_checks g i.
Proof.
  unfold validate, bind, gets, lift, modify; simpl.
  destruct (validate_checks g i) as [[]|e]; reflexivity.
Qed.

Lemma validate_state i g :
  state (validate i g) = if is_ok (validate_checks g i) then set_compiled g true else g.
Proof.
  unfold validate, bind, gets, lift, modify; simpl.
  destruct (validate_checks g i) as [[]|e]; reflexivity.
Qed.

Lemma validate_logged i g : logged (validate i g) = [].
Proof.
  unfold validate, bind, gets, lift, modify; simpl.
  destruct (validate_checks g i) as [[]|e]; reflexivity.
Qed.

Lemma grows_refl a : grows a a.
Proof. apply incl_refl. Qed.

Lemma grows_trans a1 a2 a3 : grows a1 a2 -> grows a2 a3 -> grows a1 a3.
Proof. apply incl_tran. Qed.

Lemma other_nodes_grow (start th : string) keys a :
  grows a
    (fold_left
       (fun a node =>
          (if negb (String.eqb node start) && negb (String.eqb node th)
           then str_add node (fst a) else fst a, Some node)) keys a).
Proof.
  apply fold_left_mono; [apply grows_refl | apply grows_trans |].
  intros [s v] node x Hx; simpl in *.
  destruct (negb _ && negb _); [apply str_add_In; now right | exact Hx].
Qed.

Lemma other_nodes_added (start th : string) keys a n :
  In n keys -> n <> start -> n <> th ->
  In n (fst (fold_left
       (fun a node =>
          (if negb (String.eqb node start) && negb (String.eqb node th)
           then str_add node (fst a) else fst a, Some node)) keys a)).
Proof.
  intros Hin Hs Ht.
  destruct (fold_left_visit grows
    (fun a node =>
       (if negb (String.eqb node start) && negb (String.eqb node th)
        then str_add node (fst a) else fst a, Some node))
    grows_refl grows_trans) with (l := keys) (a := a) (x := n) as [a1 [_ H]]; auto.
  - intros [s v] node x Hx; simpl in *.
    destruct (negb _ && negb _); [apply str_add_In; now right | exact Hx].
  - apply H. simpl.
    destruct (String.eqb_spec n start); [contradiction|].
    destruct (String.eqb_spec n th); [contradiction|].
    simpl. apply str_add_In. now left.
Qed.

Lemma ends_grow (vals : list string) (s : list string) :
  incl s (fold_left (fun s end_ => str_add end_ s) vals s).
Proof.
  apply (fold_left_mono (@incl string)); [apply incl_refl | apply incl_tran |].
  intros a x y Hy. apply str_add_In. now right.
Qed.

Lemma sources_of_branch_grows g start a item :
  grows a (sources_of_branch g start a item).
Proof.
  unfold sources_of_branch.
  assert (H0 : grows a (str_add start (fst a), snd a)).
  { intros x Hx. simpl. apply str_add_In. now right. }
  destruct (then_ (snd item)) as [th|]; [|exact H0].
  destruct (ends (snd item)) as [e|].
  - eapply grows_trans; [exact H0|]. unfold grows; simpl. apply ends_grow.
  - eapply grows_trans; [exact H0 | apply other_nodes_grow].
Qed.

Lemma sources_of_branches_grows g start brs a :
  grows a (fold_left (sources_of_branch g start) brs a).
Proof.
  apply fold_left_mono; [apply grows_refl | apply grows_trans |].
  intros; apply sources_of_branch_grows.
Qed.

(** a visited branch leaves what its loop body adds in [all_sources] *)
Lemma all_sources_of_branch g start name b :
  has_branch g start name b ->
  forall x, (forall a, In x (fst (sources_of_branch g start a (name, b)))) ->
  In x (all_sources g).
Proof.
  intros [brs [Hout Hin]] x Hx.
  unfold all_sources, assemble_sources.
  destruct (fold_left_visit grows
    (fun acc entry => fold_left (sources_of_branch g (fst entry)) (snd entry) acc)
    grows_refl grows_trans) with (l := branches g) (x := (start, brs))
    (a := (PySet.of_list String.eqb (map fst (_all_edges g)), @None string))
    as [a1 [_ H1]]; auto.
  { intros; apply sources_of_branches_grows. }
  apply H1. simpl.
  destruct (fold_left_visit grows (sources_of_branch g start)
    grows_refl grows_trans) with (l := brs) (x := (name, b)) (a := a1)
    as [a2 [_ H2]]; auto.
  intros; apply sources_of_branch_grows.
Qed.

Lemma check_dead_ends_raise keys srcs node e :
  check_dead_ends keys srcs node = Raise e ->
  exists k, e = DeadEnd k /\ In k keys /\ str_mem k srcs = false.
Proof.
  revert node. induction keys as [|k keys IH]; intro node; simpl; [discriminate|].
  destruct (str_mem k srcs) eqn:Hm; simpl.
  - intro H. destruct (IH _ H) as [k' [He [Hin Hk]]]. exists k'. auto.
  - intro H. injection H as <-. exists k. auto.
Qed.

(** after the loop, [node] is bound to a declared node unless there is none *)
Lemma check_dead_ends_binds keys srcs node node' :
  check_dead_ends keys srcs node = Ok node' ->
  keys <> [] -> exists n, node' = Some n /\ In n keys.
Proof.
  revert node. induction keys as [|k keys IH]; intros node H Hne; [contradiction|].
  simpl in H. destruct (str_mem k srcs); simpl in H; [|discriminate].
  destruct keys as [|k' keys'].
  - simpl in H. injection H as <-. exists k. split; [reflexivity | now left].
  - destruct (IH _ H) as [n [Hn Hin]]; [discriminate|].
    exists n. split; [exact Hn | now right].
Qed.

Lemma check_dead_ends_empty srcs node : check_dead_ends [] srcs node = Ok node.
Proof. reflexivity. Qed.

(** the guard of line 245 never fires once [node] is a declared node *)
Lemma check_sources_stale g iter n :
  Dict.mem (nodes g) n = true -> check_sources g iter (Some n) = Ok tt.
Proof.
  intro Hm. induction iter as [|s iter IH]; simpl; [reflexivity|].
  rewrite Hm. simpl. exact IH.
Qed.

Lemma check_sources_unbound g iter :
  iter <> [] -> check_sources g iter None = Raise (UnboundLocalError "node").
Proof. destruct iter; [contradiction | reflexivity]. Qed.

Lemma validate_targets_raise g e :
  validate_targets g = Raise e -> raised_by_targets e.
Proof.
  unfold validate_targets.
  destruct (assemble_targets g) as [t|e'] eqn:Ha; simpl.
  - destruct (check_reachable (Dict.keys (nodes g)) t) as [[]|e'] eqn:Hr; simpl.
    + generalize t. clear. intro t. induction t as [|x t IH]; simpl; [discriminate|].
      destruct (negb _ && negb _); [|exact IH].
      intro H. injection H as <-. exact I.
    + intro H. injection H as <-. revert Hr. generalize (Dict.keys (nodes g)).
      induction l as [|k l IH]; simpl; [discriminate|].
      destruct (negb _); [|exact IH]. intro H. injection H as <-. exact I.
  - intro H. injection H as <-. revert Ha. unfold assemble_targets.
    apply foldM_raise. intros a [start brs] e0. simpl.
    apply foldM_raise. intros a' [cond b] e1. unfold targets_of_branch; simpl.
    destruct (ends b) as [m|]; [|discriminate].
    apply foldM_raise. intros t x e2.
    destruct (negb _ && negb _); [|discriminate].
    intro H. injection H as <-. exact I.
Qed.

Lemma validate_interrupts_raise g i e :
  validate_interrupts g i = Raise e -> exists n, e = InterruptNotFound n.
Proof.
  destruct i as [l|]; simpl; [|discriminate].
  induction l as [|x l IH]; simpl; [discriminate|].
  destruct (negb _); [|exact IH]. intro H. injection H as <-. eauto.
Qed.

End ValidatorFacts.

Lemma fold_left_invariant {A B} (P : A -> Prop) (f : A -> B -> A) :
  (forall a x, P a -> P (f a x)) ->
  forall l a, P a -> P (fold_left f l a).
Proof.
  intro Hstep. induction l as [|y l IH]; intros a Ha; simpl; [exact Ha|].
  apply IH. now apply Hstep.
Qed.

Section ValidatorClaims.
Context {Value : Type}.
Implicit Types (g : Graph Value) (b : Branch Value).

Lemma validate_sources_raise g e :
  validate_sources g = Raise e ->
  (exists k, e = DeadEnd k /\ In k (Dict.keys (nodes g)) /\ ~ In k (all_sources g))
  \/ e = UnboundLocalError "node"
  \/ (exists s, e = UnknownSourceNode s).
Proof.
  unfold validate_sources, all_sources.
  destruct (check_dead_ends _ _ _) as [node|e'] eqn:Hd; simpl.
  - intro H. right. revert H. generalize (fst (assemble_sources g)).
    induction l as [|s l IH]; simpl; [discriminate|].
    destruct node as [n|]; [|intro H; injection H as <-; now left].
    destruct (negb _ && negb _); [|exact IH].
    intro H. injection H as <-. right. eauto.
  - intro H. injection H as <-. left.
    destruct (check_dead_ends_raise _ _ _ _ Hd) as [k [He [Hin Hm]]].
    exists k. repeat split; auto.
    intro Hc. apply str_mem_In in Hc. congruence.
Qed.

(** with no declared node, nothing binds [node] *)
Lemma assemble_sources_unbound g :
  nodes g = [] -> snd (assemble_sources g) = None.
Proof.
  intro Hn. unfold assemble_sources.
  apply (fold_left_invariant (fun a : list string * option string => snd a = None));
    [|reflexivity].
  intros a [start brs] Ha. simpl.
  apply (fold_left_invariant (fun a : list string * option string => snd a = None));
    [|exact Ha].
  intros a' [name b] Ha'. unfold sources_of_branch; simpl.
  destruct (then_ b); [|exact Ha'].
  destruct (ends b); [exact Ha'|].
  rewrite Hn. simpl. exact Ha'.
Qed.

(** C10: with at least one declared node, validation never raises the
    unknown-source error, whatever the sources are, because the guard reads
    the variable the loop over the declared nodes left bound; with no
    declared node and a non-empty [all_sources], the guard reads an unbound
    variable. *)
Theorem C10_stale_variable_guard g interrupt :
  (nodes g <> [] ->
     (forall node, check_dead_ends (Dict.keys (nodes g)) (all_sources g)
                     (snd (assemble_sources g)) = Ok node ->
                   check_sources g (all_sources g) node = Ok tt) /\
     (forall source, result (validate interrupt g) <> Raise (UnknownSourceNode source))) /\
  (nodes g = [] -> all_sources g <> [] ->
     result (validate interrupt g) = Raise (UnboundLocalError "node")).
Proof.
  split.
  - intro Hne.
    assert (Hguard : forall node,
      check_dead_ends (Dict.keys (nodes g)) (all_sources g)
        (snd (assemble_sources g)) = Ok node ->
      check_sources g (all_sources g) node = Ok tt).
    { intros node Hd.
      destruct (check_dead_ends_binds _ _ _ _ Hd) as [n [-> Hin]].
      - unfold Dict.keys. destruct (nodes g); [contradiction | discriminate].
      - apply check_sources_stale. now apply mem_keys. }
    split; [exact Hguard|].
    intros source. rewrite validate_result. unfold validate_checks.
    destruct (validate_sources g) as [[]|e] eqn:H1; simpl.
    + destruct (validate_targets g) as [[]|e] eqn:H2; simpl.
      * intro H. apply validate_interrupts_raise in H. destruct H as [x H]; discriminate.
      * intro H. injection H as ->. apply validate_targets_raise in H2. exact H2.
    + intro H. injection H as ->. revert H1. unfold validate_sources.
      fold (all_sources g).
      destruct (check_dead_ends _ _ _) as [node|e'] eqn:Hd; simpl.
      * rewrite (Hguard node eq_refl). discriminate.
      * intro H. injection H as ->.
        apply check_dead_ends_raise in Hd. destruct Hd as [k [Hk _]]. discriminate.
  - intros Hn Hs. rewrite validate_result. unfold validate_checks, validate_sources.
    rewrite (assemble_sources_unbound g Hn). rewrite Hn. simpl.
    fold (all_sources g). now rewrite check_sources_unbound.
Qed.

End ValidatorClaims.

(** With a [then] node, the convergence node itself is left out too. *)
Lemma open_then_graph_sources :
  all_sources (state (build open_then_graph)) = [START; "T"; "A"; "B"].
Proof. reflexivity. Qed.

Lemma C10_witness :
  In "ghost" (all_sources (state (build ghost_graph))) /\
  Dict.mem (nodes (state (build ghost_graph))) "ghost" = false /\
  "ghost" <> START /\
  result (validate None (state (build ghost_graph)))
    <> Raise (UnknownSourceNode "ghost") /\
  result (validate None (state (build no_nodes_graph)))
    = Raise (UnboundLocalError "node").
Proof.
  split; [simpl; right; right; left; reflexivity|].
  split; [reflexivity|].
  split; [discriminate|].
  split.
  - apply (proj1 (C10_stale_variable_guard (state (build ghost_graph)) None)).
    simpl. discriminate.
  - apply (proj2 (C10_stale_variable_guard (state (build no_nodes_graph)) None)).
    + reflexivity.
    + simpl. discriminate.
Defined.

Lemma ghost_graph_validates :
  result (validate None (state (build ghost_graph))) = Ok tt.
Proof. reflexivity. Qed.

(** ** The builder *)

Section BuilderClaims.
Context {Value : Type}.
Implicit Types (g : Graph Value) (h : Heap Value).

(** C8: when [add_node], [add_edge] or [add_conditional_edges] raises, the
    builder afterwards is the builder before: nodes, edges and branches (and
    both flags) are untouched. *)
Theorem C8_failed_call_leaves_builder g e :
  (forall key action,
     result (add_node key action g) = Raise e ->
     state (add_node key action g) = g) /\
  (forall start_key end_key,
     result (add_edge start_key end_key g) = Raise e ->
     state (add_edge start_key end_key g) = g) /\
  (forall source path path_map th,
     result (add_conditional_edges source path path_map th g) = Raise e ->
     state (add_conditional_edges source path path_map th g) = g).
Proof.
  split; [|split].
  - intros key action. unfold add_node, bind, gets, when, warning, ret, raise, modify; simpl.
    destruct (compiled g); simpl; case_ifs; intro H; first [reflexivity | discriminate H].
  - intros s t. unfold add_edge, bind, gets, when, warning, ret, raise, modify; simpl.
    destruct (compiled g); simpl; case_ifs; intro H; first [reflexivity | discriminate H].
  - intros source p path_map th.
    unfold add_conditional_edges, defaultdict_getitem, bind, gets, when, warning,
      ret, raise, modify; simpl.
    destruct (compiled g); simpl;
      destruct (Dict.get (branches g) source) as [d|] eqn:Hd; simpl;
      try (rewrite get_set_same; simpl);
      case_ifs; rewrite ?Hd; simpl;
      intro H; first [reflexivity | discriminate H].
Qed.

Lemma compile_result ib ia dbg g :
  result (compile ib ia dbg g) =
  rbind (validate_checks g (Some (or_empty ib ++ or_empty ia)%list))
        (fun _ => lower (set_compiled g true) (or_empty ib) (or_empty ia) dbg).
Proof.
  unfold compile, bind, gets, lift. cbv beta zeta.
  pose proof (validate_result (Some (or_empty ib ++ or_empty ia)%list) g) as Hr.
  pose proof (validate_state (Some (or_empty ib ++ or_empty ia)%list) g) as Hs.
  destruct (validate (Some (or_empty ib ++ or_empty ia)%list) g) as [s1 l1 r1].
  simpl in Hr, Hs. subst s1 r1.
  destruct (validate_checks g _) as [[]|e]; reflexivity.
Qed.

Lemma compile_state ib ia dbg g :
  state (compile ib ia dbg g) =
  if is_ok (validate_checks g (Some (or_empty ib ++ or_empty ia)%list))
  then set_compiled g true else g.
Proof.
  unfold compile, bind, gets, lift. cbv beta zeta.
  pose proof (validate_result (Some (or_empty ib ++ or_empty ia)%list) g) as Hr.
  pose proof (validate_state (Some (or_empty ib ++ or_empty ia)%list) g) as Hs.
  destruct (validate (Some (or_empty ib ++ or_empty ia)%list) g) as [s1 l1 r1].
  simpl in Hr, Hs. subst s1 r1.
  destruct (validate_checks g _) as [[]|e]; reflexivity.
Qed.

Lemma compile_sets_compiled ib ia dbg g plan :
  result (compile ib ia dbg g) = Ok plan ->
  compiled (state (compile ib ia dbg g)) = true.
Proof.
  rewrite compile_result, compile_state.
  destruct (validate_checks g _) as [[]|e]; simpl; [reflexivity | discriminate].
Qed.

(** C9: on a builder already compiled, a call with valid arguments returns
    normally after logging one warning, changes the builder, and leaves every
    plan produced so far as it was. *)
Theorem C9_mutation_after_compile h :
  compiled (builder h) = true ->
  (forall key action,
     Dict.mem (nodes (builder h)) key = false -> key <> END -> key <> START ->
     let o := on_builder (add_node key action) h in
     result o = Ok tt /\ logged o = [warn_add_node] /\
     plans (state o) = plans h /\
     Dict.mem (nodes (builder (state o))) key = true) /\
  (forall start_key end_key,
     start_key <> END -> end_key <> START ->
     (support_multiple_edges (builder h) = true \/
      ~ In start_key (map fst (edges (builder h)))) ->
     let o := on_builder (add_edge start_key end_key) h in
     result o = Ok tt /\ logged o = [warn_add_edge] /\
     plans (state o) = plans h /\
     In (start_key, end_key) (edges (builder (state o)))) /\
  (forall source path path_map th,
     (forall d, Dict.get (branches (builder h)) source = Some d ->
                Dict.mem d (branch_name path) = false) ->
     let o := on_builder (add_conditional_edges source path path_map th) h in
     result o = Ok tt /\ logged o = [warn_add_edge] /\
     plans (state o) = plans h /\
     exists d, Dict.get (branches (builder (state o))) source = Some d /\
               Dict.get d (branch_name path) = Some (mkBranch path path_map th)).
Proof.
  intro Hc. split; [|split].
  - intros key action Hm He Hs.
    unfold on_builder, add_node, bind, gets, when, warning, ret, raise, modify.
    simpl. rewrite Hc. simpl. rewrite Hm.
    destruct (String.eqb_spec key END); [contradiction|].
    destruct (String.eqb_spec key START); [contradiction|].
    simpl. repeat split. now rewrite mem_set, String.eqb_refl.
  - intros s t Hs Ht Hfree.
    unfold on_builder, add_edge, bind, gets, when, warning, ret, raise, modify.
    simpl. rewrite Hc. simpl.
    destruct (String.eqb_spec s END); [contradiction|].
    destruct (String.eqb_spec t START); [contradiction|].
    assert (Hg : negb (support_multiple_edges (builder h))
                 && str_mem s (PySet.of_list String.eqb (map fst (edges (builder h))))
                 = false).
    { destruct Hfree as [->|Hfree]; [reflexivity|].
      apply andb_false_iff. right.
      destruct (str_mem s _) eqn:Hm; [|reflexivity].
      exfalso. apply Hfree. apply str_mem_In in Hm. revert Hm.
      unfold PySet.of_list.
      assert (Hgen : forall l acc,
        In s (fold_left (fun s0 x => PySet.add String.eqb x s0) l acc) ->
        In s l \/ In s acc).
      { induction l as [|x l IH]; intros acc H; simpl in *; [now right|].
        destruct (IH _ H) as [H1|H1]; [auto|].
        apply (proj1 (str_add_In s x acc)) in H1. destruct H1 as [->|H1]; auto. }
      intro H. destruct (Hgen _ _ H) as [H1|[]]. exact H1. }
    rewrite Hg. simpl. repeat split.
    unfold PySet.add. destruct (PySet.mem edge_eqb (s, t) (edges (builder h))) eqn:Hm.
    + unfold PySet.mem in Hm. apply existsb_exists in Hm.
      destruct Hm as [[s' t'] [Hin Heq]]. unfold edge_eqb in Heq. simpl in Heq.
      apply andb_true_iff in Heq. destruct Heq as [H1 H2].
      apply String.eqb_eq in H1, H2. now subst.
    + apply in_or_app. right. now left.
  - intros source p path_map th Hfree.
    unfold on_builder, add_conditional_edges, defaultdict_getitem, bind, gets, when,
      warning, ret, raise, modify.
    simpl. rewrite Hc. simpl.
    destruct (Dict.get (branches (builder h)) source) as [d|] eqn:Hd; simpl.
    + rewrite (Hfree d eq_refl). simpl. rewrite Hd. simpl. repeat split.
      exists (Dict.set d (branch_name p) (mkBranch p path_map th)).
      now rewrite !get_set_same.
    + rewrite get_set_same. simpl. repeat split.
      eexists. rewrite get_set_same. split; [reflexivity|].
      simpl. now rewrite String.eqb_refl.
Qed.

End BuilderClaims.

Lemma C8_witness :
  state (add_node "A" noop (state (build line_graph))) = state (build line_graph) /\
  state (add_edge "A" END (state (build line_graph))) = state (build line_graph) /\
  state (add_conditional_edges "S" (route_to "y") None None (state (build xy_graph)))
    = state (build xy_graph).
Proof.
  split; [|split].
  - apply (proj1 (C8_failed_call_leaves_builder (state (build line_graph))
                    (NodeAlreadyPresent "A"))).
    reflexivity.
  - apply (proj1 (proj2 (C8_failed_call_leaves_builder (state (build line_graph))
                    (AlreadyFoundPath "A")))).
    reflexivity.
  - apply (proj2 (proj2 (C8_failed_call_leaves_builder (state (build xy_graph))
                    (BranchAlreadyExists (Some "route") "S")))).
    reflexivity.
Defined.

Lemma C9_witness :
  let o := on_builder (add_node "C" noop) compiled_line_heap in
  result o = Ok tt /\ logged o = [warn_add_node] /\
  plans (state o) = plans compiled_line_heap /\
  Dict.mem (nodes (builder (state o))) "C" = true.
Proof.
  apply (proj1 (C9_mutation_after_compile compiled_line_heap eq_refl) "C" noop).
  - reflexivity.
  - discriminate.
  - discriminate.
Defined.

(** ** The lowering, on the example graphs *)

(** The edges are a Python set, whose iteration order is not fixed: the
    statement covers every order in which [compile] may meet them. *)
Lemma line_edges_orders (es : list (string * string)) :
  Permutation es [(START, "A"); ("A", "B"); ("B", END)] ->
  In es [ [(START, "A"); ("A", "B"); ("B", END)];
          [(START, "A"); ("B", END); ("A", "B")];
          [("A", "B"); (START, "A"); ("B", END)];
          [("A", "B"); ("B", END); (START, "A")];
          [("B", END); (START, "A"); ("A", "B")];
          [("B", END); ("A", "B"); (START, "A")] ].
Proof.
  intro Hp.
  pose proof (Permutation_length Hp) as Hl.
  assert (Hnd : NoDup es).
  { apply (Permutation_NoDup (Permutation_sym Hp)).
    repeat constructor; simpl; intuition discriminate. }
  assert (Hin : forall e, In e es -> In e [(START, "A"); ("A", "B"); ("B", END)]).
  { intros e He. eapply Permutation_in; eauto. }
  destruct es as [|x [|y [|z [|w es]]]]; try discriminate Hl.
  pose proof (Hin x (or_introl eq_refl)) as Hx.
  pose proof (Hin y (or_intror (or_introl eq_refl))) as Hy.
  pose proof (Hin z (or_intror (or_intror (or_introl eq_refl)))) as Hz.
  inversion Hnd as [|? ? Hnx Hnd1]; subst.
  inversion Hnd1 as [|? ? Hny Hnd2]; subst.
  simpl in Hnx, Hny.
  destruct Hx as [<-|[<-|[<-|[]]]];
    destruct Hy as [<-|[<-|[<-|[]]]];
    destruct Hz as [<-|[<-|[<-|[]]]];
    try (exfalso; tauto); simpl; tauto.
Qed.

(** C4: for the nodes A and B with the edges entry-A, A-B and B-terminal,
    validation succeeds and the plan has A triggered by the entry channel
    only, B triggered by the output channel of A only, and the writer to the
    terminal channel on the unit of B (and not on the unit of A). *)
Theorem C4_line_graph_plan (es : list (string * string)) :
  Permutation es [(START, "A"); ("A", "B"); ("B", END)] ->
  let g := set_edges (state (build line_graph)) es in
  result (validate None g) = Ok tt /\
  exists plan a b,
    result (compile None None false g) = Ok plan /\
    Dict.keys (cg_nodes plan) = ["A"; "B"] /\
    Dict.get (cg_nodes plan) "A" = Some a /\
    Dict.get (cg_nodes plan) "B" = Some b /\
    triggers a = [START] /\
    triggers b = ["A"] /\
    writers a = [ChannelWrite ["A"]] /\
    writers b = [ChannelWrite ["B"]; ChannelWrite [END]].
Proof.
  intro Hp. apply line_edges_orders in Hp. simpl in Hp. cbv zeta.
  destruct Hp as [<-|[<-|[<-|[<-|[<-|[<-|[]]]]]]];
    (split; [vm_compute; reflexivity|]);
    match goal with
    | |- exists plan a b, result ?c = Ok plan /\ _ =>
        destruct (result c) as [plan|e] eqn:Hc; vm_compute in Hc;
        [injection Hc as <- | discriminate Hc]
    end;
    eexists _, _, _; (split; [reflexivity|]); repeat split; reflexivity.
Qed.

Lemma C4_witness :
  result (validate None (state (build line_graph))) = Ok tt /\
  exists plan a b,
    result (compile None None false (state (build line_graph))) = Ok plan /\
    Dict.keys (cg_nodes plan) = ["A"; "B"] /\
    Dict.get (cg_nodes plan) "A" = Some a /\
    Dict.get (cg_nodes plan) "B" = Some b /\
    triggers a = [START] /\
    triggers b = ["A"] /\
    writers a = [ChannelWrite ["A"]] /\
    writers b = [ChannelWrite ["B"]; ChannelWrite [END]].
Proof.
  apply (C4_line_graph_plan [(START, "A"); ("A", "B"); ("B", END)]).
  apply Permutation_refl.
Defined.

(** C1, on the code: the branch on S over the destinations A and B with
    [then="T"] validates and compiles, but the plan gives T no trigger at all
    and gives A and B no writer besides the one to their own channel:
    [attach_branch] never reads [branch.then]. *)
Theorem C1_then_node_is_never_triggered :
  has_branch (state (build then_graph)) "S" "route"
    (mkBranch (route_to "a") (Some [("a", "A"); ("b", "B")]) (Some "T")) /\
  exists plan a b t,
    result (compile None None false (state (build then_graph))) = Ok plan /\
    Dict.get (cg_nodes plan) "A" = Some a /\
    Dict.get (cg_nodes plan) "B" = Some b /\
    Dict.get (cg_nodes plan) "T" = Some t /\
    triggers t = [] /\
    writers a = [ChannelWrite ["A"]] /\
    writers b = [ChannelWrite ["B"]] /\
    triggers a = [branch_channel "S" "route" "A"] /\
    triggers b = [branch_channel "S" "route" "B"].
Proof.
  split.
  - exists [("route", mkBranch (route_to "a") (Some [("a", "A"); ("b", "B")]) (Some "T"))].
    split; left; reflexivity.
  - destruct (result (compile None None false (state (build then_graph)))) as [plan|e] eqn:Hc;
      vm_compute in Hc; [|discriminate Hc].
    injection Hc as <-.
    eexists _, _, _, _. split; [reflexivity|]. repeat split; reflexivity.
Qed.

(** The validator, by contrast, counts A and B as sources because of [then]. *)
Lemma then_graph_sources :
  all_sources (state (build then_graph)) = [START; "T"; "S"; "A"; "B"].
Proof. reflexivity. Qed.

(** ** The lowering, in general *)

Section LoweringFacts.
Context {Value : Type}.
Implicit Types (g : Graph Value) (b : Branch Value) (c : CompiledGraph Value)
  (u : PregelNode Value).

Lemma unit_le_refl u : unit_le u u.
Proof. repeat split; apply incl_refl. Qed.

Lemma unit_le_trans u1 u2 u3 : unit_le u1 u2 -> unit_le u2 u3 -> unit_le u1 u3.
Proof.
  intros [H1 [H2 H3]] [H4 [H5 H6]]. repeat split.
  - eapply incl_tran; eauto.
  - eapply incl_tran; eauto.
  - congruence.
Qed.

Lemma unit_le_append_writer u w : unit_le u (append_writer u w).
Proof.
  repeat split; simpl; [apply incl_refl | apply incl_appl, incl_refl].
Qed.

Lemma unit_le_append_trigger u ch : unit_le u (append_trigger u ch).
Proof.
  repeat split; simpl; [apply incl_appl, incl_refl | apply incl_refl].
Qed.

Lemma extends_refl c : extends c c.
Proof.
  split; [auto|]. intros k u H. exists u. split; [exact H | apply unit_le_refl].
Qed.

Lemma extends_trans c1 c2 c3 : extends c1 c2 -> extends c2 c3 -> extends c1 c3.
Proof.
  intros [H1 H2] [H3 H4]. split; [auto|].
  intros k u H. destruct (H2 k u H) as [u' [Hu' Hle]].
  destruct (H4 k u' Hu') as [u'' [Hu'' Hle']].
  exists u''. split; [exact Hu'' | eapply unit_le_trans; eauto].
Qed.

Lemma extends_set_unit c k u u' :
  Dict.get (cg_nodes c) k = Some u -> unit_le u u' ->
  extends c (with_nodes c (Dict.set (cg_nodes c) k u')).
Proof.
  intros Hk Hle. split; [auto|]. simpl.
  intros k0 u0 H0. rewrite get_set.
  destruct (String.eqb_spec k k0) as [->|Hne].
  - exists u'. split; [reflexivity|]. congruence.
  - exists u0. split; [exact H0 | apply unit_le_refl].
Qed.

Lemma extends_new_unit c k u' :
  Dict.mem (cg_nodes c) k = false ->
  extends c (with_nodes c (Dict.set (cg_nodes c) k u')).
Proof.
  intros Hk. split; [auto|]. simpl.
  intros k0 u0 H0. rewrite get_set.
  destruct (String.eqb_spec k k0) as [->|Hne].
  - unfold Dict.mem in Hk. rewrite H0 in Hk. discriminate.
  - exists u0. split; [exact H0 | apply unit_le_refl].
Qed.

Lemma extends_set_channel c ch v :
  extends c (with_channels c (Dict.set (cg_channels c) ch v)).
Proof.
  split; simpl.
  - intros ch0 H. rewrite mem_set, H. apply orb_true_r.
  - intros k u H. exists u. split; [exact H | apply unit_le_refl].
Qed.

Lemma extends_keeps_units c c' : extends c c' -> keeps_units c c'.
Proof.
  intros [_ H] k Hk. apply mem_get in Hk. destruct Hk as [u Hu].
  destruct (H k u Hu) as [u' [Hu' _]]. apply mem_get. eauto.
Qed.

Lemma unit_of_ok c k u : unit_of c k = Ok u -> Dict.get (cg_nodes c) k = Some u.
Proof.
  unfold unit_of. destruct (Dict.get (cg_nodes c) k); [|discriminate].
  intro H. now injection H as ->.
Qed.

Lemma attach_edge_extends c start end_ c' :
  attach_edge c start end_ = Ok c' -> extends c c'.
Proof.
  unfold attach_edge. destruct (String.eqb end_ END).
  - destruct (unit_of c start) as [u|e] eqn:Hu; simpl; [|discriminate].
    intro H. injection H as <-.
    eapply extends_set_unit; [apply unit_of_ok; exact Hu | apply unit_le_append_writer].
  - destruct (unit_of c end_) as [u|e] eqn:Hu; simpl; [|discriminate].
    intro H. injection H as <-.
    eapply extends_set_unit; [apply unit_of_ok; exact Hu | apply unit_le_append_trigger].
Qed.

Lemma attach_reader_extends start name c end_ c' :
  attach_reader start name c end_ = Ok c' -> extends c c'.
Proof.
  unfold attach_reader. destruct (negb (String.eqb end_ END)).
  - destruct (unit_of _ end_) as [u|e] eqn:Hu; simpl; [|discriminate].
    intro H. injection H as <-.
    eapply extends_trans; [apply extends_set_channel|].
    apply (extends_set_unit
             (with_channels c (Dict.set (cg_channels c) (branch_channel start name end_)
                                 EphemeralValue)) end_ u);
      [apply unit_of_ok; exact Hu | apply unit_le_append_trigger].
  - intro H. injection H as <-. apply extends_refl.
Qed.

Lemma attach_readers_extends start name l c c' :
  foldM (attach_reader start name) l c = Ok c' -> extends c c'.
Proof.
  apply foldM_mono; [apply extends_refl | apply extends_trans |].
  intros a x a'. apply attach_reader_extends.
Qed.

(** the plan once the hidden entry unit is in place (lines 359-360) *)
Lemma hidden_start_extends c start :
  extends c
    (if String.eqb start START && negb (Dict.mem (cg_nodes c) start)
     then with_nodes c (Dict.set (cg_nodes c) start (subscribe_to START [TAG_HIDDEN]))
     else c).
Proof.
  destruct (String.eqb start START); simpl; [|apply extends_refl].
  destruct (Dict.mem (cg_nodes c) start) eqn:Hm; simpl; [apply extends_refl|].
  now apply extends_new_unit.
Qed.

Lemma attach_branch_extends c start name b c' :
  attach_branch c start name b = Ok c' -> extends c c'.
Proof.
  unfold attach_branch.
  pose proof (hidden_start_extends c start) as H0.
  set (c0 := if String.eqb start START && negb (Dict.mem (cg_nodes c) start)
             then _ else c) in *.
  destruct (unit_of c0 start) as [u|e] eqn:Hu; simpl; [|discriminate].
  intro H. apply attach_readers_extends in H.
  eapply extends_trans; [exact H0|].
  eapply extends_trans; [|exact H].
  eapply extends_set_unit; [apply unit_of_ok; exact Hu | apply unit_le_append_writer].
Qed.

Lemma attach_branches_extends start brs c c' :
  foldM (fun c' item => attach_branch c' start (fst item) (snd item)) brs c = Ok c' ->
  extends c c'.
Proof.
  apply foldM_mono; [apply extends_refl | apply extends_trans |].
  intros a x a'. apply attach_branch_extends.
Qed.

(** what one iteration of the reader loop leaves in the plan *)
Lemma attach_reader_effect start name c end_ c' :
  attach_reader start name c end_ = Ok c' -> end_ <> END ->
  Dict.mem (cg_channels c') (branch_channel start name end_) = true /\
  exists u, Dict.get (cg_nodes c') end_ = Some u /\
            In (branch_channel start name end_) (triggers u).
Proof.
  unfold attach_reader. intros H Hne.
  destruct (String.eqb_spec end_ END); [contradiction|]. simpl in H.
  destruct (unit_of _ end_) as [u|e] eqn:Hu; simpl in H; [|discriminate].
  injection H as <-. simpl. split.
  - now rewrite mem_set, String.eqb_refl.
  - eexists. rewrite get_set_same. split; [reflexivity|].
    simpl. apply in_or_app. right. now left.
Qed.

(** the routing writer is on the unit of the source when [attach_branch] returns *)
Lemma attach_branch_writer c start name b c' :
  attach_branch c start name b = Ok c' ->
  exists u, Dict.get (cg_nodes c') start = Some u /\
            In (BranchRun b start name) (writers u).
Proof.
  unfold attach_branch.
  set (c0 := if String.eqb start START && negb (Dict.mem (cg_nodes c) start)
             then _ else c).
  destruct (unit_of c0 start) as [u|e] eqn:Hu; simpl; [|discriminate].
  intro H. apply attach_readers_extends in H. destruct H as [_ H].
  destruct (H start (append_writer u (BranchRun b start name))) as [u' [Hu' [_ [Hw _]]]].
  { simpl. apply get_set_same. }
  exists u'. split; [exact Hu'|]. apply Hw. simpl. apply in_or_app. right. now left.
Qed.

(** a branch whose [ends] is falsy gets a channel and a trigger for every
    unit registered when it is attached *)
Lemma attach_branch_open c start name b c' :
  attach_branch c start name b = Ok c' ->
  truthy (ends b) = false ->
  forall k, Dict.mem (cg_nodes c) k = true -> k <> END ->
    Dict.mem (cg_channels c') (branch_channel start name k) = true /\
    exists u, Dict.get (cg_nodes c') k = Some u /\
              In (branch_channel start name k) (triggers u).
Proof.
  unfold attach_branch.
  pose proof (hidden_start_extends c start) as H0.
  set (c0 := if String.eqb start START && negb (Dict.mem (cg_nodes c) start)
             then _ else c) in *.
  destruct (unit_of c0 start) as [u|e] eqn:Hu; simpl; [|discriminate].
  intros H Hf k Hk Hne. rewrite Hf in H.
  set (c1 := with_nodes c0 _) in *.
  assert (Hk1 : In k (Dict.keys (cg_nodes c1))).
  { apply mem_keys. apply (extends_keeps_units c c1); [|exact Hk].
    eapply extends_trans; [exact H0|].
    eapply extends_set_unit; [apply unit_of_ok; exact Hu | apply unit_le_append_writer]. }
  destruct (foldM_visit extends (attach_reader start name) extends_refl extends_trans)
    with (l := Dict.keys (cg_nodes c1)) (a := c1) (r := c') (x := k)
    as [a1 [a2 [_ [Hstep [Hch Hun]]]]]; auto.
  { intros a x a'. apply attach_reader_extends. }
  destruct (attach_reader_effect _ _ _ _ _ Hstep Hne) as [Hc [u2 [Hu2 Ht]]].
  split; [now apply Hch|].
  destruct (Hun k u2 Hu2) as [u3 [Hu3 [Htr _]]].
  exists u3. split; [exact Hu3 | now apply Htr].
Qed.

End LoweringFacts.

Section LoweringStages.
Context {Value : Type}.
Implicit Types (g : Graph Value) (b : Branch Value) (c : CompiledGraph Value)
  (u : PregelNode Value).

Lemma keeps_units_refl c : keeps_units c c.
Proof. intros k H. exact H. Qed.

Lemma keeps_units_trans c1 c2 c3 : keeps_units c1 c2 -> keeps_units c2 c3 -> keeps_units c1 c3.
Proof. intros H1 H2 k H. auto. Qed.

Lemma attach_node_keeps c k node : keeps_units c (attach_node c k node).
Proof.
  intros k0 H. unfold attach_node. simpl. rewrite mem_set, H. apply orb_true_r.
Qed.

(** after the loop of lines 312-313 every declared node has its unit *)
Lemma attach_nodes_declared (l : Dict.t (NodeRunnable Value)) c k :
  In k (Dict.keys l) ->
  Dict.mem (cg_nodes (fold_left (fun c entry => attach_node c (fst entry) (snd entry)) l c)) k
  = true.
Proof.
  intro Hin. apply in_map_iff in Hin. destruct Hin as [[k0 node] [Hk Hin]].
  simpl in Hk. subst k0.
  destruct (fold_left_visit keeps_units
    (fun c entry => attach_node c (fst entry) (snd entry))
    keeps_units_refl keeps_units_trans) with (l := l) (a := c) (x := (k, node))
    as [a1 [_ H]]; auto.
  { intros a x. apply attach_node_keeps. }
  apply H. simpl. now rewrite mem_set, String.eqb_refl.
Qed.

Lemma attach_nodes_fresh (l : Dict.t (NodeRunnable Value)) c :
  fresh_units c ->
  fresh_units (fold_left (fun c entry => attach_node c (fst entry) (snd entry)) l c).
Proof.
  apply fold_left_invariant. intros a [k node] Ha k0 u0. simpl.
  rewrite get_set. destruct (String.eqb_spec k k0) as [->|Hne].
  - intro H. injection H as <-. eauto.
  - apply Ha.
Qed.

Lemma empty_plan_fresh ib ia dbg : fresh_units (@empty_plan Value ib ia dbg).
Proof. intros k u H. discriminate H. Qed.

(** the three loops of [lower], one after the other *)
Lemma lower_stages g ib ia dbg plan :
  lower g ib ia dbg = Ok plan ->
  let c1 := fold_left (fun c entry => attach_node c (fst entry) (snd entry))
              (nodes g) (empty_plan ib ia dbg) in
  exists c2,
    foldM (fun c e => attach_edge c (fst e) (snd e)) (edges g) c1 = Ok c2 /\
    foldM (fun c entry =>
             foldM (fun c' item => attach_branch c' (fst entry) (fst item) (snd item))
                   (snd entry) c)
          (branches g) c2 = Ok plan.
Proof.
  intros H c1. unfold lower, Pregel_validate in H. cbv zeta in H. fold c1 in H.
  destruct (foldM _ (edges g) c1) as [c2|e] eqn:H2; simpl in H; [|discriminate].
  exists c2. split; [reflexivity|].
  match type of H with
  | rbind ?m _ = _ => destruct m as [c3|e]; simpl in H; [exact H | discriminate]
  end.
Qed.

Lemma attach_edges_extends (l : list (string * string)) c c' :
  foldM (fun c e => attach_edge c (fst e) (snd e)) l c = Ok c' -> extends c c'.
Proof.
  apply foldM_mono; [apply extends_refl | apply extends_trans |].
  intros a x a'. apply attach_edge_extends.
Qed.

(** the call [attach_branch(start, name, b)] that [lower] makes for a branch
    of the builder, with the plan before and the plan after *)
Lemma lower_visits_branch g ib ia dbg plan start name b :
  lower g ib ia dbg = Ok plan ->
  has_branch g start name b ->
  exists c c',
    extends (fold_left (fun c entry => attach_node c (fst entry) (snd entry))
               (nodes g) (empty_plan ib ia dbg)) c /\
    attach_branch c start name b = Ok c' /\
    extends c' plan.
Proof.
  intros Hl [brs [Hout Hin]].
  destruct (lower_stages _ _ _ _ _ Hl) as [c2 [He Hb]].
  apply attach_edges_extends in He.
  destruct (foldM_visit extends
    (fun c entry =>
       foldM (fun c' item => attach_branch c' (fst entry) (fst item) (snd item))
             (snd entry) c)
    extends_refl extends_trans) with (l := branches g) (a := c2) (r := plan)
    (x := (start, brs)) as [a1 [a2 [H1 [Hstep H2]]]]; auto.
  { intros a x a'. apply attach_branches_extends. }
  simpl in Hstep.
  destruct (foldM_visit extends
    (fun c' item => attach_branch c' start (fst item) (snd item))
    extends_refl extends_trans) with (l := brs) (a := a1) (r := a2)
    (x := (name, b)) as [a3 [a4 [H3 [Hstep' H4]]]]; auto.
  { intros a x a'. apply attach_branch_extends. }
  simpl in Hstep'. exists a3, a4. split; [|split].
  - eapply extends_trans; [exact He|]. eapply extends_trans; eauto.
  - exact Hstep'.
  - eapply extends_trans; eauto.
Qed.

Lemma compile_lowers ib ia dbg g plan :
  result (compile ib ia dbg g) = Ok plan ->
  lower (set_compiled g true) (or_empty ib) (or_empty ia) dbg = Ok plan.
Proof.
  rewrite compile_result.
  destruct (validate_checks g _) as [[]|e]; simpl; [auto | discriminate].
Qed.

(** the registry is a dictionary: one entry per channel name *)
Lemma lower_registry_NoDup g ib ia dbg plan :
  lower g ib ia dbg = Ok plan -> NoDup (Dict.keys (cg_channels plan)).
Proof.
  intro Hl. destruct (lower_stages _ _ _ _ _ Hl) as [c2 [He Hb]].
  set (P := fun c : CompiledGraph Value => NoDup (Dict.keys (cg_channels c))).
  assert (H1 : P (fold_left (fun c entry => attach_node c (fst entry) (snd entry))
                    (nodes g) (empty_plan ib ia dbg))).
  { apply fold_left_invariant.
    - intros a x Ha. unfold P, attach_node. simpl. now apply keys_set_NoDup.
    - unfold P. simpl. repeat constructor; simpl; intuition discriminate. }
  assert (H2 : P c2).
  { revert He. apply (foldM_invariant P); [|exact H1].
    intros a x a' Ha. unfold attach_edge.
    destruct (String.eqb (snd x) END);
      destruct (unit_of a _); simpl; try discriminate;
      intro H; injection H as <-; exact Ha. }
  change (P plan). revert Hb. apply (foldM_invariant P); [|exact H2].
  intros a [start brs] a' Ha. simpl. apply (foldM_invariant P); [|exact Ha].
  intros a0 [name b] a0' Ha0. simpl. unfold attach_branch.
  set (c0 := if String.eqb start START && negb (Dict.mem (cg_nodes a0) start)
             then _ else a0).
  assert (H0 : P c0).
  { unfold c0. destruct (_ && _); exact Ha0. }
  destruct (unit_of c0 start); simpl; [|discriminate].
  apply (foldM_invariant P); [|exact H0].
  intros r x r' Hr. unfold attach_reader.
  destruct (negb (String.eqb x END)); [|intro H; injection H as <-; exact Hr].
  destruct (unit_of _ x); simpl; [|discriminate].
  intro H; injection H as <-. unfold P. simpl. now apply keys_set_NoDup.
Qed.

(** C2, as amended: for a branch with no [ends] mapping on the source S,
    the plan has the channel named from (S, branch name, n) for every
    declared node n, S itself included, registered once, and that channel is
    in the trigger list of n. *)
Theorem C2_open_branch_channels g ib ia dbg plan start name b n :
  result (compile ib ia dbg g) = Ok plan ->
  has_branch g start name b ->
  ends b = None ->
  In n (Dict.keys (nodes g)) ->
  n <> END ->
  Dict.mem (cg_channels plan) (branch_channel start name n) = true /\
  NoDup (Dict.keys (cg_channels plan)) /\
  exists u, Dict.get (cg_nodes plan) n = Some u /\
            In (branch_channel start name n) (triggers u).
Proof.
  intros Hc Hb He Hn Hne. apply compile_lowers in Hc.
  split; [|split; [eapply lower_registry_NoDup; exact Hc|]].
  - destruct (lower_visits_branch _ _ _ _ _ start name b Hc Hb) as [c [c' [H1 [H2 H3]]]].
    destruct (attach_branch_open _ _ _ _ _ H2) with (k := n) as [Hch _]; auto.
    { now rewrite He. }
    { apply (extends_keeps_units _ _ H1). now apply attach_nodes_declared. }
    now apply (proj1 H3).
  - destruct (lower_visits_branch _ _ _ _ _ start name b Hc Hb) as [c [c' [H1 [H2 H3]]]].
    destruct (attach_branch_open _ _ _ _ _ H2) with (k := n) as [_ [u [Hu Ht]]]; auto.
    { now rewrite He. }
    { apply (extends_keeps_units _ _ H1). now apply attach_nodes_declared. }
    destruct (proj2 H3 n u Hu) as [u' [Hu' [Htr _]]].
    exists u'. split; [exact Hu' | now apply Htr].
Qed.

End LoweringStages.

Lemma C2_witness :
  exists plan,
    result (compile None None false (state (build open_branch_graph))) = Ok plan /\
    (Dict.mem (cg_channels plan) (branch_channel "A" "route" "B") = true /\
     NoDup (Dict.keys (cg_channels plan)) /\
     exists u, Dict.get (cg_nodes plan) "B" = Some u /\
               In (branch_channel "A" "route" "B") (triggers u)).
Proof.
  destruct (result (compile None None false (state (build open_branch_graph))))
    as [plan|e] eqn:Hc.
  - exists plan. split; [reflexivity|].
    apply (C2_open_branch_channels (state (build open_branch_graph)) None None false
             plan "A" "route" (mkBranch (route_to "B") None None) "B" Hc).
    + exists [("route", mkBranch (route_to "B") None None)]. split; left; reflexivity.
    + reflexivity.
    + right. left. reflexivity.
    + discriminate.
  - vm_compute in Hc. discriminate Hc.
Defined.

(** The claim as the specification words it fails: the branch on A has no
    [ends] mapping, and the plan has a channel from A to A itself, which is
    in the trigger list of A. *)
Lemma C2_counterexample :
  exists plan a,
    result (compile None None false (state (build open_branch_graph))) = Ok plan /\
    has_branch (state (build open_branch_graph)) "A" "route"
      (mkBranch (route_to "B") None None) /\
    Dict.mem (cg_channels plan) (branch_channel "A" "route" "A") = true /\
    Dict.get (cg_nodes plan) "A" = Some a /\
    In (branch_channel "A" "route" "A") (triggers a).
Proof.
  destruct (result (compile None None false (state (build open_branch_graph))))
    as [plan|e] eqn:Hc; vm_compute in Hc; [injection Hc as <- | discriminate Hc].
  eexists _, _. split; [reflexivity|]. split.
  { exists [("route", mkBranch (route_to "B") None None)]. split; left; reflexivity. }
  split; [reflexivity|]. split; [reflexivity|].
  right. left. reflexivity.
Qed.

(** ** Routing *)

Lemma append_cancel (p a b : string) : (p ++ a)%string = (p ++ b)%string -> a = b.
Proof.
  induction p as [|ch p IH]; simpl; [auto|].
  intro H. injection H as H. auto.
Qed.

Lemma branch_channel_inj start name a b :
  branch_channel start name a = branch_channel start name b -> a = b.
Proof.
  unfold branch_channel. intro H.
  apply append_cancel in H. apply append_cancel in H. apply append_cancel in H.
  apply append_cancel in H. now apply append_cancel in H.
Qed.

Section RoutingClaims.
Context {Value : Type}.
Implicit Types (g : Graph Value) (b : Branch Value) (c : CompiledGraph Value).

(** the routing writer of a declared branch is a writer stage of its source *)
Lemma lower_attaches_writer g ib ia dbg plan start name b :
  lower g ib ia dbg = Ok plan ->
  has_branch g start name b ->
  exists u, Dict.get (cg_nodes plan) start = Some u /\
            In (BranchRun b start name) (writers u).
Proof.
  intros Hl Hb.
  destruct (lower_visits_branch _ _ _ _ _ start name b Hl Hb) as [c [c' [_ [H2 H3]]]].
  destruct (attach_branch_writer _ _ _ _ _ H2) as [u [Hu Hw]].
  destruct (proj2 H3 start u Hu) as [u' [Hu' [_ [Hws _]]]].
  exists u'. split; [exact Hu' | now apply Hws].
Qed.

(** C6: for a branch on S with [ends = {"x": A, "y": B}], A and B two
    different nodes, the compiled plan has the routing writer on the unit of
    S, and running it when the routing function returns "x" publishes to the
    channel of (S, name, A) and to nothing else; in particular not to the
    channel of (S, name, B). *)
Theorem C6_route_writes_selected_channel g ib ia dbg plan start name b A B input :
  result (compile ib ia dbg g) = Ok plan ->
  has_branch g start name b ->
  ends b = Some [("x", A); ("y", B)] ->
  path_invoke (path b) input = One "x" ->
  A <> END -> A <> B ->
  exists u,
    Dict.get (cg_nodes plan) start = Some u /\
    In (BranchRun b start name) (writers u) /\
    run_writer (BranchRun b start name) input = Ok [branch_channel start name A] /\
    ~ In (branch_channel start name B) [branch_channel start name A].
Proof.
  intros Hc Hb He Hp HA HAB. apply compile_lowers in Hc.
  destruct (lower_attaches_writer _ _ _ _ _ start name b Hc) as [u [Hu Hw]].
  { exact Hb. }
  exists u. split; [exact Hu|]. split; [exact Hw|]. split.
  - simpl. unfold _route. rewrite He, Hp. simpl.
    destruct (String.eqb_spec A END); [contradiction | reflexivity].
  - intros [H|[]]. apply branch_channel_inj in H. congruence.
Qed.

End RoutingClaims.

Lemma C6_witness :
  exists plan u,
    result (compile None None false (state (build xy_graph))) = Ok plan /\
    Dict.get (cg_nodes plan) "S" = Some u /\
    In (BranchRun (xy_branch "x") "S" "route") (writers u) /\
    run_writer (BranchRun (xy_branch "x") "S" "route") "input"
      = Ok [branch_channel "S" "route" "A"] /\
    ~ In (branch_channel "S" "route" "B") [branch_channel "S" "route" "A"].
Proof.
  destruct (result (compile None None false (state (build xy_graph))))
    as [plan|e] eqn:Hc.
  - destruct (C6_route_writes_selected_channel (state (build xy_graph)) None None false
                plan "S" "route" (xy_branch "x") "A" "B" "input" Hc) as [u H].
    + exists [("route", xy_branch "x")]. split; left; reflexivity.
    + reflexivity.
    + reflexivity.
    + discriminate.
    + discriminate.
    + exists plan, u. split; [reflexivity | exact H].
  - vm_compute in Hc. discriminate Hc.
Defined.

(** ** Writer stages *)

Section WriterStages.
Context {Value : Type}.
Implicit Types (g : Graph Value) (b : Branch Value) (c : CompiledGraph Value)
  (u : PregelNode Value).

Lemma node_unit_well_written g k node : unit_well_written g k (node_unit k node).
Proof.
  split; [|split].
  - intros entries [H|[]]. injection H as <-. now left.
  - intros b start name [H|[]]. discriminate H.
  - intros _. simpl. unfold str_mem, PySet.mem. simpl. now rewrite String.eqb_refl.
Qed.

Lemma subscribe_to_well_written g k ch tags :
  unit_well_written g k (subscribe_to ch tags).
Proof.
  split; [|split].
  - intros entries [].
  - intros b start name [].
  - reflexivity.
Qed.

Lemma append_trigger_well_written g k u ch :
  unit_well_written g k u -> unit_well_written g k (append_trigger u ch).
Proof. intro H. exact H. Qed.

Lemma append_end_writer_well_written g k u :
  unit_well_written g k u ->
  unit_well_written g k (append_writer u (ChannelWrite [END])).
Proof.
  intros [H1 [H2 H3]]. split; [|split]; simpl.
  - intros entries H. apply in_app_or in H. destruct H as [H|[H|[]]]; [auto|].
    injection H as <-. now right.
  - intros b start name H. apply in_app_or in H.
    destruct H as [H|[H|[]]]; [auto | discriminate H].
  - intro Hk. rewrite filter_app, length_app, (H3 Hk). simpl.
    unfold str_mem, PySet.mem. simpl.
    destruct (String.eqb_spec k END); [contradiction|]. simpl. lia.
Qed.

Lemma append_branch_writer_well_written g k u b name :
  has_branch g k name b ->
  unit_well_written g k u ->
  unit_well_written g k (append_writer u (BranchRun b k name)).
Proof.
  intros Hb [H1 [H2 H3]]. split; [|split]; simpl.
  - intros entries H. apply in_app_or in H.
    destruct H as [H|[H|[]]]; [auto | discriminate H].
  - intros b0 start name0 H. apply in_app_or in H. destruct H as [H|[H|[]]]; [auto|].
    injection H as <- <- <-. auto.
  - intro Hk. rewrite filter_app, length_app, (H3 Hk). simpl. lia.
Qed.

Lemma well_written_set_unit g c k u' :
  well_written g c -> unit_well_written g k u' ->
  well_written g (with_nodes c (Dict.set (cg_nodes c) k u')).
Proof.
  intros Hc Hu k0 u0. simpl. rewrite get_set.
  destruct (String.eqb_spec k k0) as [->|Hne].
  - intro H. now injection H as <-.
  - apply Hc.
Qed.

Lemma attach_edge_well_written g c start end_ c' :
  attach_edge c start end_ = Ok c' -> well_written g c -> well_written g c'.
Proof.
  unfold attach_edge. destruct (String.eqb end_ END).
  - destruct (unit_of c start) as [u|e] eqn:Hu; simpl; [|discriminate].
    intros H Hc. injection H as <-. apply unit_of_ok in Hu.
    apply well_written_set_unit; [exact Hc|].
    apply append_end_writer_well_written. now apply Hc.
  - destruct (unit_of c end_) as [u|e] eqn:Hu; simpl; [|discriminate].
    intros H Hc. injection H as <-. apply unit_of_ok in Hu.
    apply well_written_set_unit; [exact Hc|].
    apply append_trigger_well_written. now apply Hc.
Qed.

Lemma attach_reader_well_written g start name c end_ c' :
  attach_reader start name c end_ = Ok c' -> well_written g c -> well_written g c'.
Proof.
  unfold attach_reader. destruct (negb (String.eqb end_ END)).
  - destruct (unit_of _ end_) as [u|e] eqn:Hu; simpl; [|discriminate].
    intros H Hc. injection H as <-. apply unit_of_ok in Hu. simpl in Hu.
    intros k0 u0. simpl. rewrite get_set.
    destruct (String.eqb_spec end_ k0) as [->|Hne].
    + intro H. injection H as <-. apply append_trigger_well_written. now apply Hc.
    + apply Hc.
  - intros H Hc. now injection H as <-.
Qed.

Lemma attach_branch_well_written g c start name b c' :
  has_branch g start name b ->
  attach_branch c start name b = Ok c' -> well_written g c -> well_written g c'.
Proof.
  intros Hb. unfold attach_branch.
  set (c0 := if String.eqb start START && negb (Dict.mem (cg_nodes c) start)
             then _ else c).
  intros H Hc.
  assert (H0 : well_written g c0).
  { unfold c0. destruct (_ && _); [|exact Hc].
    apply well_written_set_unit; [exact Hc | apply subscribe_to_well_written]. }
  destruct (unit_of c0 start) as [u|e] eqn:Hu; simpl in H; [|discriminate].
  apply unit_of_ok in Hu.
  revert H. apply (foldM_invariant (well_written g)).
  - intros a x a' Ha Hx. eapply attach_reader_well_written; eauto.
  - apply well_written_set_unit; [exact H0|].
    apply append_branch_writer_well_written; [exact Hb | now apply H0].
Qed.

Lemma foldM_invariant_In {A B} (P : A -> Prop) (f : A -> B -> Result A) (l : list B) :
  (forall a x a', In x l -> P a -> f a x = Ok a' -> P a') ->
  forall a r, P a -> foldM f l a = Ok r -> P r.
Proof.
  induction l as [|y l IH]; intros Hstep a r Ha; simpl.
  - intro H. injection H as <-. exact Ha.
  - destruct (f a y) as [a'|e] eqn:Hf; simpl; [|discriminate].
    apply IH.
    + intros a0 x a0' Hx. apply Hstep. now right.
    + eapply Hstep; eauto. now left.
Qed.

Lemma lower_well_written g ib ia dbg plan :
  lower g ib ia dbg = Ok plan -> well_written g plan.
Proof.
  intro Hl. destruct (lower_stages _ _ _ _ _ Hl) as [c2 [He Hb]].
  assert (H1 : well_written g
                 (fold_left (fun c entry => attach_node c (fst entry) (snd entry))
                    (nodes g) (empty_plan ib ia dbg))).
  { intros k u Hu.
    destruct (attach_nodes_fresh (nodes g) (empty_plan ib ia dbg)
                (empty_plan_fresh ib ia dbg) k u Hu) as [node ->].
    apply node_unit_well_written. }
  assert (H2 : well_written g c2).
  { revert He. apply (foldM_invariant (well_written g)); [|exact H1].
    intros a x a' Ha Hx. eapply attach_edge_well_written; eauto. }
  revert Hb. apply (foldM_invariant_In (well_written g)); [|exact H2].
  intros a [start brs] a' Hin Ha. simpl.
  apply (foldM_invariant_In (well_written g)); [|exact Ha].
  intros a0 [name b] a0' Hin0 Ha0. simpl.
  intro H. eapply attach_branch_well_written; [|exact H|exact Ha0].
  exists brs. split; assumption.
Qed.

End WriterStages.

(** The claim as the specification words it fails: the units of A and B,
    two different nodes, both hold a writer to the terminal channel, which
    is in the registry; the entry channel is in the registry too, and no
    unit holds a writer to it. *)
Lemma C5_counterexample :
  exists plan a b,
    result (compile None None false (state (build two_finish_graph))) = Ok plan /\
    Dict.mem (cg_channels plan) END = true /\
    Dict.get (cg_nodes plan) "A" = Some a /\
    Dict.get (cg_nodes plan) "B" = Some b /\
    In (ChannelWrite [END]) (writers a) /\
    In (ChannelWrite [END]) (writers b) /\
    Dict.mem (cg_channels plan) START = true /\
    forallb (fun entry => negb (existsb (static_writes_to START) (writers (snd entry))))
            (cg_nodes plan) = true.
Proof.
  destruct (result (compile None None false (state (build two_finish_graph))))
    as [plan|e] eqn:Hc; vm_compute in Hc; [injection Hc as <- | discriminate Hc].
  eexists _, _, _. split; [reflexivity|].
  split; [reflexivity|]. split; [reflexivity|]. split; [reflexivity|].
  split; [right; left; reflexivity|]. split; [right; left; reflexivity|].
  split; reflexivity.
Qed.

(** ** The routing functions play no part before run time *)

Lemma get_map_values {V W} (h : V -> W) (d : Dict.t V) k :
  Dict.get (map_values h d) k = option_map h (Dict.get d k).
Proof.
  induction d as [|[k0 v0] d IH]; simpl; [reflexivity|].
  destruct (String.eqb k0 k); [reflexivity | exact IH].
Qed.

Lemma mem_map_values {V W} (h : V -> W) (d : Dict.t V) k :
  Dict.mem (map_values h d) k = Dict.mem d k.
Proof. unfold Dict.mem. rewrite get_map_values. now destruct (Dict.get d k). Qed.

Lemma set_map_values {V W} (h : V -> W) (d : Dict.t V) k v :
  Dict.set (map_values h d) k (h v) = map_values h (Dict.set d k v).
Proof.
  induction d as [|[k0 v0] d IH]; simpl; [reflexivity|].
  destruct (String.eqb k0 k); simpl; [reflexivity | now rewrite IH].
Qed.

Lemma keys_map_values {V W} (h : V -> W) (d : Dict.t V) :
  Dict.keys (map_values h d) = Dict.keys d.
Proof. unfold Dict.keys, map_values. rewrite map_map. reflexivity. Qed.

Lemma fold_left_map_ext {A B B'} (m : B -> B') (F : A -> B -> A) (F' : A -> B' -> A) :
  (forall a x, F' a (m x) = F a x) ->
  forall l a, fold_left F' (map m l) a = fold_left F l a.
Proof.
  intro H. induction l as [|x l IH]; intro a; simpl; [reflexivity|].
  now rewrite H, IH.
Qed.

Lemma fold_left_commute {A B} (h : A -> A) (F : A -> B -> A) :
  (forall a x, F (h a) x = h (F a x)) ->
  forall l a, fold_left F l (h a) = h (fold_left F l a).
Proof.
  intro H. induction l as [|x l IH]; intro a; simpl; [reflexivity|].
  now rewrite H, IH.
Qed.

Lemma foldM_map_ext {A B B'} (m : B -> B') (F : A -> B -> Result A)
  (F' : A -> B' -> Result A) :
  (forall a x, F' a (m x) = F a x) ->
  forall l a, foldM F' (map m l) a = foldM F l a.
Proof.
  intro H. induction l as [|x l IH]; intro a; simpl; [reflexivity|].
  rewrite H. destruct (F a x); simpl; [apply IH | reflexivity].
Qed.

Lemma foldM_commute {A B B'} (h : A -> A) (m : B -> B') (F : A -> B -> Result A)
  (F' : A -> B' -> Result A) :
  (forall a x, F' (h a) (m x) = result_map h (F a x)) ->
  forall l a, foldM F' (map m l) (h a) = result_map h (foldM F l a).
Proof.
  intro H. induction l as [|x l IH]; intro a; simpl; [reflexivity|].
  rewrite H. destruct (F a x); simpl; [apply IH | reflexivity].
Qed.

Lemma mapM_getitem_missing (m : Dict.t string) (labels : list string) (l : string) :
  In l labels -> Dict.get m l = None ->
  exists l', In l' labels /\ Dict.get m l' = None /\
             mapM (getitem m) labels = Raise (KeyError l').
Proof.
  induction labels as [|x labels IH]; intros Hin Hl; [destruct Hin|].
  simpl. unfold getitem at 1. destruct (Dict.get m x) as [v|] eqn:Hx; simpl.
  - destruct Hin as [->|Hin]; [congruence|].
    destruct (IH Hin Hl) as [l' [H1 [H2 H3]]].
    exists l'. rewrite H3. simpl. auto.
  - exists x. auto.
Qed.

Section Rerouting.
Context {Value : Type}.
Variable f : PathRunnable Value -> PathRunnable Value.
Implicit Types (g : Graph Value) (b : Branch Value) (c : CompiledGraph Value)
  (u : PregelNode Value).

Lemma assemble_sources_reroute g : assemble_sources (reroute f g) = assemble_sources g.
Proof.
  unfold assemble_sources. simpl. unfold map_values at 1.
  apply fold_left_map_ext. intros a [start brs]. simpl.
  unfold map_values. apply fold_left_map_ext. intros a' [name b]. reflexivity.
Qed.

Lemma check_sources_reroute g iter node :
  check_sources (reroute f g) iter node = check_sources g iter node.
Proof.
  induction iter as [|s iter IH]; simpl; [reflexivity|].
  destruct node as [n|]; [|reflexivity].
  destruct (negb _ && negb _); [reflexivity | exact IH].
Qed.

Lemma assemble_targets_reroute g : assemble_targets (reroute f g) = assemble_targets g.
Proof.
  unfold assemble_targets. simpl. unfold map_values at 1.
  apply foldM_map_ext. intros a [start brs]. simpl.
  unfold map_values. apply foldM_map_ext. intros a' [name b]. reflexivity.
Qed.

Lemma check_targets_reroute g iter :
  check_targets (reroute f g) iter = check_targets g iter.
Proof.
  induction iter as [|s iter IH]; simpl; [reflexivity|].
  destruct (negb _ && negb _); [reflexivity | exact IH].
Qed.

Lemma check_interrupts_reroute g iter :
  check_interrupts (reroute f g) iter = check_interrupts g iter.
Proof.
  induction iter as [|s iter IH]; simpl; [reflexivity|].
  destruct (negb _); [reflexivity | exact IH].
Qed.

Lemma validate_checks_reroute g i :
  validate_checks (reroute f g) i = validate_checks g i.
Proof.
  unfold validate_checks, validate_sources, validate_targets, validate_interrupts.
  rewrite assemble_sources_reroute, assemble_targets_reroute. simpl.
  destruct (check_dead_ends _ _ _); simpl; [|reflexivity].
  rewrite check_sources_reroute.
  destruct (check_sources _ _ _); simpl; [|reflexivity].
  destruct (assemble_targets g); simpl; [|reflexivity].
  destruct (check_reachable _ _); simpl; [|reflexivity].
  rewrite check_targets_reroute.
  destruct (check_targets _ _); simpl; [|reflexivity].
  destruct i; [apply check_interrupts_reroute | reflexivity].
Qed.

Lemma unit_of_reroute c k :
  unit_of (reroute_plan f c) k = result_map (reroute_unit f) (unit_of c k).
Proof.
  unfold unit_of. simpl. rewrite get_map_values. now destruct (Dict.get (cg_nodes c) k).
Qed.

Lemma attach_node_reroute c k node :
  attach_node (reroute_plan f c) k node = reroute_plan f (attach_node c k node).
Proof.
  unfold attach_node, reroute_plan, with_stream_channels, with_nodes, with_channels.
  simpl. f_equal.
  apply (set_map_values (reroute_unit f) (cg_nodes c) k (node_unit k node)).
Qed.

Lemma attach_edge_reroute c start end_ :
  attach_edge (reroute_plan f c) start end_
  = result_map (reroute_plan f) (attach_edge c start end_).
Proof.
  unfold attach_edge. destruct (String.eqb end_ END).
  - rewrite unit_of_reroute. destruct (unit_of c start) as [u|e]; simpl; [|reflexivity].
    unfold reroute_plan, with_nodes. simpl. do 2 f_equal.
    rewrite <- set_map_values. f_equal.
    unfold reroute_unit, append_writer. simpl. now rewrite map_app.
  - rewrite unit_of_reroute. destruct (unit_of c end_) as [u|e]; simpl; [|reflexivity].
    unfold reroute_plan, with_nodes. simpl. do 2 f_equal.
    now rewrite <- set_map_values.
Qed.

Lemma attach_reader_reroute start name c end_ :
  attach_reader start name (reroute_plan f c) end_
  = result_map (reroute_plan f) (attach_reader start name c end_).
Proof.
  unfold attach_reader. destruct (negb (String.eqb end_ END)); [|reflexivity].
  change (with_channels (reroute_plan f c)
            (Dict.set (cg_channels (reroute_plan f c)) (branch_channel start name end_)
               EphemeralValue))
    with (reroute_plan f
            (with_channels c
               (Dict.set (cg_channels c) (branch_channel start name end_) EphemeralValue))).
  rewrite unit_of_reroute. destruct (unit_of _ end_) as [u|e]; simpl; [|reflexivity].
  unfold reroute_plan, with_nodes, with_channels. simpl. do 2 f_equal.
  now rewrite <- set_map_values.
Qed.

Lemma attach_readers_reroute start name l c :
  foldM (attach_reader start name) l (reroute_plan f c)
  = result_map (reroute_plan f) (foldM (attach_reader start name) l c).
Proof.
  rewrite <- (map_id l) at 1.
  apply (foldM_commute (reroute_plan f) (fun x => x)).
  intros a x. apply attach_reader_reroute.
Qed.

Lemma attach_branch_reroute c start name b :
  attach_branch (reroute_plan f c) start name (reroute_branch f b)
  = result_map (reroute_plan f) (attach_branch c start name b).
Proof.
  unfold attach_branch. cbv zeta.
  set (c0 := if String.eqb start START && negb (Dict.mem (cg_nodes c) start)
             then with_nodes c (Dict.set (cg_nodes c) start (subscribe_to START [TAG_HIDDEN]))
             else c).
  assert (H0 : (if String.eqb start START
                   && negb (Dict.mem (cg_nodes (reroute_plan f c)) start)
                then with_nodes (reroute_plan f c)
                       (Dict.set (cg_nodes (reroute_plan f c)) start
                          (subscribe_to START [TAG_HIDDEN]))
                else reroute_plan f c) = reroute_plan f c0).
  { unfold c0. simpl. rewrite mem_map_values.
    destruct (String.eqb start START && negb (Dict.mem (cg_nodes c) start));
      [|reflexivity].
    unfold reroute_plan, with_nodes. simpl. f_equal.
    now rewrite <- set_map_values. }
  rewrite H0. rewrite unit_of_reroute.
  destruct (unit_of c0 start) as [u|e]; cbn [rbind result_map]; [|reflexivity].
  set (c1 := with_nodes c0
               (Dict.set (cg_nodes c0) start (append_writer u (BranchRun b start name)))).
  assert (H1 : with_nodes (reroute_plan f c0)
                 (Dict.set (cg_nodes (reroute_plan f c0)) start
                    (append_writer (reroute_unit f u)
                       (BranchRun (reroute_branch f b) start name)))
               = reroute_plan f c1).
  { unfold c1, reroute_plan, with_nodes. simpl. f_equal.
    rewrite <- set_map_values. f_equal.
    unfold reroute_unit, append_writer. simpl. now rewrite map_app. }
  rewrite H1.
  assert (H2 : Dict.keys (cg_nodes (reroute_plan f c1)) = Dict.keys (cg_nodes c1)).
  { simpl. apply keys_map_values. }
  rewrite H2.
  change (ends (reroute_branch f b)) with (ends b).
  apply attach_readers_reroute.
Qed.

Lemma lower_reroute g ib ia dbg :
  lower (reroute f g) ib ia dbg = result_map (reroute_plan f) (lower g ib ia dbg).
Proof.
  unfold lower, Pregel_validate. cbv zeta. simpl nodes. simpl edges. simpl branches.
  change (empty_plan ib ia dbg) with (reroute_plan f (@empty_plan Value ib ia dbg)) at 1.
  set (attach_nodes := fun c (entry : string * NodeRunnable Value) =>
                         attach_node c (fst entry) (snd entry)).
  set (attach_edges := fun c (e : string * string) => attach_edge c (fst e) (snd e)).
  set (attach_branches :=
         fun c (entry : string * list (string * Branch Value)) =>
           foldM (fun c' (item : string * Branch Value) =>
                    attach_branch c' (fst entry) (fst item) (snd item))
                 (snd entry) c).
  set (c1 := fold_left attach_nodes (nodes g) (empty_plan ib ia dbg)).
  assert (E1 : fold_left attach_nodes (nodes g) (reroute_plan f (empty_plan ib ia dbg))
               = reroute_plan f c1).
  { apply fold_left_commute. intros a x. apply attach_node_reroute. }
  rewrite E1.
  assert (E2 : foldM attach_edges (edges g) (reroute_plan f c1)
               = result_map (reroute_plan f) (foldM attach_edges (edges g) c1)).
  { rewrite <- (map_id (edges g)) at 1.
    apply (foldM_commute (reroute_plan f) (fun x => x)).
    intros a x. apply attach_edge_reroute. }
  rewrite E2.
  destruct (foldM attach_edges (edges g) c1) as [c2|e]; cbn [rbind result_map];
    [|reflexivity].
  assert (E3 : foldM attach_branches
                 (map_values (map_values (reroute_branch f)) (branches g))
                 (reroute_plan f c2)
               = result_map (reroute_plan f) (foldM attach_branches (branches g) c2)).
  { unfold map_values at 1.
    apply (foldM_commute (reroute_plan f)
             (fun entry => (fst entry, map_values (reroute_branch f) (snd entry)))).
    intros a [start brs]. unfold attach_branches. simpl. unfold map_values.
    apply (foldM_commute (reroute_plan f)
             (fun item => (fst item, reroute_branch f (snd item)))
             (fun c' item => attach_branch c' start (fst item) (snd item))).
    intros a' [name b]. simpl. apply attach_branch_reroute. }
  rewrite E3.
  now destruct (foldM attach_branches (branches g) c2).
Qed.

Lemma compile_reroute g ib ia dbg :
  result (compile ib ia dbg (reroute f g))
  = result_map (reroute_plan f) (result (compile ib ia dbg g)).
Proof.
  rewrite !compile_result, validate_checks_reroute.
  destruct (validate_checks g _); simpl; [|reflexivity].
  apply (lower_reroute (set_compiled g true)).
Qed.

End Rerouting.

Section RunTimeErrors.
Context {Value : Type}.
Implicit Types (g : Graph Value) (b : Branch Value).

Lemma add_conditional_edges_result g source (p : PathRunnable Value) path_map th :
  result (add_conditional_edges source p path_map th g) =
  match Dict.get (branches g) source with
  | Some d =>
      if Dict.mem d (branch_name p)
      then Raise (BranchAlreadyExists (path_name p) source)
      else Ok tt
  | None => Ok tt
  end.
Proof.
  unfold add_conditional_edges, defaultdict_getitem, bind, gets, when, warning,
    ret, raise, modify; simpl.
  destruct (compiled g); simpl;
    destruct (Dict.get (branches g) source) as [d|] eqn:Hd; simpl;
    try (rewrite get_set_same; simpl; reflexivity);
    destruct (Dict.mem d (branch_name p)); simpl; rewrite ?Hd; reflexivity.
Qed.

(** C7, as amended: for a branch whose [ends] mapping is given and not
    empty, a label returned by the routing function that has no entry in
    [ends] makes the lowered writer stage raise [KeyError] for such a label
    when it is run, and nothing raises before that: what
    [add_conditional_edges], [validate] and [compile] return or raise does not
    depend on the routing functions at all. *)
Theorem C7_unknown_label_raises_at_run_time :
  (forall b start name (input : Value) m l,
     ends b = Some m -> m <> [] ->
     In l (normalise (path_invoke (path b) input)) ->
     Dict.get m l = None ->
     exists l',
       In l' (normalise (path_invoke (path b) input)) /\
       Dict.get m l' = None /\
       run_writer (BranchRun b start name) input = Raise (KeyError l')) /\
  (forall g source (p p' : PathRunnable Value) path_map th,
     path_name p = path_name p' ->
     result (add_conditional_edges source p path_map th g)
     = result (add_conditional_edges source p' path_map th g)) /\
  (forall f g interrupt,
     result (validate interrupt (reroute f g)) = result (validate interrupt g)) /\
  (forall f g ib ia dbg,
     result (compile ib ia dbg (reroute f g))
     = result_map (reroute_plan f) (result (compile ib ia dbg g))).
Proof.
  split; [|split; [|split]].
  - intros b start name input m l He Hm Hin Hl.
    destruct (mapM_getitem_missing m _ l Hin Hl) as [l' [H1 [H2 H3]]].
    exists l'. split; [exact H1|]. split; [exact H2|].
    simpl. unfold _route. rewrite He.
    destruct m as [|entry m]; [contradiction|]. simpl truthy. cbv iota.
    rewrite H3. reflexivity.
  - intros g source p p' path_map th Hn.
    rewrite !add_conditional_edges_result. unfold branch_name. rewrite Hn. reflexivity.
  - intros f g i. rewrite !validate_result. apply validate_checks_reroute.
  - intros f g ib ia dbg. apply compile_reroute.
Qed.

End RunTimeErrors.

(** The claim as the specification words it fails on an [ends] mapping that
    is explicit but empty: the label "x" has no entry in it, and the writer
    stage publishes to the channel named after the label instead of raising. *)
Lemma C7_counterexample :
  ends empty_map_branch = Some [] /\
  path_invoke (path empty_map_branch) "input" = One "x" /\
  Dict.get (@nil (string * string)) "x" = None /\
  run_writer (BranchRun empty_map_branch "S" "route") "input"
    = Ok [branch_channel "S" "route" "x"].
Proof. repeat split. Qed.

Lemma C7_witness :
  (exists l',
     In l' (normalise (path_invoke (path (xy_branch "z")) "input")) /\
     Dict.get [("x", "A"); ("y", "B")] l' = None /\
     run_writer (BranchRun (xy_branch "z") "S" "route") "input" = Raise (KeyError l')) /\
  is_ok (result (compile None None false
                   (reroute (fun _ => route_to "z") (state (build xy_graph))))) = true.
Proof.
  split.
  - apply (proj1 (@C7_unknown_label_raises_at_run_time string)
             (xy_branch "z") "S" "route" "input" [("x", "A"); ("y", "B")] "z").
    + reflexivity.
    + discriminate.
    + left. reflexivity.
    + reflexivity.
  - rewrite (proj2 (proj2 (proj2 (@C7_unknown_label_raises_at_run_time string)))).
    vm_compute. reflexivity.
Defined.

(** * Further properties of the builder *)

Section PySetFacts.
Context {A : Type} (eqb : A -> A -> bool).
Hypothesis eqb_spec : forall x y, eqb x y = true <-> x = y.

Lemma pyset_mem_In x s : PySet.mem eqb x s = true <-> In x s.
Proof.
  unfold PySet.mem. rewrite existsb_exists. split.
  - intros [y [Hy He]]. apply eqb_spec in He. now subst.
  - intro H. exists x. split; [exact H | now apply eqb_spec].
Qed.

Lemma pyset_add_In x y s : In x (PySet.add eqb y s) <-> x = y \/ In x s.
Proof.
  unfold PySet.add. destruct (PySet.mem eqb y s) eqn:Hm.
  - apply pyset_mem_In in Hm. split; [auto | intros [->|H]; assumption].
  - rewrite in_app_iff. simpl. split.
    + intros [H|[<-|[]]]; auto.
    + intros [->|H]; auto.
Qed.

Lemma pyset_add_NoDup y s : NoDup s -> NoDup (PySet.add eqb y s).
Proof.
  intro Hnd. unfold PySet.add. destruct (PySet.mem eqb y s) eqn:Hm; [exact Hnd|].
  apply NoDup_app; [exact Hnd | repeat constructor; intros [] |].
  intros x Hx [<-|[]]. apply pyset_mem_In in Hx. congruence.
Qed.

Lemma pyset_add_present y s : In y s -> PySet.add eqb y s = s.
Proof.
  intro H. unfold PySet.add. apply pyset_mem_In in H. now rewrite H.
Qed.

Lemma pyset_add_absent y s : ~ In y s -> PySet.add eqb y s = (s ++ [y])%list.
Proof.
  intro H. unfold PySet.add. destruct (PySet.mem eqb y s) eqn:Hm; [|reflexivity].
  apply pyset_mem_In in Hm. contradiction.
Qed.

Lemma pyset_fold_In l acc x :
  In x (fold_left (fun s y => PySet.add eqb y s) l acc) <-> In x l \/ In x acc.
Proof.
  revert acc. induction l as [|y l IH]; intro acc; simpl; [tauto|].
  rewrite IH, pyset_add_In. split; intros [H|H]; auto.
  - destruct H as [->|H]; auto.
  - destruct H as [<-|H]; auto.
Qed.

Lemma pyset_of_list_In l x : In x (PySet.of_list eqb l) <-> In x l.
Proof.
  unfold PySet.of_list. rewrite pyset_fold_In. simpl. tauto.
Qed.

End PySetFacts.

Lemma string_eqb_iff (x y : string) : String.eqb x y = true <-> x = y.
Proof. apply String.eqb_eq. Qed.

Lemma edge_eqb_iff (x y : string * string) : edge_eqb x y = true <-> x = y.
Proof.
  destruct x as [a b], y as [c d]. unfold edge_eqb. simpl.
  rewrite andb_true_iff, !String.eqb_eq. split.
  - intros [-> ->]. reflexivity.
  - intro H. injection H as -> ->. auto.
Qed.

Lemma keys_set_absent {V} (d : Dict.t V) k v :
  Dict.mem d k = false -> Dict.keys (Dict.set d k v) = (Dict.keys d ++ [k])%list.
Proof.
  unfold Dict.mem. induction d as [|[k0 v0] d IH]; simpl; [reflexivity|].
  destruct (String.eqb_spec k0 k) as [->|Hk]; [discriminate|].
  intro H. simpl. now rewrite IH.
Qed.

Lemma set_In {V} (d : Dict.t V) k v k' v' :
  In (k', v') (Dict.set d k v) -> (k' = k /\ v' = v) \/ In (k', v') d.
Proof.
  induction d as [|[k0 v0] d IH]; simpl.
  - intros [H|[]]. injection H as <- <-. now left.
  - destruct (String.eqb_spec k0 k) as [->|Hk]; simpl.
    + intros [H|H]; [injection H as <- <-; now left | right; now right].
    + intros [H|H]; [right; now left|].
      destruct (IH H) as [?|?]; [now left | right; now right].
Qed.

Section BuilderExtras.
Context {Value : Type}.
Implicit Types (g : Graph Value) (p : PathRunnable Value).

Lemma add_node_outcome g key action :
  add_node key action g =
  mkOutcome
    (if Dict.mem (nodes g) key || (String.eqb key END || String.eqb key START) then g
     else set_nodes g (Dict.set (nodes g) key (coerce_to_runnable action key)))
    (if compiled g then [warn_add_node] else [])
    (if Dict.mem (nodes g) key then Raise (NodeAlreadyPresent key)
     else if String.eqb key END || String.eqb key START then Raise (NodeReserved key)
     else Ok tt).
Proof.
  unfold add_node, bind, gets, when, warning, ret, raise, modify; simpl.
  destruct (compiled g); simpl;
    destruct (Dict.mem (nodes g) key); simpl;
    destruct (String.eqb key END || String.eqb key START); reflexivity.
Qed.

Lemma add_edge_outcome g s t :
  add_edge s t g =
  mkOutcome
    (if String.eqb s END || String.eqb t START
        || (negb (support_multiple_edges g)
            && str_mem s (PySet.of_list String.eqb (map fst (edges g))))
     then g
     else set_edges g (PySet.add edge_eqb (s, t) (edges g)))
    (if compiled g then [warn_add_edge] else [])
    (if String.eqb s END then Raise EndCannotBeStart
     else if String.eqb t START then Raise StartCannotBeEnd
     else if negb (support_multiple_edges g)
             && str_mem s (PySet.of_list String.eqb (map fst (edges g)))
     then Raise (AlreadyFoundPath s)
     else Ok tt).
Proof.
  unfold add_edge, bind, gets, when, warning, ret, raise, modify; simpl.
  destruct (compiled g); simpl;
    destruct (String.eqb s END); simpl; try reflexivity;
    destruct (String.eqb t START); simpl; try reflexivity;
    destruct (negb (support_multiple_edges g)
              && str_mem s (PySet.of_list String.eqb (map fst (edges g))));
    reflexivity.
Qed.

Lemma source_taken g s :
  str_mem s (PySet.of_list String.eqb (map fst (edges g))) = true
  <-> In s (map fst (edges g)).
Proof.
  rewrite str_mem_In. apply pyset_of_list_In. exact string_eqb_iff.
Qed.

(** X1: a successful [add_node] appends the node under its key, with the
    action coerced under that name, and changes nothing else. *)
Theorem add_node_registers g key action :
  Dict.mem (nodes g) key = false -> key <> START -> key <> END ->
  result (add_node key action g) = Ok tt /\
  Dict.get (nodes (state (add_node key action g))) key
    = Some (coerce_to_runnable action key) /\
  Dict.keys (nodes (state (add_node key action g))) = (Dict.keys (nodes g) ++ [key])%list /\
  (forall k, k <> key ->
     Dict.get (nodes (state (add_node key action g))) k = Dict.get (nodes g) k) /\
  edges (state (add_node key action g)) = edges g /\
  branches (state (add_node key action g)) = branches g /\
  compiled (state (add_node key action g)) = compiled g.
Proof.
  intros Hm Hs He. rewrite add_node_outcome. simpl. rewrite Hm.
  destruct (String.eqb_spec key END); [contradiction|].
  destruct (String.eqb_spec key START); [contradiction|]. simpl.
  repeat split.
  - apply get_set_same.
  - now apply keys_set_absent.
  - intros k Hk. apply get_set_other. congruence.
Qed.

(** X2: a key can be declared once: after a successful [add_node], a second
    [add_node] with the same key raises the duplicate-node error, whatever
    the action. *)
Theorem add_node_twice_raises g key action action' :
  result (add_node key action g) = Ok tt ->
  result (add_node key action' (state (add_node key action g)))
  = Raise (NodeAlreadyPresent key).
Proof.
  rewrite !add_node_outcome. simpl.
  destruct (Dict.mem (nodes g) key) eqn:Hm; simpl; [discriminate|].
  destruct (String.eqb key END || String.eqb key START); simpl; [discriminate|].
  intros _. now rewrite mem_set, String.eqb_refl.
Qed.

(** X3: unless multiple edges are allowed, a source keeps its first edge:
    after a successful [add_edge] from a source, any further [add_edge] from
    that source (to a target other than the entry identifier) raises the
    multiple-edges error and the first edge stays. *)
Theorem add_edge_second_edge_refused g s t t' :
  support_multiple_edges g = false ->
  result (add_edge s t g) = Ok tt ->
  t' <> START ->
  result (add_edge s t' (state (add_edge s t g))) = Raise (AlreadyFoundPath s) /\
  In (s, t) (edges (state (add_edge s t' (state (add_edge s t g))))).
Proof.
  intros Hsup. rewrite !add_edge_outcome. simpl.
  destruct (String.eqb_spec s END) as [|Hs]; simpl; [discriminate|].
  destruct (String.eqb_spec t START) as [|Ht]; simpl; [discriminate|].
  rewrite Hsup. simpl.
  destruct (str_mem s (PySet.of_list String.eqb (map fst (edges g)))) eqn:Hm; simpl;
    [discriminate|].
  intros _ Ht'. rewrite Hsup.
  destruct (String.eqb_spec s END); [contradiction|].
  destruct (String.eqb_spec t' START); [contradiction|]. simpl.
  assert (Hin : In (s, t) (PySet.add edge_eqb (s, t) (edges g))).
  { apply (pyset_add_In edge_eqb edge_eqb_iff). now left. }
  assert (Htaken : str_mem s (PySet.of_list String.eqb
                     (map fst (PySet.add edge_eqb (s, t) (edges g)))) = true).
  { apply str_mem_In. apply (pyset_of_list_In String.eqb string_eqb_iff).
    apply in_map_iff. exists (s, t). auto. }
  rewrite Htaken. simpl. split; [reflexivity | exact Hin].
Qed.

(** X4: the edges are a set: when multiple edges are allowed, adding an
    edge that is already there succeeds and leaves the edges as they were. *)
Theorem add_edge_duplicate_collapses g s t :
  support_multiple_edges g = true ->
  In (s, t) (edges g) ->
  s <> END -> t <> START ->
  result (add_edge s t g) = Ok tt /\
  edges (state (add_edge s t g)) = edges g.
Proof.
  intros Hsup Hin Hs Ht. rewrite add_edge_outcome. simpl. rewrite Hsup.
  destruct (String.eqb_spec s END); [contradiction|].
  destruct (String.eqb_spec t START); [contradiction|]. simpl.
  split; [reflexivity|].
  now apply (pyset_add_present edge_eqb edge_eqb_iff).
Qed.

Lemma add_conditional_edges_state g source p path_map th :
  state (add_conditional_edges source p path_map th g) =
  match Dict.get (branches g) source with
  | Some d =>
      if Dict.mem d (branch_name p) then g
      else set_branches g
             (Dict.set (branches g) source
                (Dict.set d (branch_name p) (mkBranch p path_map th)))
  | None =>
      set_branches g
        (Dict.set (Dict.set (branches g) source []) source
           [(branch_name p, mkBranch p path_map th)])
  end.
Proof.
  unfold add_conditional_edges, defaultdict_getitem, bind, gets, when, warning,
    ret, raise, modify; simpl.
  destruct (compiled g); simpl;
    destruct (Dict.get (branches g) source) as [d|] eqn:Hd; simpl;
    try (rewrite get_set_same; simpl; reflexivity);
    destruct (Dict.mem d (branch_name p)); simpl; rewrite ?Hd; reflexivity.
Qed.

Lemma find_branch_mem g source name :
  find_branch g source name = None <->
  (forall d, Dict.get (branches g) source = Some d -> Dict.mem d name = false).
Proof.
  unfold find_branch, Dict.mem. destruct (Dict.get (branches g) source) as [d|].
  - split.
    + intros H d' Hd. injection Hd as <-. now rewrite H.
    + intro H. specialize (H d eq_refl). now destruct (Dict.get d name).
  - split; [intros _ d Hd; discriminate | reflexivity].
Qed.

Lemma set_set_same {V} (d : Dict.t V) k v v' :
  Dict.set (Dict.set d k v) k v' = Dict.set d k v'.
Proof.
  induction d as [|[k0 v0] d IH]; simpl.
  - now rewrite String.eqb_refl.
  - destruct (String.eqb_spec k0 k) as [->|Hk]; simpl.
    + now rewrite String.eqb_refl.
    + destruct (String.eqb_spec k0 k); [contradiction|]. now rewrite IH.
Qed.

Lemma add_conditional_edges_ok_iff g source p path_map th :
  result (add_conditional_edges source p path_map th g) = Ok tt
  <-> find_branch g source (branch_name p) = None.
Proof.
  rewrite add_conditional_edges_result. unfold find_branch, Dict.mem.
  destruct (Dict.get (branches g) source) as [d|]; [|tauto].
  destruct (Dict.get d (branch_name p)); split; intro H; (discriminate || reflexivity).
Qed.

Lemma add_conditional_edges_new_branch g source p path_map th :
  find_branch g source (branch_name p) = None ->
  find_branch (state (add_conditional_edges source p path_map th g)) source (branch_name p)
  = Some (mkBranch p path_map th).
Proof.
  intros Hfree. rewrite add_conditional_edges_state. unfold find_branch in *.
  destruct (Dict.get (branches g) source) as [d|] eqn:Hd.
  - unfold Dict.mem. rewrite Hfree. simpl. now rewrite get_set_same, get_set_same.
  - simpl. rewrite set_set_same, get_set_same. simpl. now rewrite String.eqb_refl.
Qed.

(** X5: [add_conditional_edges] succeeds exactly when the source has no
    branch under the name derived from the routing function; it then
    records the branch under (source, name) and keeps every other branch,
    the nodes and the edges. *)
Theorem add_conditional_edges_records g source p path_map th :
  (result (add_conditional_edges source p path_map th g) = Ok tt
   <-> find_branch g source (branch_name p) = None) /\
  (find_branch g source (branch_name p) = None ->
   let g' := state (add_conditional_edges source p path_map th g) in
   find_branch g' source (branch_name p) = Some (mkBranch p path_map th) /\
   (forall s n, (s <> source \/ n <> branch_name p) ->
      find_branch g' s n = find_branch g s n) /\
   nodes g' = nodes g /\ edges g' = edges g).
Proof.
  split; [apply add_conditional_edges_ok_iff|].
  intros Hfree g'. split; [now apply add_conditional_edges_new_branch|].
  unfold g'. rewrite add_conditional_edges_state.
  unfold find_branch in *.
  destruct (Dict.get (branches g) source) as [d|] eqn:Hd.
  - unfold Dict.mem. rewrite Hfree. simpl.
    repeat split. intros s n Hne. rewrite get_set.
    destruct (String.eqb_spec source s) as [<-|Hs].
    + rewrite Hd. destruct Hne as [Hne|Hne]; [contradiction|].
      apply get_set_other. congruence.
    + reflexivity.
  - simpl. rewrite set_set_same.
    repeat split. intros s n Hne. rewrite get_set.
    destruct (String.eqb_spec source s) as [<-|Hs].
    + rewrite Hd. simpl. destruct Hne as [Hne|Hne]; [contradiction|].
      destruct (String.eqb_spec (branch_name p) n); [congruence | reflexivity].
    + reflexivity.
Qed.

(** X6: the branch name is the name of the routing function, or
    "condition" when it has none: after a successful
    [add_conditional_edges], a second one on the same source with a routing
    function of the same derived name raises the duplicate-branch error; in
    particular two unnamed routing functions on one source clash. *)
Theorem add_conditional_edges_same_name_raises g source p p' pm pm' th th' :
  branch_name p' = branch_name p ->
  result (add_conditional_edges source p pm th g) = Ok tt ->
  result (add_conditional_edges source p' pm' th'
            (state (add_conditional_edges source p pm th g)))
  = Raise (BranchAlreadyExists (path_name p') source).
Proof.
  intros Hn Hok.
  apply add_conditional_edges_ok_iff in Hok.
  pose proof (add_conditional_edges_new_branch g source p pm th Hok) as Hnew.
  rewrite add_conditional_edges_result. unfold find_branch in Hnew.
  destruct (Dict.get (branches (state (add_conditional_edges source p pm th g))) source)
    as [d|]; [|discriminate].
  unfold Dict.mem. rewrite Hn, Hnew. reflexivity.
Qed.

End BuilderExtras.

Section BuilderInvariant.
Context {Value : Type}.
Implicit Types (g : Graph Value) (p : PathRunnable Value).

Lemma builder_invariant_set_compiled g c :
  builder_invariant g -> builder_invariant (set_compiled g c).
Proof. intro H. exact H. Qed.

Lemma add_node_keeps_invariant g key action :
  builder_invariant g -> builder_invariant (state (add_node key action g)).
Proof.
  intros Hinv. rewrite add_node_outcome. simpl.
  destruct (Dict.mem (nodes g) key) eqn:Hm; simpl; [exact Hinv|].
  destruct (String.eqb_spec key END) as [|He]; simpl; [exact Hinv|].
  destruct (String.eqb_spec key START) as [|Hs]; simpl; [exact Hinv|].
  destruct Hinv as [H1 [H2 [H3 H4]]].
  unfold builder_invariant. simpl. rewrite (keys_set_absent _ _ _ Hm).
  split; [|split; [|split]]; [| | |exact H4].
  - apply NoDup_app; [exact H1 | repeat constructor; intros [] |].
    intros x Hx [<-|[]]. apply mem_keys in Hx. congruence.
  - intro H. apply in_app_or in H. destruct H as [H|[H|[]]]; [contradiction | congruence].
  - intro H. apply in_app_or in H. destruct H as [H|[H|[]]]; [contradiction | congruence].
Qed.

Lemma add_edge_keeps_invariant g s t :
  builder_invariant g -> builder_invariant (state (add_edge s t g)).
Proof.
  intros Hinv. rewrite add_edge_outcome. simpl.
  destruct (String.eqb_spec s END) as [|Hs]; simpl; [exact Hinv|].
  destruct (String.eqb_spec t START) as [|Ht]; simpl; [exact Hinv|].
  destruct (negb (support_multiple_edges g)
            && str_mem s (PySet.of_list String.eqb (map fst (edges g)))) eqn:Hg;
    [exact Hinv|].
  destruct Hinv as [H1 [H2 [H3 [H4 [H5 [H6 H7]]]]]].
  unfold builder_invariant. simpl.
  split; [exact H1|]. split; [exact H2|]. split; [exact H3|].
  split; [now apply (pyset_add_NoDup edge_eqb edge_eqb_iff)|].
  split; [|split; [|exact H7]].
  - intros s0 e0 Hin. apply (pyset_add_In edge_eqb edge_eqb_iff) in Hin.
    destruct Hin as [Heq|Hin]; [injection Heq as -> ->; auto | now apply H5].
  - intro Hsup. rewrite Hsup in Hg. simpl in Hg.
    assert (Hfree : ~ In s (map fst (edges g))).
    { intro Hc. apply source_taken in Hc. congruence. }
    rewrite (pyset_add_absent edge_eqb edge_eqb_iff).
    + rewrite map_app. simpl.
      apply NoDup_app; [now apply H6 | repeat constructor; intros [] |].
      intros x Hx [<-|[]]. contradiction.
    + intro Hc. apply Hfree. apply in_map_iff. exists (s, t). auto.
Qed.

Lemma add_conditional_edges_keeps_invariant g source p pm th :
  builder_invariant g ->
  builder_invariant (state (add_conditional_edges source p pm th g)).
Proof.
  intros Hinv. rewrite add_conditional_edges_state.
  pose proof Hinv as [H1 [H2 [H3 [H4 [H5 [H6 [H7 H8]]]]]]].
  assert (Hset : forall d',
    NoDup (Dict.keys d') ->
    builder_invariant (set_branches g (Dict.set (branches g) source d'))).
  { intros d' Hd'. unfold builder_invariant. simpl.
    split; [exact H1|]. split; [exact H2|]. split; [exact H3|]. split; [exact H4|].
    split; [exact H5|]. split; [exact H6|].
    split; [now apply keys_set_NoDup|].
    intros s brs Hin. apply set_In in Hin. destruct Hin as [[-> ->]|Hin].
    - exact Hd'.
    - now apply (H8 s). }
  destruct (Dict.get (branches g) source) as [d|] eqn:Hd.
  - destruct (Dict.mem d (branch_name p)); [exact Hinv|].
    apply Hset. apply keys_set_NoDup. apply (H8 source). now apply get_In.
  - rewrite set_set_same. apply Hset. simpl. repeat constructor. intros [].
Qed.

Lemma validate_keeps_invariant g i :
  builder_invariant g -> builder_invariant (state (validate i g)).
Proof.
  intro H. rewrite validate_state. now destruct (is_ok _).
Qed.

Lemma compile_keeps_invariant g ib ia dbg :
  builder_invariant g -> builder_invariant (state (compile ib ia dbg g)).
Proof.
  intro H. rewrite compile_state. now destruct (is_ok _).
Qed.

Lemma built_single_edges g : built g -> support_multiple_edges g = false.
Proof.
  induction 1 as [|g key action _ IH|g s t _ IH|g source p pm th _ IH|g i _ IH
                  |g ib ia dbg _ IH].
  - reflexivity.
  - rewrite add_node_outcome. simpl. now destruct (_ || _).
  - rewrite add_edge_outcome. simpl. now destruct (_ || _).
  - rewrite add_conditional_edges_state.
    destruct (Dict.get (branches g) source); [|exact IH].
    now destruct (Dict.mem _ _).
  - rewrite validate_state. now destruct (is_ok _).
  - rewrite compile_state. now destruct (is_ok _).
Qed.

(** X7: every builder reached from a fresh [Graph()] through [add_node],
    [add_edge], [add_conditional_edges], [validate] and [compile], whether
    the calls return or raise, keeps its structural invariant: the reserved
    identifiers are never nodes, no edge leaves the terminal identifier or
    enters the entry identifier, and no two edges share a source. *)
Theorem built_keeps_invariant g :
  built g ->
  builder_invariant g /\
  NoDup (map fst (edges g)) /\
  Dict.mem (nodes g) START = false /\
  Dict.mem (nodes g) END = false.
Proof.
  intro Hb.
  assert (Hinv : builder_invariant g).
  { induction Hb.
    - unfold builder_invariant. simpl.
      split; [constructor|]. split; [intros []|]. split; [intros []|].
      split; [constructor|]. split; [intros ? ? []|]. split; [constructor|].
      split; [constructor | intros ? ? []].
    - now apply add_node_keeps_invariant.
    - now apply add_edge_keeps_invariant.
    - now apply add_conditional_edges_keeps_invariant.
    - now apply validate_keeps_invariant.
    - now apply compile_keeps_invariant. }
  split; [exact Hinv|].
  destruct Hinv as [_ [H2 [H3 [_ [_ [H6 _]]]]]].
  split; [apply H6; now apply built_single_edges|].
  split.
  - destruct (Dict.mem (nodes g) START) eqn:Hm; [|reflexivity].
    apply mem_keys in Hm. contradiction.
  - destruct (Dict.mem (nodes g) END) eqn:Hm; [|reflexivity].
    apply mem_keys in Hm. contradiction.
Qed.

End BuilderInvariant.

Lemma line_graph_built : built (state (build line_graph)).
Proof.
  apply (built_add_edge
           (state (build (add_node "A" noop ;; add_node "B" noop ;;
                          set_entry_point "A" ;; add_edge "A" "B")%py)) "B" END).
  apply (built_add_edge
           (state (build (add_node "A" noop ;; add_node "B" noop ;;
                          set_entry_point "A")%py)) "A" "B").
  apply (built_add_edge
           (state (build (add_node "A" noop ;; add_node "B" noop)%py)) START "A").
  apply (built_add_node (state (build (add_node "A" noop))) "B" noop).
  apply (built_add_node Graph_init "A" noop).
  apply built_init.
Defined.

Lemma add_node_registers_witness :
  result (add_node "C" noop (state (build line_graph))) = Ok tt /\
  Dict.get (nodes (state (add_node "C" noop (state (build line_graph))))) "C"
    = Some (coerce_to_runnable noop "C") /\
  Dict.keys (nodes (state (add_node "C" noop (state (build line_graph)))))
    = (Dict.keys (nodes (state (build line_graph))) ++ ["C"])%list /\
  (forall k, k <> "C" ->
     Dict.get (nodes (state (add_node "C" noop (state (build line_graph))))) k
     = Dict.get (nodes (state (build line_graph))) k) /\
  edges (state (add_node "C" noop (state (build line_graph))))
    = edges (state (build line_graph)) /\
  branches (state (add_node "C" noop (state (build line_graph))))
    = branches (state (build line_graph)) /\
  compiled (state (add_node "C" noop (state (build line_graph))))
    = compiled (state (build line_graph)).
Proof.
  apply (add_node_registers (state (build line_graph)) "C" noop).
  - reflexivity.
  - discriminate.
  - discriminate.
Defined.

Lemma add_node_twice_raises_witness :
  result (add_node "A" noop (state (add_node "A" noop (@Graph_init string))))
  = Raise (NodeAlreadyPresent "A").
Proof.
  apply (add_node_twice_raises Graph_init "A" noop noop). reflexivity.
Defined.

Lemma add_edge_second_edge_refused_witness :
  result (add_edge START "B" (state (add_edge START "A" (@Graph_init string))))
    = Raise (AlreadyFoundPath START) /\
  In (START, "A")
     (edges (state (add_edge START "B" (state (add_edge START "A" (@Graph_init string)))))).
Proof.
  apply (add_edge_second_edge_refused Graph_init START "A" "B").
  - reflexivity.
  - reflexivity.
  - discriminate.
Defined.

Lemma add_edge_duplicate_collapses_witness :
  result (add_edge "A" "B" (mkGraph [] [("A", "B")] [] true false : Graph string)) = Ok tt /\
  edges (state (add_edge "A" "B" (mkGraph [] [("A", "B")] [] true false : Graph string)))
    = [("A", "B")].
Proof.
  apply (add_edge_duplicate_collapses (mkGraph [] [("A", "B")] [] true false) "A" "B").
  - reflexivity.
  - left. reflexivity.
  - discriminate.
  - discriminate.
Defined.

Lemma add_conditional_edges_records_witness :
  find_branch (state (add_conditional_edges "A" (route_to "B") None None
                        (state (build line_graph)))) "A" "route"
  = Some (mkBranch (route_to "B") None None).
Proof.
  apply (proj2 (add_conditional_edges_records (state (build line_graph)) "A"
                  (route_to "B") None None)).
  reflexivity.
Defined.

Lemma add_conditional_edges_same_name_raises_witness :
  result (add_conditional_edges "A" (anonymous_to "y") None None
            (state (add_conditional_edges "A" (anonymous_to "x") None None
                      (state (build line_graph)))))
  = Raise (BranchAlreadyExists None "A").
Proof.
  apply (add_conditional_edges_same_name_raises (state (build line_graph)) "A"
           (anonymous_to "x") (anonymous_to "y") None None None None).
  - reflexivity.
  - reflexivity.
Defined.

Lemma built_keeps_invariant_witness :
  builder_invariant (state (build line_graph)) /\
  NoDup (map fst (edges (state (build line_graph)))) /\
  Dict.mem (nodes (state (build line_graph))) START = false /\
  Dict.mem (nodes (state (build line_graph))) END = false.
Proof.
  apply (built_keeps_invariant (state (build line_graph))).
  exact line_graph_built.
Defined.

(** * Further properties of the validator *)

Lemma fold_left_union {Acc B} (proj : Acc -> list string) (step : Acc -> B -> Acc)
  (P : B -> string -> Prop) :
  (forall a item x, In x (proj (step a item)) <-> In x (proj a) \/ P item x) ->
  forall l a x,
    In x (proj (fold_left step l a)) <-> In x (proj a) \/ exists item, In item l /\ P item x.
Proof.
  intro Hstep. induction l as [|y l IH]; intros a x; simpl.
  - split; [auto | intros [H|[item [[] _]]]; exact H].
  - rewrite IH, Hstep. split.
    + intros [[H|H]|[item [Hin HP]]]; eauto.
    + intros [H|[item [[<-|Hin] HP]]]; eauto.
Qed.

Lemma foldM_union {B} (step : list string -> B -> Result (list string))
  (P : B -> string -> Prop) :
  (forall a item a', step a item = Ok a' ->
     forall x, In x a' <-> In x a \/ P item x) ->
  forall l a r, foldM step l a = Ok r ->
    forall x, In x r <-> In x a \/ exists item, In item l /\ P item x.
Proof.
  intro Hstep. induction l as [|y l IH]; intros a r; simpl.
  - intro H. injection H as <-. intro x.
    split; [auto | intros [H|[item [[] _]]]; exact H].
  - destruct (step a y) as [a'|e] eqn:Hy; simpl; [|discriminate].
    intros H x. rewrite (IH _ _ H), (Hstep _ _ _ Hy). split.
    + intros [[H1|H1]|[item [Hin HP]]]; eauto.
    + intros [H1|[item [[<-|Hin] HP]]]; eauto.
Qed.

Lemma foldM_succeeds {A B} (step : A -> B -> Result A) (valid : B -> Prop) :
  (forall a item, valid item -> exists a', step a item = Ok a') ->
  forall l a, (forall item, In item l -> valid item) -> exists r, foldM step l a = Ok r.
Proof.
  intro Hstep. induction l as [|y l IH]; intros a Hall; simpl; [eauto|].
  destruct (Hstep a y) as [a' Ha']; [apply Hall; now left|].
  rewrite Ha'. simpl. apply IH. intros item Hin. apply Hall. now right.
Qed.

Lemma foldM_ok_valid {A B} (step : A -> B -> Result A) (valid : B -> Prop) :
  (forall a item a', step a item = Ok a' -> valid item) ->
  forall l a r, foldM step l a = Ok r -> forall item, In item l -> valid item.
Proof.
  intro Hstep. induction l as [|y l IH]; intros a r H item Hin; [destruct Hin|].
  simpl in H. destruct (step a y) as [a'|e] eqn:Hy; simpl in H; [|discriminate].
  destruct Hin as [<-|Hin]; [eapply Hstep; exact Hy | eapply IH; eauto].
Qed.

Lemma foldM_raise_In {A B} (Q : Error -> Prop) (f : A -> B -> Result A) (l : list B) :
  (forall a x e, In x l -> f a x = Raise e -> Q e) ->
  forall a e, foldM f l a = Raise e -> Q e.
Proof.
  induction l as [|y l IH]; intros Hstep a e; simpl; [discriminate|].
  destruct (f a y) as [a'|e'] eqn:Hf; simpl.
  - apply IH. intros a0 x e0 Hx. apply Hstep. now right.
  - intro H. injection H as <-. eapply Hstep; [now left | exact Hf].
Qed.

Section ValidatorSets.
Context {Value : Type}.
Implicit Types (g : Graph Value) (b : Branch Value).

(** what the loop body of lines 231-239 adds for one branch *)
Lemma sources_of_branch_spec g start a item x :
  In x (fst (sources_of_branch g start a item)) <->
  In x (fst a) \/
  (x = start \/
   exists th, then_ (snd item) = Some th /\
     ((exists m, ends (snd item) = Some m /\ In x (Dict.values m)) \/
      (ends (snd item) = None /\ declared g x /\ x <> start /\ x <> th))).
Proof.
  unfold sources_of_branch.
  destruct (then_ (snd item)) as [th|].
  - destruct (ends (snd item)) as [m|].
    + simpl.
      rewrite (fold_left_union (fun s => s) (fun s end_ => str_add end_ s)
                 (fun e y => y = e)).
      * rewrite str_add_In. split.
        -- intros [[->|H]|[e [Hin ->]]]; auto.
           right. right. exists th. split; [reflexivity|]. left. eauto.
        -- intros [H|[->|[th' [_ [[m' [Hm Hin]]|[Hc _]]]]]]; auto; [|discriminate].
           injection Hm as <-. right. eauto.
      * intros s e y. rewrite str_add_In. tauto.
    + rewrite (fold_left_union fst
                 (fun a node =>
                    (if negb (String.eqb node start) && negb (String.eqb node th)
                     then str_add node (fst a) else fst a, Some node))
                 (fun node y => y = node /\ node <> start /\ node <> th)).
      * simpl. rewrite str_add_In. unfold declared. split.
        -- intros [[->|H]|[node [Hin [-> [H1 H2]]]]]; auto.
           right. right. exists th. split; [reflexivity|]. right. auto.
        -- intros [H|[->|[th' [Hth [[m' [Hm _]]|[_ [Hd [H1 H2]]]]]]]]; auto;
             [discriminate|].
           injection Hth as <-. right. exists x. auto.
      * intros a0 node y. simpl.
        destruct (String.eqb_spec node start) as [->|H1]; simpl.
        { split; [auto | intros [H|[_ [H _]]]; [exact H | contradiction]]. }
        destruct (String.eqb_spec node th) as [->|H2]; simpl.
        { split; [auto | intros [H|[_ [_ H]]]; [exact H | contradiction]]. }
        rewrite str_add_In. split; intros [H|H]; auto.
        destruct H as [-> _]. auto.
  - simpl. rewrite str_add_In. split.
    + intros [->|H]; auto.
    + intros [H|[->|[th [Hc _]]]]; auto. discriminate.
Qed.

Lemma assemble_sources_spec g x :
  In x (fst (assemble_sources g)) <-> is_source g x.
Proof.
  unfold assemble_sources.
  rewrite (fold_left_union fst
    (fun acc entry => fold_left (sources_of_branch g (fst entry)) (snd entry) acc)
    (fun entry y =>
       exists item, In item (snd entry) /\
         (y = fst entry \/
          exists th, then_ (snd item) = Some th /\
            ((exists m, ends (snd item) = Some m /\ In y (Dict.values m)) \/
             (ends (snd item) = None /\ declared g y /\ y <> fst entry /\ y <> th))))).
  - simpl. rewrite (pyset_of_list_In String.eqb string_eqb_iff).
    unfold is_source, has_branch, _all_edges. split.
    + intros [H|[[start brs] [Hout [[name b] [Hin H]]]]]; simpl in *.
      * left. apply in_map_iff in H. destruct H as [[s e] [<- H]]. eauto.
      * assert (Hb : exists brs0, In (start, brs0) (branches g) /\ In (name, b) brs0)
          by (exists brs; auto).
        destruct H as [->|[th [Hth [[m [Hm Hv]]|[Hn [Hd [H1 H2]]]]]]].
        -- right. left. exists name, b. exact Hb.
        -- right. right. left. exists start, name, b, th, m. auto.
        -- right. right. right. exists start, name, b, th. repeat split; auto.
    + intros [[e H]|[[name [b [brs [Hout Hin]]]]
               |[[s [name [b [th [m [[brs [Hout Hin]] [Hth [Hm Hv]]]]]]]]
                |[s [name [b [th [[brs [Hout Hin]] [Hth [Hn [Hd [H1 H2]]]]]]]]]]]].
      * left. apply in_map_iff. exists (x, e). auto.
      * right. exists (x, brs). split; [exact Hout|]. exists (name, b). auto.
      * right. exists (s, brs). split; [exact Hout|]. exists (name, b).
        split; [exact Hin|]. right. exists th. simpl. split; [exact Hth|]. left. eauto.
      * right. exists (s, brs). split; [exact Hout|]. exists (name, b).
        split; [exact Hin|]. right. exists th. simpl. split; [exact Hth|]. right. auto.
  - intros a entry y.
    apply (fold_left_union fst (sources_of_branch g (fst entry))
             (fun item y =>
                y = fst entry \/
                exists th, then_ (snd item) = Some th /\
                  ((exists m, ends (snd item) = Some m /\ In y (Dict.values m)) \/
                   (ends (snd item) = None /\ declared g y /\ y <> fst entry /\ y <> th)))).
    intros a0 item z. apply sources_of_branch_spec.
Qed.

(** X8: [all_sources] holds exactly the sources of the edges, the sources
    of the branches and, for every branch with a [then] node, its
    destinations: the values of [ends], or without [ends] the other declared
    nodes except [then]. *)
Theorem all_sources_spec g x : In x (all_sources g) <-> is_source g x.
Proof. apply assemble_sources_spec. Qed.

End ValidatorSets.

Section ValidatorTargets.
Context {Value : Type}.
Implicit Types (g : Graph Value) (b : Branch Value).

Lemma differs_from_then_iff x (th : option string) :
  differs_from_then x th = true <-> th <> Some x.
Proof.
  destruct th as [t|]; simpl.
  - destruct (String.eqb_spec x t) as [->|Hne]; simpl.
    + split; [discriminate | intro H; now contradiction H].
    + split; [intros _ H; injection H as ->; now contradiction Hne | reflexivity].
  - split; [discriminate | reflexivity].
Qed.

(** what the loop body of lines 252-265 adds for one branch, when it
    returns *)
Lemma targets_of_branch_spec g start t item t' :
  targets_of_branch g start t item = Ok t' ->
  forall x,
    In x t' <->
    In x t \/
    (then_ (snd item) = Some x \/
     (exists m, ends (snd item) = Some m /\ In x (Dict.values m)) \/
     (ends (snd item) = None /\
      (x = END \/ (declared g x /\ x <> start /\ then_ (snd item) <> Some x)))).
Proof.
  unfold targets_of_branch.
  set (t0 := match then_ (snd item) with Some th => str_add th t | None => t end).
  assert (H0 : forall x, In x t0 <-> In x t \/ then_ (snd item) = Some x).
  { intro x. unfold t0. destruct (then_ (snd item)) as [th|].
    - rewrite str_add_In. split.
      + intros [->|H]; auto.
      + intros [H|H]; auto. injection H as ->. auto.
    - split; [auto | intros [H|H]; [exact H | discriminate]]. }
  destruct (ends (snd item)) as [m|].
  - intros H x.
    assert (Hstep : forall a e a',
      (if negb (Dict.mem (nodes g) e) && negb (String.eqb e END)
       then Raise (UnknownBranchTarget start (fst item) e)
       else Ok (str_add e a)) = Ok a' ->
      forall y, In y a' <-> In y a \/ y = e).
    { intros a e a'. destruct (negb _ && negb _); [discriminate|].
      intro Ha. injection Ha as <-. intro y. rewrite str_add_In. tauto. }
    rewrite (foldM_union _ (fun e y => y = e) Hstep _ _ _ H).
    rewrite H0. split.
    + intros [[H1|H1]|[e [Hin ->]]]; auto. right. right. left. eauto.
    + intros [H1|[H1|[[m' [Hm Hin]]|[Hc _]]]]; auto; [|discriminate].
      injection Hm as <-. right. eauto.
  - intros H x. injection H as <-.
    rewrite (fold_left_union (fun s => s)
               (fun t node =>
                  if negb (String.eqb node start)
                     && differs_from_then node (then_ (snd item))
                  then str_add node t else t)
               (fun node y => y = node /\ node <> start /\ then_ (snd item) <> Some node)).
    + rewrite str_add_In, H0. unfold declared. split.
      * intros [[->|[H1|H1]]|[node [Hin [-> [H1 H2]]]]]; auto.
        -- right. right. right. auto.
        -- right. right. right. split; [reflexivity|]. right. auto.
      * intros [H1|[H1|[[m' [Hm _]]|[_ [->|[Hd [H1 H2]]]]]]]; auto; [discriminate|].
        right. exists x. auto.
    + intros a node y.
      destruct (String.eqb_spec node start) as [->|H1]; simpl.
      { split; [auto | intros [H|[_ [H _]]]; [exact H | contradiction]]. }
      destruct (differs_from_then node (then_ (snd item))) eqn:Hd.
      * apply differs_from_then_iff in Hd. rewrite str_add_In.
        split; intros [H|H]; auto. destruct H as [-> _]. auto.
      * assert (Hn : ~ then_ (snd item) <> Some node).
        { intro Hc. apply differs_from_then_iff in Hc. congruence. }
        split; [auto | intros [H|[_ [_ H]]]; [exact H | contradiction]].
Qed.

Lemma targets_of_branch_ok g start t item :
  (exists t', targets_of_branch g start t item = Ok t') <->
  (forall m e, ends (snd item) = Some m -> In e (Dict.values m) ->
               declared g e \/ e = END).
Proof.
  unfold targets_of_branch.
  set (t0 := match then_ (snd item) with Some th => str_add th t | None => t end).
  destruct (ends (snd item)) as [m|].
  - split.
    + intros [t' H] m' e Hm Hin. injection Hm as <-.
      apply (foldM_ok_valid _ (fun e => declared g e \/ e = END)) with (item := e) in H;
        auto.
      intros a x a'.
      destruct (Dict.mem (nodes g) x) eqn:Hmem; simpl.
      * intros _. left. now apply mem_keys.
      * destruct (String.eqb_spec x END); simpl; [auto | discriminate].
    + intro Hall.
      apply (foldM_succeeds _ (fun e => declared g e \/ e = END)).
      * intros a x [Hd| ->].
        -- apply mem_keys in Hd. rewrite Hd. simpl. eauto.
        -- rewrite String.eqb_refl, andb_false_r. eauto.
      * intros e Hin. now apply (Hall m).
  - split; [intros _ m e Hc; discriminate | eauto].
Qed.

Lemma targets_of_branch_raise g start t item e :
  targets_of_branch g start t item = Raise e ->
  exists m x, e = UnknownBranchTarget start (fst item) x /\
    ends (snd item) = Some m /\ In x (Dict.values m) /\
    ~ declared g x /\ x <> END.
Proof.
  unfold targets_of_branch. destruct (ends (snd item)) as [m|]; [|discriminate].
  intro H. exists m.
  revert H.
  apply (foldM_raise_In
           (fun e => exists x, e = UnknownBranchTarget start (fst item) x /\
                      Some m = Some m /\ In x (Dict.values m) /\
                      ~ declared g x /\ x <> END)).
  intros a x e0 Hin.
  destruct (Dict.mem (nodes g) x) eqn:Hmem; simpl; [discriminate|].
  destruct (String.eqb_spec x END) as [|Hne]; simpl; [discriminate|].
  intro H. injection H as <-. exists x. repeat split; auto.
  intro Hd. apply mem_keys in Hd. congruence.
Qed.

Lemma assemble_targets_spec g t :
  assemble_targets g = Ok t -> forall x, In x t <-> is_target g x.
Proof.
  unfold assemble_targets. intros H x.
  assert (Hinner : forall a entry a',
    foldM (targets_of_branch g (fst entry)) (snd entry) a = Ok a' ->
    forall y, In y a' <-> In y a \/
      exists item, In item (snd entry) /\
        (then_ (snd item) = Some y \/
         (exists m, ends (snd item) = Some m /\ In y (Dict.values m)) \/
         (ends (snd item) = None /\
          (y = END \/ (declared g y /\ y <> fst entry /\ then_ (snd item) <> Some y))))).
  { intros a entry a' Ha y.
    apply (foldM_union (targets_of_branch g (fst entry))
             (fun item y =>
                then_ (snd item) = Some y \/
                (exists m, ends (snd item) = Some m /\ In y (Dict.values m)) \/
                (ends (snd item) = None /\
                 (y = END \/
                  (declared g y /\ y <> fst entry /\ then_ (snd item) <> Some y)))))
      with (l := snd entry) (a := a) (r := a'); auto.
    intros a0 item a0' H0. now apply targets_of_branch_spec. }
  rewrite (foldM_union _ _ Hinner _ _ _ H).
  rewrite (pyset_of_list_In String.eqb string_eqb_iff).
  unfold is_target, has_branch, _all_edges. split.
  - intros [H1|[[start brs] [Hout [[name b] [Hin H1]]]]]; simpl in *.
    + left. apply in_map_iff in H1. destruct H1 as [[s e] [<- H1]]. eauto.
    + assert (Hb : exists brs0, In (start, brs0) (branches g) /\ In (name, b) brs0)
        by (exists brs; auto).
      destruct H1 as [Hth|[[m [Hm Hv]]|[Hn Hr]]].
      * right. left. exists start, name, b. auto.
      * right. right. left. exists start, name, b, m. auto.
      * right. right. right. exists start, name, b. auto.
  - intros [[s H1]|[[s [name [b [[brs [Hout Hin]] Hth]]]]
             |[[s [name [b [m [[brs [Hout Hin]] [Hm Hv]]]]]]
              |[s [name [b [[brs [Hout Hin]] [Hn Hr]]]]]]]].
    + left. apply in_map_iff. exists (s, x). auto.
    + right. exists (s, brs). split; [exact Hout|]. exists (name, b). auto.
    + right. exists (s, brs). split; [exact Hout|]. exists (name, b).
      split; [exact Hin|]. right. left. eauto.
    + right. exists (s, brs). split; [exact Hout|]. exists (name, b).
      split; [exact Hin|]. right. right. auto.
Qed.

Lemma assemble_targets_ok g :
  (exists t, assemble_targets g = Ok t) <-> ends_valid g.
Proof.
  unfold assemble_targets, ends_valid, has_branch. split.
  - intros [t H] s name b m e [brs [Hout Hin]] Hm He.
    pose proof (foldM_ok_valid
      (fun acc entry => foldM (targets_of_branch g (fst entry)) (snd entry) acc)
      (fun entry => forall item, In item (snd entry) ->
         forall m e, ends (snd item) = Some m -> In e (Dict.values m) ->
                     declared g e \/ e = END)) as Hv.
    assert (Hstep : forall a entry a',
      foldM (targets_of_branch g (fst entry)) (snd entry) a = Ok a' ->
      forall item, In item (snd entry) ->
      forall m e, ends (snd item) = Some m -> In e (Dict.values m) ->
                  declared g e \/ e = END).
    2:{ exact (Hv Hstep _ _ _ H (s, brs) Hout (name, b) Hin m e Hm He). }
    intros a entry a' Ha.
    apply (foldM_ok_valid (targets_of_branch g (fst entry))
             (fun item => forall m e, ends (snd item) = Some m -> In e (Dict.values m) ->
                                      declared g e \/ e = END)) with (a := a) (r := a').
    + intros a0 item a0' H0. apply (targets_of_branch_ok g (fst entry) a0 item). eauto.
    + exact Ha.
  - intro Hall.
    apply (foldM_succeeds _
      (fun entry => forall item, In item (snd entry) ->
         forall m e, ends (snd item) = Some m -> In e (Dict.values m) ->
                     declared g e \/ e = END)).
    + intros a entry Hentry.
      apply (foldM_succeeds _
               (fun item => forall m e, ends (snd item) = Some m -> In e (Dict.values m) ->
                                        declared g e \/ e = END)).
      * intros a0 item Hitem. now apply targets_of_branch_ok.
      * exact Hentry.
    + intros [s brs] Hout [name b] Hin m e Hm He. simpl in *.
      apply (Hall s name b m e); auto. exists brs. auto.
Qed.

Lemma assemble_targets_raise g e :
  assemble_targets g = Raise e ->
  exists s name b m x,
    e = UnknownBranchTarget s name x /\
    has_branch g s name b /\ ends b = Some m /\ In x (Dict.values m) /\
    ~ declared g x /\ x <> END.
Proof.
  unfold assemble_targets.
  set (Q := fun e => exists s name b m x,
    e = UnknownBranchTarget s name x /\
    has_branch g s name b /\ ends b = Some m /\ In x (Dict.values m) /\
    ~ declared g x /\ x <> END).
  apply (foldM_raise_In Q). intros a [s brs] e0 Hout. simpl.
  apply (foldM_raise_In Q). intros a0 [name b] e1 Hin H.
  apply targets_of_branch_raise in H. destruct H as [m [x [-> [Hm [Hv [Hd Hne]]]]]].
  exists s, name, b, m, x. simpl in *. repeat split; auto. exists brs. auto.
Qed.

(** X9: [all_targets] can be assembled exactly when every value of every
    [ends] mapping is a declared node or the terminal identifier; it then
    holds exactly the targets of the edges, the [then] nodes, the values of
    the [ends] mappings and, for every branch with no [ends], the terminal
    identifier and the other declared nodes except [then]. *)
Theorem all_targets_spec g :
  ((exists t, assemble_targets g = Ok t) <-> ends_valid g) /\
  (forall t, assemble_targets g = Ok t -> forall x, In x t <-> is_target g x).
Proof.
  split; [apply assemble_targets_ok | apply assemble_targets_spec].
Qed.

End ValidatorTargets.

Section ValidatorOutcome.
Context {Value : Type}.
Implicit Types (g : Graph Value) (b : Branch Value).

Lemma check_dead_ends_ok keys srcs node :
  (forall k, In k keys -> In k srcs) ->
  exists node', check_dead_ends keys srcs node = Ok node'.
Proof.
  revert node. induction keys as [|k keys IH]; intros node Hall; simpl; [eauto|].
  assert (Hk : str_mem k srcs = true) by (apply str_mem_In, Hall; now left).
  rewrite Hk. simpl. apply IH. intros k' Hk'. apply Hall. now right.
Qed.

Lemma check_dead_ends_all keys srcs node node' :
  check_dead_ends keys srcs node = Ok node' -> forall k, In k keys -> In k srcs.
Proof.
  revert node. induction keys as [|k keys IH]; intros node H k' Hin; [destruct Hin|].
  simpl in H. destruct (str_mem k srcs) eqn:Hm; simpl in H; [|discriminate].
  destruct Hin as [<-|Hin]; [now apply str_mem_In | eapply IH; eauto].
Qed.

Lemma check_dead_ends_first pre k post srcs node :
  (forall k', In k' pre -> In k' srcs) -> ~ In k srcs ->
  check_dead_ends (pre ++ k :: post) srcs node = Raise (DeadEnd k).
Proof.
  revert node. induction pre as [|p pre IH]; intros node Hpre Hk; simpl.
  - destruct (str_mem k srcs) eqn:Hm; [|reflexivity].
    apply str_mem_In in Hm. contradiction.
  - assert (Hp : str_mem p srcs = true) by (apply str_mem_In, Hpre; now left).
    rewrite Hp. simpl. apply IH; [|exact Hk]. intros k' Hk'. apply Hpre. now right.
Qed.

Lemma check_reachable_ok keys t :
  check_reachable keys t = Ok tt <-> (forall k, In k keys -> In k t).
Proof.
  induction keys as [|k keys IH]; simpl.
  - split; [intros _ k [] | reflexivity].
  - destruct (str_mem k t) eqn:Hm; simpl.
    + rewrite IH. apply str_mem_In in Hm. split.
      * intros H k' [<-|Hk']; auto.
      * intros H k' Hk'. apply H. now right.
    + split; [discriminate|]. intro H.
      assert (Hc : str_mem k t = true) by (apply str_mem_In, H; now left). congruence.
Qed.

Lemma check_reachable_first pre k post t :
  (forall k', In k' pre -> In k' t) -> ~ In k t ->
  check_reachable (pre ++ k :: post) t = Raise (NotReachable k).
Proof.
  induction pre as [|p pre IH]; intros Hpre Hk; simpl.
  - destruct (str_mem k t) eqn:Hm; [|reflexivity].
    apply str_mem_In in Hm. contradiction.
  - assert (Hp : str_mem p t = true) by (apply str_mem_In, Hpre; now left).
    rewrite Hp. simpl. apply IH; [|exact Hk]. intros k' Hk'. apply Hpre. now right.
Qed.

Lemma check_targets_ok g t :
  check_targets g t = Ok tt <-> (forall x, In x t -> declared g x \/ x = END).
Proof.
  induction t as [|y t IH]; simpl.
  - split; [intros _ x [] | reflexivity].
  - destruct (Dict.mem (nodes g) y) eqn:Hm; simpl.
    + rewrite IH. apply mem_keys in Hm. split.
      * intros H x [<-|Hx]; auto.
      * intros H x Hx. apply H. now right.
    + destruct (String.eqb_spec y END) as [->|Hne]; simpl.
      * rewrite IH. split.
        -- intros H x [<-|Hx]; auto.
        -- intros H x Hx. apply H. now right.
      * split; [discriminate|]. intro H.
        destruct (H y (or_introl eq_refl)) as [Hd|Hd]; [|contradiction].
        apply mem_keys in Hd. congruence.
Qed.

Lemma check_targets_raise g t e :
  check_targets g t = Raise e ->
  exists x, e = UnknownTargetNode x /\ In x t /\ ~ declared g x /\ x <> END.
Proof.
  induction t as [|y t IH]; simpl; [discriminate|].
  destruct (Dict.mem (nodes g) y) eqn:Hm; simpl.
  - intro H. destruct (IH H) as [x [He [Hin Hr]]]. exists x. auto.
  - destruct (String.eqb_spec y END) as [->|Hne]; simpl.
    + intro H. destruct (IH H) as [x [He [Hin Hr]]]. exists x. auto.
    + intro H. injection H as <-. exists y. repeat split; auto.
      intro Hd. apply mem_keys in Hd. congruence.
Qed.

Lemma check_interrupts_ok g l :
  check_interrupts g l = Ok tt <-> (forall n, In n l -> declared g n).
Proof.
  induction l as [|y l IH]; simpl.
  - split; [intros _ n [] | reflexivity].
  - destruct (Dict.mem (nodes g) y) eqn:Hm; simpl.
    + rewrite IH. apply mem_keys in Hm. split.
      * intros H n [<-|Hn]; auto.
      * intros H n Hn. apply H. now right.
    + split; [discriminate|]. intro H.
      specialize (H y (or_introl eq_refl)). apply mem_keys in H. congruence.
Qed.

Lemma check_interrupts_first g pre n post :
  (forall n', In n' pre -> declared g n') -> ~ declared g n ->
  check_interrupts g (pre ++ n :: post) = Raise (InterruptNotFound n).
Proof.
  induction pre as [|p pre IH]; intros Hpre Hn; simpl.
  - destruct (Dict.mem (nodes g) n) eqn:Hm; [|reflexivity].
    apply mem_keys in Hm. contradiction.
  - assert (Hp : Dict.mem (nodes g) p = true) by (apply mem_keys, Hpre; now left).
    rewrite Hp. simpl. apply IH; [|exact Hn]. intros k' Hk'. apply Hpre. now right.
Qed.

Lemma keys_nil {V} (d : Dict.t V) : Dict.keys d = [] -> d = [].
Proof. destruct d; [reflexivity | discriminate]. Qed.

Lemma validate_sources_ok g : validate_sources g = Ok tt <-> sources_pass g.
Proof.
  unfold validate_sources, sources_pass. split.
  - intro H.
    destruct (check_dead_ends _ _ _) as [node|e] eqn:Hd; simpl in H; [|discriminate].
    split.
    + intros k Hk. apply assemble_sources_spec.
      eapply check_dead_ends_all; eauto.
    + intros Hn x Hx. apply assemble_sources_spec in Hx.
      rewrite Hn in Hd. simpl in Hd. injection Hd as <-.
      rewrite (assemble_sources_unbound g Hn) in H.
      destruct (fst (assemble_sources g)); [destruct Hx | discriminate H].
  - intros [Hall Hnone].
    destruct (check_dead_ends_ok (Dict.keys (nodes g)) (fst (assemble_sources g))
                (snd (assemble_sources g))) as [node Hd].
    { intros k Hk. apply assemble_sources_spec. now apply Hall. }
    rewrite Hd. simpl.
    destruct (nodes g) as [|entry rest] eqn:Hn.
    + assert (Hempty : fst (assemble_sources g) = []).
      { destruct (fst (assemble_sources g)) as [|x l] eqn:Hs; [reflexivity|].
        exfalso. apply (Hnone eq_refl x). apply assemble_sources_spec.
        rewrite Hs. now left. }
      rewrite Hempty. reflexivity.
    + destruct (check_dead_ends_binds _ _ _ _ Hd) as [n [-> Hin]]; [discriminate|].
      apply check_sources_stale. rewrite Hn. now apply mem_keys.
Qed.

Lemma validate_targets_ok g :
  validate_targets g = Ok tt <->
  (forall k, declared g k -> is_target g k) /\
  (forall x, is_target g x -> declared g x \/ x = END).
Proof.
  unfold validate_targets. split.
  - intro H. destruct (assemble_targets g) as [t|e] eqn:Ht; simpl in H; [|discriminate].
    destruct (check_reachable _ t) as [[]|e] eqn:Hr; simpl in H; [|discriminate].
    split.
    + intros k Hk. apply (assemble_targets_spec g t Ht).
      now apply (proj1 (check_reachable_ok _ _) Hr).
    + intros x Hx. apply (proj1 (check_targets_ok g t) H).
      now apply (assemble_targets_spec g t Ht).
  - intros [Hreach Hknown].
    destruct (proj2 (assemble_targets_ok g)) as [t Ht].
    { intros s name b m e Hb Hm He. apply Hknown.
      right. right. left. exists s, name, b, m. auto. }
    rewrite Ht. simpl.
    assert (Hr : check_reachable (Dict.keys (nodes g)) t = Ok tt).
    { apply check_reachable_ok. intros k Hk.
      apply (assemble_targets_spec g t Ht). now apply Hreach. }
    rewrite Hr. simpl. apply check_targets_ok. intros x Hx.
    apply Hknown. now apply (assemble_targets_spec g t Ht).
Qed.

Lemma validate_checks_ok g i :
  validate_checks g i = Ok tt <->
  sources_pass g /\
  (forall k, declared g k -> is_target g k) /\
  (forall x, is_target g x -> declared g x \/ x = END) /\
  (forall l, i = Some l -> forall n, In n l -> declared g n).
Proof.
  unfold validate_checks. split.
  - intro H.
    destruct (validate_sources g) as [[]|e] eqn:Hs; simpl in H; [|discriminate].
    destruct (validate_targets g) as [[]|e] eqn:Ht; simpl in H; [|discriminate].
    apply validate_sources_ok in Hs. apply validate_targets_ok in Ht.
    destruct Ht as [Ht1 Ht2]. repeat split; auto; try apply Hs.
    intros l -> n Hn. simpl in H. now apply (proj1 (check_interrupts_ok g l) H).
  - intros [Hs [Ht1 [Ht2 Hi]]].
    apply validate_sources_ok in Hs. rewrite Hs. simpl.
    rewrite (proj2 (validate_targets_ok g) (conj Ht1 Ht2)). simpl.
    destruct i as [l|]; simpl; [|reflexivity].
    apply check_interrupts_ok. now apply Hi.
Qed.

(** X10: [validate] returns exactly when every declared node is a source
    and a target, every target is a declared node or the terminal
    identifier, every node of the interrupt list is declared and, if no node
    is declared, nothing is a source; it changes nothing of the builder but
    the [compiled] flag, which it sets exactly when it returns. *)
Theorem validate_passes_iff g interrupt :
  (result (validate interrupt g) = Ok tt <->
   sources_pass g /\
   (forall k, declared g k -> is_target g k) /\
   (forall x, is_target g x -> declared g x \/ x = END) /\
   (forall l, interrupt = Some l -> forall n, In n l -> declared g n)) /\
  state (validate interrupt g)
  = (if is_ok (result (validate interrupt g)) then set_compiled g true else g).
Proof.
  rewrite validate_result, validate_state. split; [apply validate_checks_ok | reflexivity].
Qed.

(** X11: when some declared node is no source, [validate] raises the
    dead-end error for the first such node in the order of declaration,
    whatever else is wrong with the graph. *)
Theorem validate_first_dead_end g interrupt pre k post :
  Dict.keys (nodes g) = (pre ++ k :: post)%list ->
  (forall k', In k' pre -> is_source g k') ->
  ~ is_source g k ->
  result (validate interrupt g) = Raise (DeadEnd k).
Proof.
  intros Hkeys Hpre Hk. rewrite validate_result.
  unfold validate_checks, validate_sources. rewrite Hkeys.
  rewrite check_dead_ends_first; [reflexivity | |].
  - intros k' Hk'. apply assemble_sources_spec. now apply Hpre.
  - intro Hc. apply Hk. now apply assemble_sources_spec.
Qed.

(** X12: when the source checks pass and some [ends] mapping has a value
    that is neither a declared node nor the terminal identifier,
    [validate] raises the unknown-branch-target error, naming a source, a
    branch and a value for which that is so. *)
Theorem validate_unknown_branch_target g interrupt s name b m e :
  sources_pass g ->
  has_branch g s name b -> ends b = Some m -> In e (Dict.values m) ->
  ~ declared g e -> e <> END ->
  exists s' name' b' m' e',
    result (validate interrupt g) = Raise (UnknownBranchTarget s' name' e') /\
    has_branch g s' name' b' /\ ends b' = Some m' /\ In e' (Dict.values m') /\
    ~ declared g e' /\ e' <> END.
Proof.
  intros Hs Hb Hm He Hd Hne. rewrite validate_result. unfold validate_checks.
  apply validate_sources_ok in Hs. rewrite Hs. simpl. unfold validate_targets.
  destruct (assemble_targets g) as [t|err] eqn:Ht; simpl.
  - exfalso.
    assert (Hv : ends_valid g) by (apply assemble_targets_ok; eauto).
    destruct (Hv s name b m e Hb Hm He); contradiction.
  - destruct (assemble_targets_raise g err Ht) as [s' [n' [b' [m' [e' [-> H]]]]]].
    exists s', n', b', m', e'. split; [reflexivity | exact H].
Qed.

(** X13: when the source checks pass and every [ends] value is known, but
    some declared node is no target, [validate] raises the not-reachable
    error for the first such node in the order of declaration. *)
Theorem validate_first_unreachable g interrupt pre k post :
  sources_pass g -> ends_valid g ->
  Dict.keys (nodes g) = (pre ++ k :: post)%list ->
  (forall k', In k' pre -> is_target g k') ->
  ~ is_target g k ->
  result (validate interrupt g) = Raise (NotReachable k).
Proof.
  intros Hs Hv Hkeys Hpre Hk. rewrite validate_result. unfold validate_checks.
  apply validate_sources_ok in Hs. rewrite Hs. simpl. unfold validate_targets.
  destruct (proj2 (assemble_targets_ok g) Hv) as [t Ht]. rewrite Ht. simpl.
  rewrite Hkeys, check_reachable_first; [reflexivity | |].
  - intros k' Hk'. apply (assemble_targets_spec g t Ht). now apply Hpre.
  - intro Hc. apply Hk. now apply (assemble_targets_spec g t Ht).
Qed.

(** X14: when the source checks pass and every declared node is a target,
    a target that is neither a declared node nor the terminal identifier
    (an edge into an identifier nobody declared, say) makes [validate] raise
    the unknown-target error for such a target. *)
Theorem validate_unknown_target g interrupt x :
  sources_pass g -> ends_valid g ->
  (forall k, declared g k -> is_target g k) ->
  is_target g x -> ~ declared g x -> x <> END ->
  exists x',
    result (validate interrupt g) = Raise (UnknownTargetNode x') /\
    is_target g x' /\ ~ declared g x' /\ x' <> END.
Proof.
  intros Hs Hv Hreach Hx Hd Hne. rewrite validate_result. unfold validate_checks.
  apply validate_sources_ok in Hs. rewrite Hs. simpl. unfold validate_targets.
  destruct (proj2 (assemble_targets_ok g) Hv) as [t Ht]. rewrite Ht. simpl.
  assert (Hr : check_reachable (Dict.keys (nodes g)) t = Ok tt).
  { apply check_reachable_ok. intros k Hk.
    apply (assemble_targets_spec g t Ht). now apply Hreach. }
  rewrite Hr. simpl.
  destruct (check_targets g t) as [[]|err] eqn:Hc; simpl.
  - exfalso. apply (proj1 (check_targets_ok g t)) with (x := x) in Hc.
    + destruct Hc; contradiction.
    + now apply (assemble_targets_spec g t Ht).
  - destruct (check_targets_raise g t err Hc) as [x' [-> [Hin [Hd' Hne']]]].
    exists x'. repeat split; auto. now apply (assemble_targets_spec g t Ht).
Qed.

(** X15: when the graph itself passes validation, an interrupt list with a
    name that is no declared node makes [validate] raise the
    interrupt-not-found error for the first such name, and the builder is
    not marked compiled. *)
Theorem validate_first_unknown_interrupt g pre n post :
  result (validate None g) = Ok tt ->
  (forall n', In n' pre -> declared g n') ->
  ~ declared g n ->
  result (validate (Some (pre ++ n :: post)%list) g) = Raise (InterruptNotFound n) /\
  state (validate (Some (pre ++ n :: post)%list) g) = g.
Proof.
  rewrite !validate_result, validate_state. unfold validate_checks.
  intros H Hpre Hn.
  destruct (validate_sources g) as [[]|e]; simpl in *; [|discriminate].
  destruct (validate_targets g) as [[]|e]; simpl in *; [|discriminate].
  rewrite check_interrupts_first; auto.
Qed.

(** the first declared node that is no source is reported as a dead end *)
Lemma check_dead_ends_some keys srcs node k :
  In k keys -> ~ In k srcs ->
  exists k', check_dead_ends keys srcs node = Raise (DeadEnd k').
Proof.
  revert node. induction keys as [|k0 keys IH]; intros node Hin Hk; [destruct Hin|].
  simpl. destruct (str_mem k0 srcs) eqn:Hm; simpl; [|eauto].
  destruct Hin as [->|Hin]; [|now apply IH].
  apply str_mem_In in Hm. contradiction.
Qed.

(** C3, as amended: a branch with no [ends] mapping and a [then] node T on
    the source S puts every declared node other than S and T in
    [all_sources], so validation reports none of them as a dead end.  A
    branch with no [then] node adds its own source to [all_sources] and
    nothing else, whatever its [ends]: every member of [all_sources] is the
    source of an edge, the source of a branch, or a destination of a branch
    that has a [then] node.  So, when no branch has a [then] node, a declared
    node that is no source of an edge or of a branch is left out of
    [all_sources], and validation raises the dead-end error. *)
Theorem C3_open_branch_with_then_sources g :
  (forall start name b th n,
     has_branch g start name b ->
     ends b = None ->
     then_ b = Some th ->
     In n (Dict.keys (nodes g)) ->
     n <> start -> n <> th ->
     In n (all_sources g) /\
     forall interrupt, result (validate interrupt g) <> Raise (DeadEnd n)) /\
  (forall start name b acc,
     then_ b = None ->
     fst (sources_of_branch g start acc (name, b)) = str_add start (fst acc)) /\
  (forall x, In x (all_sources g) ->
     (exists e, In (x, e) (edges g)) \/
     (exists name b, has_branch g x name b) \/
     (exists s name b th,
        has_branch g s name b /\ then_ b = Some th /\
        ((exists m, ends b = Some m /\ In x (Dict.values m)) \/
         (ends b = None /\ In x (Dict.keys (nodes g)) /\ x <> s /\ x <> th)))) /\
  (forall n,
     In n (Dict.keys (nodes g)) ->
     (forall e, ~ In (n, e) (edges g)) ->
     (forall name b, ~ has_branch g n name b) ->
     (forall s name b, has_branch g s name b -> then_ b = None) ->
     ~ In n (all_sources g) /\
     exists k, forall interrupt, result (validate interrupt g) = Raise (DeadEnd k)).
Proof.
  assert (Horigin : forall x, In x (all_sources g) ->
     (exists e, In (x, e) (edges g)) \/
     (exists name b, has_branch g x name b) \/
     (exists s name b th,
        has_branch g s name b /\ then_ b = Some th /\
        ((exists m, ends b = Some m /\ In x (Dict.values m)) \/
         (ends b = None /\ In x (Dict.keys (nodes g)) /\ x <> s /\ x <> th)))).
  { intros x Hx. apply assemble_sources_spec in Hx.
    destruct Hx as [H|[H|[H|H]]]; [now left | right; now left | |].
    - destruct H as [s [name [b [th [m [Hb [Ht [He Hin]]]]]]]].
      right. right. exists s, name, b, th. split; [exact Hb|]. split; [exact Ht|].
      left. eauto.
    - destruct H as [s [name [b [th [Hb [Ht [He [Hd [Hs Hth]]]]]]]]].
      right. right. exists s, name, b, th. split; [exact Hb|]. split; [exact Ht|].
      right. auto. }
  split; [|split; [|split; [exact Horigin|]]].
  - intros start name b th n Hb He Ht Hin Hs Hth.
    assert (Hsrc : In n (all_sources g)).
    { apply (all_sources_of_branch g start name b Hb). intro a.
      unfold sources_of_branch; simpl. rewrite Ht, He.
      now apply other_nodes_added. }
    split; [exact Hsrc|].
    intros i. rewrite validate_result. unfold validate_checks.
    destruct (validate_sources g) as [[]|e] eqn:H1; simpl.
    + destruct (validate_targets g) as [[]|e] eqn:H2; simpl.
      * intro H. apply validate_interrupts_raise in H. destruct H as [x H]; discriminate.
      * intro H. injection H as ->. apply validate_targets_raise in H2. exact H2.
    + intro H. injection H as ->.
      apply validate_sources_raise in H1.
      destruct H1 as [[k [Hk [_ Hnot]]] | [H1 | [s H1]]]; try discriminate.
      injection Hk as <-. contradiction.
  - intros start name b acc Ht. unfold sources_of_branch. simpl. now rewrite Ht.
  - intros n Hn Hedge Hsource Hthen.
    assert (Hout : ~ In n (all_sources g)).
    { intro Hx. destruct (Horigin n Hx) as [[e He]|[[name [b Hb]]|H]].
      - exact (Hedge e He).
      - exact (Hsource name b Hb).
      - destruct H as [s [name [b [th [Hb [Ht _]]]]]].
        rewrite (Hthen s name b Hb) in Ht. discriminate. }
    split; [exact Hout|].
    destruct (check_dead_ends_some (Dict.keys (nodes g)) (all_sources g)
                (snd (assemble_sources g)) n Hn Hout) as [k Hk].
    exists k. intro i. rewrite validate_result.
    unfold validate_checks, validate_sources.
    unfold all_sources in Hk. rewrite Hk. reflexivity.
Qed.

End ValidatorOutcome.

Lemma C3_witness :
  In "B" (all_sources (state (build open_then_graph))) /\
  forall interrupt,
    result (validate interrupt (state (build open_then_graph))) <> Raise (DeadEnd "B").
Proof.
  apply (proj1 (C3_open_branch_with_then_sources (state (build open_then_graph)))
           "A" "route" (mkBranch (route_to "B") None (Some "T")) "T" "B").
  - exists [("route", mkBranch (route_to "B") None (Some "T"))].
    split; simpl; left; reflexivity.
  - reflexivity.
  - reflexivity.
  - simpl. right. left. reflexivity.
  - discriminate.
  - discriminate.
Defined.

(** The claim as the specification words it fails: the branch on A has no
    [ends] mapping and no [then] node, B is another declared node, yet
    [all_sources] lacks B and validation reports it as a dead end. *)
Lemma C3_counterexample :
  has_branch (state (build dead_end_graph)) "A" "route" (mkBranch (route_to "B") None None) /\
  In "B" (Dict.keys (nodes (state (build dead_end_graph)))) /\
  "B" <> "A" /\
  ~ In "B" (all_sources (state (build dead_end_graph))) /\
  result (validate None (state (build dead_end_graph))) = Raise (DeadEnd "B").
Proof.
  split.
  { exists [("route", mkBranch (route_to "B") None None)]. split; simpl; left; reflexivity. }
  split; [simpl; right; left; reflexivity|].
  split; [discriminate|].
  split; [|reflexivity].
  intro H. apply str_mem_In in H. vm_compute in H. discriminate.
Qed.

Lemma all_sources_spec_witness : is_source (state (build then_graph)) "B".
Proof.
  apply (proj1 (all_sources_spec (state (build then_graph)) "B")).
  vm_compute. tauto.
Defined.

Lemma all_targets_spec_witness : is_target (state (build then_graph)) "T".
Proof.
  apply (proj1 (proj2 (all_targets_spec (state (build then_graph)))
                  ["S"; END; "T"; "A"; "B"] eq_refl "T")).
  right. right. left. reflexivity.
Defined.

Lemma validate_passes_iff_witness :
  sources_pass (state (build line_graph)) /\
  (forall k, declared (state (build line_graph)) k -> is_target (state (build line_graph)) k) /\
  (forall x, is_target (state (build line_graph)) x ->
             declared (state (build line_graph)) x \/ x = END) /\
  (forall l, @None (list string) = Some l ->
             forall n, In n l -> declared (state (build line_graph)) n).
Proof.
  apply (proj1 (proj1 (validate_passes_iff (state (build line_graph)) None))).
  reflexivity.
Defined.

Lemma validate_first_dead_end_witness :
  result (validate None (state (build isolated_graph))) = Raise (DeadEnd "C").
Proof.
  apply (validate_first_dead_end (state (build isolated_graph)) None ["A"; "B"] "C" []).
  - reflexivity.
  - intros k' Hk'. apply assemble_sources_spec.
    destruct Hk' as [<-|[<-|[]]]; vm_compute; tauto.
  - intro H. apply assemble_sources_spec in H. vm_compute in H.
    repeat (destruct H as [H|H]; [discriminate H|]). exact H.
Defined.

Lemma validate_unknown_branch_target_witness :
  exists s' name' b' m' e',
    result (validate None (state (build bad_ends_graph)))
      = Raise (UnknownBranchTarget s' name' e') /\
    has_branch (state (build bad_ends_graph)) s' name' b' /\
    ends b' = Some m' /\ In e' (Dict.values m') /\
    ~ declared (state (build bad_ends_graph)) e' /\ e' <> END.
Proof.
  apply (validate_unknown_branch_target (state (build bad_ends_graph)) None
           "A" "route"
           (mkBranch (route_to "x") (Some [("x", "nowhere"); ("y", END)]) None)
           [("x", "nowhere"); ("y", END)] "nowhere").
  - apply validate_sources_ok. reflexivity.
  - exists [("route", mkBranch (route_to "x") (Some [("x", "nowhere"); ("y", END)]) None)].
    split; left; reflexivity.
  - reflexivity.
  - left. reflexivity.
  - intros [H|[]]. discriminate H.
  - discriminate.
Defined.

Lemma validate_first_unreachable_witness :
  result (validate None (state (build unreachable_graph))) = Raise (NotReachable "B").
Proof.
  apply (validate_first_unreachable (state (build unreachable_graph)) None ["A"] "B" []).
  - apply validate_sources_ok. reflexivity.
  - intros s name b m e [brs [[] _]].
  - reflexivity.
  - intros k' [<-|[]].
    apply (assemble_targets_spec (state (build unreachable_graph)) ["A"; END] eq_refl).
    left. reflexivity.
  - intro H.
    apply (assemble_targets_spec (state (build unreachable_graph)) ["A"; END] eq_refl) in H.
    destruct H as [H|[H|[]]]; discriminate H.
Defined.

Lemma validate_unknown_target_witness :
  exists x',
    result (validate None (state (build typo_graph))) = Raise (UnknownTargetNode x') /\
    is_target (state (build typo_graph)) x' /\
    ~ declared (state (build typo_graph)) x' /\ x' <> END.
Proof.
  apply (validate_unknown_target (state (build typo_graph)) None "typo").
  - apply validate_sources_ok. reflexivity.
  - intros s name b m e [brs [[] _]].
  - intros k [<-|[]]. left. exists START. left. reflexivity.
  - left. exists "A". right. left. reflexivity.
  - intros [H|[]]. discriminate H.
  - discriminate.
Defined.

Lemma validate_first_unknown_interrupt_witness :
  result (validate (Some ["A"; "Z"; "B"]) (state (build line_graph)))
    = Raise (InterruptNotFound "Z") /\
  state (validate (Some ["A"; "Z"; "B"]) (state (build line_graph)))
    = state (build line_graph).
Proof.
  apply (validate_first_unknown_interrupt (state (build line_graph)) ["A"] "Z" ["B"]).
  - reflexivity.
  - intros n' [<-|[]]. left. reflexivity.
  - intros [H|[H|[]]]; discriminate H.
Defined.

(** * Further properties of the lowering *)

Lemma fold_left_invariant_In {A B} (P : A -> Prop) (f : A -> B -> A) (l : list B) :
  (forall a x, In x l -> P a -> P (f a x)) ->
  forall a, P a -> P (fold_left f l a).
Proof.
  induction l as [|y l IH]; intros Hstep a Ha; simpl; [exact Ha|].
  apply IH.
  - intros a0 x Hx. apply Hstep. now right.
  - apply Hstep; [now left | exact Ha].
Qed.

Section PlanShape.
Context {Value : Type}.
Implicit Types (g : Graph Value) (b : Branch Value) (c : CompiledGraph Value)
  (u : PregelNode Value).

(** a unary property of the units, kept by replacing one of them *)
Lemma units_set (P : string -> PregelNode Value -> Prop) c k u' :
  (forall k0 u0, Dict.get (cg_nodes c) k0 = Some u0 -> P k0 u0) ->
  P k u' ->
  forall k0 u0,
    Dict.get (cg_nodes (with_nodes c (Dict.set (cg_nodes c) k u'))) k0 = Some u0 ->
    P k0 u0.
Proof.
  intros Hc Hu k0 u0. simpl. rewrite get_set.
  destruct (String.eqb_spec k k0) as [->|Hne].
  - intro H. now injection H as <-.
  - apply Hc.
Qed.

(** [lower] is the three attach loops, then the runner's validation *)
Lemma lower_attach_all g ib ia dbg :
  lower g ib ia dbg = rbind (attach_all g ib ia dbg) Pregel_validate.
Proof.
  unfold lower, attach_all. cbv zeta.
  destruct (foldM _ (edges g) _); reflexivity.
Qed.

Lemma lower_attached g ib ia dbg plan :
  lower g ib ia dbg = Ok plan -> attach_all g ib ia dbg = Ok plan.
Proof.
  rewrite lower_attach_all.
  destruct (attach_all g ib ia dbg); simpl; [unfold Pregel_validate; auto | discriminate].
Qed.

Lemma attach_all_stages g ib ia dbg plan :
  attach_all g ib ia dbg = Ok plan ->
  let c1 := fold_left (fun c entry => attach_node c (fst entry) (snd entry))
              (nodes g) (empty_plan ib ia dbg) in
  exists c2,
    foldM (fun c e => attach_edge c (fst e) (snd e)) (edges g) c1 = Ok c2 /\
    foldM (fun c entry =>
             foldM (fun c' item => attach_branch c' (fst entry) (fst item) (snd item))
                   (snd entry) c)
          (branches g) c2 = Ok plan.
Proof.
  intros H c1. unfold attach_all in H. cbv zeta in H. fold c1 in H.
  destruct (foldM _ (edges g) c1) as [c2|e] eqn:H2; simpl in H; [|discriminate].
  exists c2. split; [reflexivity | exact H].
Qed.

Lemma attach_all_invariant (P : CompiledGraph Value -> Prop) g ib ia dbg plan :
  P (empty_plan ib ia dbg) ->
  (forall c k node, In (k, node) (nodes g) -> P c -> P (attach_node c k node)) ->
  (forall c s e c', In (s, e) (edges g) -> P c -> attach_edge c s e = Ok c' -> P c') ->
  (forall c s name b c', has_branch g s name b -> P c ->
     attach_branch c s name b = Ok c' -> P c') ->
  attach_all g ib ia dbg = Ok plan -> P plan.
Proof.
  intros H0 Hn He Hb Hl. destruct (attach_all_stages _ _ _ _ _ Hl) as [c2 [H2 H3]].
  assert (H1 : P (fold_left (fun c entry => attach_node c (fst entry) (snd entry))
                    (nodes g) (empty_plan ib ia dbg))).
  { apply fold_left_invariant_In; [|exact H0].
    intros a [k node] Hin Ha. simpl. now apply Hn. }
  assert (H2' : P c2).
  { revert H2. apply (foldM_invariant_In P); [|exact H1].
    intros a [s e] a' Hin Ha Hstep. simpl in Hstep. eapply He; eauto. }
  revert H3. apply (foldM_invariant_In P); [|exact H2'].
  intros a [s brs] a' Hin Ha. simpl.
  apply (foldM_invariant_In P); [|exact Ha].
  intros a0 [name b] a0' Hin0 Ha0 Hstep. simpl in Hstep.
  eapply Hb; [|exact Ha0|exact Hstep]. exists brs. auto.
Qed.

Lemma lower_invariant (P : CompiledGraph Value -> Prop) g ib ia dbg plan :
  P (empty_plan ib ia dbg) ->
  (forall c k node, In (k, node) (nodes g) -> P c -> P (attach_node c k node)) ->
  (forall c s e c', In (s, e) (edges g) -> P c -> attach_edge c s e = Ok c' -> P c') ->
  (forall c s name b c', has_branch g s name b -> P c ->
     attach_branch c s name b = Ok c' -> P c') ->
  lower g ib ia dbg = Ok plan -> P plan.
Proof.
  intros H0 Hn He Hb Hl. apply lower_attached in Hl.
  exact (attach_all_invariant P g ib ia dbg plan H0 Hn He Hb Hl).
Qed.

Lemma attach_branch_invariant (P : CompiledGraph Value -> Prop) c s name b c' :
  (forall c0, P c0 -> Dict.mem (cg_nodes c0) START = false -> s = START ->
     P (with_nodes c0 (Dict.set (cg_nodes c0) START (subscribe_to START [TAG_HIDDEN])))) ->
  (forall c0 u, P c0 -> Dict.get (cg_nodes c0) s = Some u ->
     P (with_nodes c0 (Dict.set (cg_nodes c0) s (append_writer u (BranchRun b s name))))) ->
  (forall c0 e c1,
     (truthy (ends b) = true -> exists m, ends b = Some m /\ In e (Dict.values m)) ->
     P c0 -> attach_reader s name c0 e = Ok c1 -> P c1) ->
  P c -> attach_branch c s name b = Ok c' -> P c'.
Proof.
  intros Hh Hw Hr Hc. unfold attach_branch.
  set (c0 := if String.eqb s START && negb (Dict.mem (cg_nodes c) s) then _ else c).
  assert (H0 : P c0).
  { unfold c0. destruct (String.eqb_spec s START) as [->|Hs]; simpl; [|exact Hc].
    destruct (Dict.mem (cg_nodes c) START) eqn:Hm; simpl; [exact Hc|].
    now apply Hh. }
  destruct (unit_of c0 s) as [u|e] eqn:Hu; simpl; [|discriminate].
  apply unit_of_ok in Hu.
  apply (foldM_invariant_In P).
  - intros a x a' Hin Ha Hstep. eapply Hr; [|exact Ha|exact Hstep].
    intro Ht. rewrite Ht in Hin. destruct (ends b) as [m|]; [|discriminate Ht].
    exists m. auto.
  - now apply Hw.
Qed.

Lemma well_triggered_set g c k u' :
  well_triggered g c ->
  (channels u' = triggers u' /\ forall t, In t (triggers u') -> trigger_origin g k t) ->
  well_triggered g (with_nodes c (Dict.set (cg_nodes c) k u')).
Proof.
  intros Hc Hu.
  exact (units_set (fun k u => channels u = triggers u /\
                               forall t, In t (triggers u) -> trigger_origin g k t)
           c k u' Hc Hu).
Qed.

Lemma lower_well_triggered g ib ia dbg plan :
  lower g ib ia dbg = Ok plan -> well_triggered g plan.
Proof.
  apply (lower_invariant (well_triggered g)).
  - intros k u H. discriminate H.
  - intros c k node Hin Hc. unfold attach_node.
    apply (well_triggered_set g
             (with_channels c (Dict.set (cg_channels c) k EphemeralValue))).
    + exact Hc.
    + split; [reflexivity | intros t []].
  - intros c s e c' Hin Hc. unfold attach_edge.
    destruct (String.eqb_spec e END) as [->|Hne].
    + destruct (unit_of c s) as [u|err] eqn:Hu; simpl; [|discriminate].
      intro H. injection H as <-. apply unit_of_ok in Hu.
      apply well_triggered_set; [exact Hc|]. exact (Hc s u Hu).
    + destruct (unit_of c e) as [u|err] eqn:Hu; simpl; [|discriminate].
      intro H. injection H as <-. apply unit_of_ok in Hu.
      apply well_triggered_set; [exact Hc|].
      destruct (Hc e u Hu) as [H1 H2]. split; simpl; [now rewrite H1|].
      intros t Ht. apply in_app_or in Ht. destruct Ht as [Ht|[<-|[]]]; [auto|].
      left. auto.
  - intros c s name b c' Hb. apply attach_branch_invariant.
    + intros c0 Hc0 Hm ->. apply well_triggered_set; [exact Hc0|].
      split; [reflexivity|]. intros t [<-|[]]. right. right. eauto.
    + intros c0 u Hc0 Hu. apply well_triggered_set; [exact Hc0|]. exact (Hc0 s u Hu).
    + intros c0 e c1 Hends Hc0. unfold attach_reader.
      destruct (String.eqb_spec e END) as [->|Hne]; simpl.
      * intro H. now injection H as <-.
      * destruct (unit_of _ e) as [u|err] eqn:Hu; simpl; [|discriminate].
        intro H. injection H as <-. apply unit_of_ok in Hu. simpl in Hu.
        apply (well_triggered_set g
                 (with_channels c0 (Dict.set (cg_channels c0) (branch_channel s name e)
                                      EphemeralValue))).
        -- exact Hc0.
        -- destruct (Hc0 e u Hu) as [H1 H2]. split; simpl; [now rewrite H1|].
           intros t Ht. apply in_app_or in Ht. destruct Ht as [Ht|[<-|[]]]; [auto|].
           right. left. exists s, name, b. auto.
Qed.

(** X16: in a compiled plan a unit reads exactly the channels that trigger
    it, and every trigger of the unit of k is the source of an edge into k,
    the dedicated channel of a declared branch that can route to k, or the
    entry channel on the hidden entry unit; nothing else, and nothing that
    depends on a [then] node, ever triggers a unit. *)
Theorem plan_triggers_sound g ib ia dbg plan k u :
  result (compile ib ia dbg g) = Ok plan ->
  Dict.get (cg_nodes plan) k = Some u ->
  channels u = triggers u /\
  forall t, In t (triggers u) -> trigger_origin g k t.
Proof.
  intros Hc Hu. apply compile_lowers in Hc.
  exact (lower_well_triggered _ _ _ _ _ Hc k u Hu).
Qed.

(** the call [attach_edge(s, e)] that [lower] makes for an edge of the
    builder *)
Lemma lower_visits_edge g ib ia dbg plan s e :
  lower g ib ia dbg = Ok plan ->
  In (s, e) (edges g) ->
  exists c c',
    extends (fold_left (fun c entry => attach_node c (fst entry) (snd entry))
               (nodes g) (empty_plan ib ia dbg)) c /\
    attach_edge c s e = Ok c' /\
    extends c' plan.
Proof.
  intros Hl Hin. destruct (lower_stages _ _ _ _ _ Hl) as [c2 [He Hb]].
  destruct (foldM_visit extends (fun c e => attach_edge c (fst e) (snd e))
              extends_refl extends_trans) with (l := edges g) (x := (s, e))
    (a := fold_left (fun c entry => attach_node c (fst entry) (snd entry))
            (nodes g) (empty_plan ib ia dbg)) (r := c2)
    as [a1 [a2 [H1 [Hstep H2]]]]; auto.
  { intros a x a'. apply attach_edge_extends. }
  exists a1, a2. split; [exact H1|]. split; [exact Hstep|].
  eapply extends_trans; [exact H2|].
  revert Hb. apply foldM_mono; [apply extends_refl | apply extends_trans |].
  intros a x a'. apply attach_branches_extends.
Qed.

(** X17: every edge of the builder is lowered: for an edge into the
    terminal identifier the unit of the source holds a writer to the
    terminal channel, and for any other edge the output channel of the
    source is a trigger of the unit of the target. *)
Theorem plan_edges_lowered g ib ia dbg plan s e :
  result (compile ib ia dbg g) = Ok plan ->
  In (s, e) (edges g) ->
  (e = END ->
   exists u, Dict.get (cg_nodes plan) s = Some u /\ In (ChannelWrite [END]) (writers u)) /\
  (e <> END ->
   exists u, Dict.get (cg_nodes plan) e = Some u /\ In s (triggers u)).
Proof.
  intros Hc Hin. apply compile_lowers in Hc.
  destruct (lower_visits_edge _ _ _ _ _ s e Hc Hin) as [c [c' [_ [Hstep Hext]]]].
  simpl in Hin. unfold attach_edge in Hstep. split.
  - intros ->. rewrite String.eqb_refl in Hstep.
    destruct (unit_of c s) as [u|err] eqn:Hu; simpl in Hstep; [|discriminate].
    injection Hstep as <-.
    destruct (proj2 Hext s (append_writer u (ChannelWrite [END]))) as [u' [Hu' [_ [Hw _]]]].
    { simpl. apply get_set_same. }
    exists u'. split; [exact Hu'|]. apply Hw. simpl. apply in_or_app. right. now left.
  - intros Hne. destruct (String.eqb_spec e END); [contradiction|].
    destruct (unit_of c e) as [u|err] eqn:Hu; simpl in Hstep; [|discriminate].
    injection Hstep as <-.
    destruct (proj2 Hext e (append_trigger u s)) as [u' [Hu' [Ht _]]].
    { simpl. apply get_set_same. }
    exists u'. split; [exact Hu'|]. apply Ht. simpl. apply in_or_app. right. now left.
Qed.

(** a branch whose [ends] is a non-empty mapping gets a channel and a
    trigger for every value of the mapping but the terminal identifier *)
Lemma attach_branch_explicit c start name b c' m e :
  attach_branch c start name b = Ok c' ->
  ends b = Some m -> m <> [] -> In e (Dict.values m) -> e <> END ->
  Dict.mem (cg_channels c') (branch_channel start name e) = true /\
  exists u, Dict.get (cg_nodes c') e = Some u /\
            In (branch_channel start name e) (triggers u).
Proof.
  unfold attach_branch.
  set (c0 := if String.eqb start START && negb (Dict.mem (cg_nodes c) start)
             then _ else c).
  destruct (unit_of c0 start) as [u|err] eqn:Hu; simpl; [|discriminate].
  intros H Hm Hne Hin He. rewrite Hm in H.
  destruct m as [|entry m']; [contradiction|]. simpl truthy in H. cbv iota in H.
  set (c1 := with_nodes c0 _) in *.
  assert (Hmono : forall (a : CompiledGraph Value) x a',
                    attach_reader start name a x = Ok a' -> extends a a')
    by (intros a x a'; apply attach_reader_extends).
  destruct (foldM_visit (@extends Value) (attach_reader start name)
              extends_refl extends_trans Hmono (Dict.values (entry :: m')) c1 c' e H Hin)
    as [a1 [a2 [_ [Hstep [Hch Hun]]]]].
  destruct (attach_reader_effect _ _ _ _ _ Hstep He) as [Hc [u2 [Hu2 Ht]]].
  split; [now apply Hch|].
  destruct (Hun e u2 Hu2) as [u3 [Hu3 [Htr _]]].
  exists u3. split; [exact Hu3 | now apply Htr].
Qed.

(** X18: a branch with a non-empty [ends] mapping is lowered for every
    value of the mapping: each value other than the terminal identifier has
    the channel named from (source, branch name, value) in the registry and
    in the trigger list of its unit. *)
Theorem plan_branch_ends_lowered g ib ia dbg plan s name b m e :
  result (compile ib ia dbg g) = Ok plan ->
  has_branch g s name b ->
  ends b = Some m -> m <> [] -> In e (Dict.values m) -> e <> END ->
  Dict.mem (cg_channels plan) (branch_channel s name e) = true /\
  exists u, Dict.get (cg_nodes plan) e = Some u /\
            In (branch_channel s name e) (triggers u).
Proof.
  intros Hc Hb Hm Hne Hin He. apply compile_lowers in Hc.
  destruct (lower_visits_branch _ _ _ _ _ s name b Hc Hb) as [c [c' [_ [H2 H3]]]].
  destruct (attach_branch_explicit _ _ _ _ _ m e H2 Hm Hne Hin He) as [Hch [u [Hu Ht]]].
  split; [now apply (proj1 H3)|].
  destruct (proj2 H3 e u Hu) as [u' [Hu' [Htr _]]].
  exists u'. split; [exact Hu' | now apply Htr].
Qed.

End PlanShape.

Section PlanContents.
Context {Value : Type}.
Implicit Types (g : Graph Value) (b : Branch Value) (c : CompiledGraph Value)
  (u : PregelNode Value).

Lemma unit_of_mem c k u : unit_of c k = Ok u -> Dict.mem (cg_nodes c) k = true.
Proof. intro H. apply unit_of_ok in H. apply mem_get. eauto. Qed.

Lemma mem_set_present {V} (d : Dict.t V) k v k' :
  Dict.mem d k = true -> Dict.mem (Dict.set d k v) k' = Dict.mem d k'.
Proof.
  intro H. rewrite mem_set. destruct (String.eqb_spec k k') as [<-|]; [now rewrite H | reflexivity].
Qed.

Lemma mem_cons {V} (d : Dict.t V) k v k' :
  Dict.mem ((k, v) :: d) k' = String.eqb k k' || Dict.mem d k'.
Proof. unfold Dict.mem. simpl. now destruct (String.eqb k k'). Qed.

Lemma attach_all_registry_sound g ib ia dbg plan :
  attach_all g ib ia dbg = Ok plan -> units_known g plan /\ well_registered g plan.
Proof.
  apply (attach_all_invariant (fun c => units_known g c /\ well_registered g c)).
  - split; [intros k H; discriminate H|].
    intros ch. unfold empty_plan. cbn [cg_channels]. rewrite !mem_cons.
    destruct (String.eqb_spec START ch) as [<-|H1]; [intros _; now left|].
    destruct (String.eqb_spec END ch) as [<-|H2]; [intros _; right; now left|].
    discriminate.
  - intros c k node Hin [Hu Hc].
    assert (Hk : declared g k) by (apply in_map_iff; exists (k, node); auto).
    split.
    + intros k0. unfold attach_node. simpl. rewrite mem_set.
      destruct (String.eqb_spec k k0) as [<-|Hne]; simpl; [|apply Hu].
      intros _. now left.
    + intros ch. unfold attach_node. simpl. rewrite mem_set.
      destruct (String.eqb_spec k ch) as [<-|Hne]; simpl; [|apply Hc].
      intros _. right. right. now left.
  - intros c s e c' Hin [Hu Hc]. unfold attach_edge.
    destruct (String.eqb e END);
      destruct (unit_of c _) as [u|err] eqn:Hun; simpl; try discriminate;
      intro H; injection H as <-; (split; [|exact Hc]); intros k0; simpl;
      rewrite (mem_set_present _ _ _ _ (unit_of_mem _ _ _ Hun)); apply Hu.
  - intros c s name b c' Hb.
    apply (attach_branch_invariant (fun c => units_known g c /\ well_registered g c)).
    + intros c0 [Hu0 Hc0] Hm ->. split; [|exact Hc0].
      intros k0. simpl. rewrite mem_set.
      destruct (String.eqb_spec START k0) as [<-|Hne]; simpl; [|apply Hu0].
      intros _. right. split; [reflexivity|]. eauto.
    + intros c0 u [Hu0 Hc0] Hu. split; [|exact Hc0].
      intros k0. simpl.
      rewrite mem_set_present; [apply Hu0 | apply mem_get; eauto].
    + intros c0 e c1 Hends [Hu0 Hc0]. unfold attach_reader.
      destruct (String.eqb_spec e END) as [->|Hne]; simpl.
      * intro H. now injection H as <-.
      * destruct (unit_of _ e) as [u|err] eqn:Hun; simpl; [|discriminate].
        intro H. injection H as <-.
        apply unit_of_mem in Hun. simpl in Hun. split.
        -- intros k0. simpl. rewrite mem_set_present; [apply Hu0 | exact Hun].
        -- intros ch. simpl. rewrite mem_set.
           destruct (String.eqb_spec (branch_channel s name e) ch) as [<-|Hc]; simpl;
             [|apply Hc0].
           intros _. right. right. right. exists s, name, b, e.
           split; [exact Hb|]. split; [|reflexivity].
           split; [exact Hne|]. split; [exact (Hu0 e Hun) | exact Hends].
Qed.

Lemma lower_registry_sound g ib ia dbg plan :
  lower g ib ia dbg = Ok plan -> units_known g plan /\ well_registered g plan.
Proof. intro Hl. apply lower_attached in Hl. exact (attach_all_registry_sound _ _ _ _ _ Hl). Qed.

Lemma lower_well_registered g ib ia dbg plan :
  lower g ib ia dbg = Ok plan -> well_registered g plan.
Proof. intro Hl. exact (proj2 (lower_registry_sound _ _ _ _ _ Hl)). Qed.

Lemma lower_units_known g ib ia dbg plan :
  lower g ib ia dbg = Ok plan -> units_known g plan.
Proof. intro Hl. exact (proj1 (lower_registry_sound _ _ _ _ _ Hl)). Qed.

Lemma keeps_channels_refl c : keeps_channels c c.
Proof. intros ch H. exact H. Qed.

Lemma keeps_channels_trans c1 c2 c3 :
  keeps_channels c1 c2 -> keeps_channels c2 c3 -> keeps_channels c1 c3.
Proof. intros H1 H2 ch H. auto. Qed.

Lemma attach_node_keeps_channels c k node : keeps_channels c (attach_node c k node).
Proof.
  intros ch H. unfold attach_node. simpl. rewrite mem_set, H. apply orb_true_r.
Qed.

Lemma lower_extends_nodes_stage g ib ia dbg plan :
  lower g ib ia dbg = Ok plan ->
  extends (fold_left (fun c entry => attach_node c (fst entry) (snd entry))
             (nodes g) (empty_plan ib ia dbg)) plan.
Proof.
  intro Hl. destruct (lower_stages _ _ _ _ _ Hl) as [c2 [He Hb]].
  eapply extends_trans; [eapply attach_edges_extends; exact He|].
  revert Hb. apply foldM_mono; [apply extends_refl | apply extends_trans |].
  intros a x a'. apply attach_branches_extends.
Qed.

(** X19: the channel registry of a compiled plan holds the entry channel,
    the terminal channel and the output channel of every declared node,
    and every channel in it is one of those or the dedicated channel of a
    declared branch for one of its destinations: a unit of the plan other
    than the terminal identifier, and a value of [ends] when that is a
    non-empty mapping. *)
Theorem plan_registry g ib ia dbg plan :
  result (compile ib ia dbg g) = Ok plan ->
  Dict.mem (cg_channels plan) START = true /\
  Dict.mem (cg_channels plan) END = true /\
  (forall k, declared g k -> Dict.mem (cg_channels plan) k = true) /\
  (forall ch, Dict.mem (cg_channels plan) ch = true -> channel_origin g ch).
Proof.
  intro Hc. apply compile_lowers in Hc.
  pose proof (proj1 (lower_extends_nodes_stage _ _ _ _ _ Hc)) as Hgrow.
  set (c1 := fold_left _ _ _) in Hgrow.
  assert (H0 : keeps_channels (empty_plan (or_empty ib) (or_empty ia) dbg) c1).
  { apply fold_left_mono; [apply keeps_channels_refl | apply keeps_channels_trans |].
    intros a x. apply attach_node_keeps_channels. }
  split; [apply Hgrow, H0; reflexivity|].
  split; [apply Hgrow, H0; reflexivity|].
  split; [|exact (lower_well_registered _ _ _ _ _ Hc)].
  intros k Hk. apply Hgrow. unfold declared in Hk.
  apply in_map_iff in Hk. destruct Hk as [[k0 node] [Hk0 Hin]]. simpl in Hk0. subst k0.
  destruct (fold_left_visit (@keeps_channels Value)
    (fun c entry => attach_node c (fst entry) (snd entry))
    keeps_channels_refl keeps_channels_trans
    (fun a x => attach_node_keeps_channels a (fst x) (snd x))
    (nodes (set_compiled g true))
    (empty_plan (or_empty ib) (or_empty ia) dbg) (k, node) Hin)
    as [a1 [_ H]].
  apply H. simpl. now rewrite mem_set, String.eqb_refl.
Qed.

Lemma attach_nodes_other (l : Dict.t (NodeRunnable Value)) c k :
  ~ In k (Dict.keys l) ->
  Dict.get (cg_nodes (fold_left (fun c entry => attach_node c (fst entry) (snd entry)) l c)) k
  = Dict.get (cg_nodes c) k.
Proof.
  revert c. induction l as [|[k0 node] l IH]; intros c Hk; simpl; [reflexivity|].
  rewrite IH.
  - simpl. apply get_set_other. intro Heq. apply Hk. left. exact Heq.
  - intro H. apply Hk. now right.
Qed.

Lemma attach_nodes_unit (l : Dict.t (NodeRunnable Value)) c k node :
  NoDup (Dict.keys l) -> In (k, node) l ->
  Dict.get (cg_nodes (fold_left (fun c entry => attach_node c (fst entry) (snd entry)) l c)) k
  = Some (node_unit k node).
Proof.
  revert c. induction l as [|[k0 node0] l IH]; intros c Hnd Hin; [destruct Hin|].
  simpl in Hnd. inversion Hnd as [|? ? Hnotin Hnd']; subst.
  destruct Hin as [Heq|Hin]; simpl.
  - injection Heq as -> ->. rewrite attach_nodes_other; [|exact Hnotin].
    simpl. apply get_set_same.
  - now apply IH.
Qed.

(** X20: the units of a compiled plan are the declared nodes and, when
    some branch sits on the entry identifier, the hidden entry unit, and
    nothing else; the unit of a declared node runs the action declared under
    that key. *)
Theorem plan_units g ib ia dbg plan :
  result (compile ib ia dbg g) = Ok plan ->
  (forall k, Dict.mem (cg_nodes plan) k = true <-> unit_origin g k) /\
  (NoDup (Dict.keys (nodes g)) ->
   forall k node, In (k, node) (nodes g) ->
     exists u, Dict.get (cg_nodes plan) k = Some u /\ bound u = Some node).
Proof.
  intro Hc. apply compile_lowers in Hc.
  pose proof (lower_extends_nodes_stage _ _ _ _ _ Hc) as Hext.
  split.
  - intro k. split; [apply (lower_units_known _ _ _ _ _ Hc)|].
    intros [Hd|[-> [name [b Hb]]]].
    + apply (extends_keeps_units _ _ Hext). now apply attach_nodes_declared.
    + destruct (lower_attaches_writer _ _ _ _ _ START name b Hc Hb) as [u [Hu _]].
      apply mem_get. eauto.
  - intros Hnd k node Hin.
    destruct (proj2 Hext k (node_unit k node)) as [u [Hu [_ [_ Hb]]]].
    { now apply attach_nodes_unit. }
    exists u. split; [exact Hu | exact Hb].
Qed.

Lemma same_frame_refl c : same_frame c c.
Proof. repeat split. Qed.

Lemma same_frame_trans c1 c2 c3 : same_frame c1 c2 -> same_frame c2 c3 -> same_frame c1 c3.
Proof.
  intros [A1 [A2 [A3 [A4 [A5 A6]]]]] [B1 [B2 [B3 [B4 [B5 B6]]]]].
  repeat split; congruence.
Qed.

Lemma attach_edge_frame c s e c' : attach_edge c s e = Ok c' -> same_frame c c'.
Proof.
  unfold attach_edge.
  destruct (String.eqb e END); destruct (unit_of c _); simpl; try discriminate;
    intro H; injection H as <-; repeat split.
Qed.

Lemma attach_reader_frame s name c e c' :
  attach_reader s name c e = Ok c' -> same_frame c c'.
Proof.
  unfold attach_reader.
  destruct (negb _); [|intro H; injection H as <-; apply same_frame_refl].
  destruct (unit_of _ e); simpl; [|discriminate].
  intro H; injection H as <-. repeat split.
Qed.

Lemma attach_branch_frame c s name b c' :
  attach_branch c s name b = Ok c' -> same_frame c c'.
Proof.
  unfold attach_branch.
  set (c0 := if String.eqb s START && negb (Dict.mem (cg_nodes c) s) then _ else c).
  assert (H0 : same_frame c c0).
  { unfold c0. destruct (_ && _); repeat split. }
  destruct (unit_of c0 s) as [u|err]; simpl; [|discriminate].
  intro H. eapply same_frame_trans; [exact H0|].
  apply (foldM_mono (@same_frame Value) (attach_reader s name)
           same_frame_refl same_frame_trans (attach_reader_frame s name)) in H.
  eapply same_frame_trans; [|exact H]. repeat split.
Qed.

Lemma attach_nodes_stream (l : Dict.t (NodeRunnable Value)) c :
  let c1 := fold_left (fun c entry => attach_node c (fst entry) (snd entry)) l c in
  stream_channels c1 = (stream_channels c ++ Dict.keys l)%list /\
  input_channels c1 = input_channels c /\
  output_channels c1 = output_channels c /\
  interrupt_before_nodes c1 = interrupt_before_nodes c /\
  interrupt_after_nodes c1 = interrupt_after_nodes c /\
  debug c1 = debug c.
Proof.
  revert c. induction l as [|[k node] l IH]; intro c; simpl.
  - rewrite app_nil_r. repeat split.
  - destruct (IH (attach_node c k node)) as [H1 [H2 [H3 [H4 [H5 H6]]]]].
    simpl in *. rewrite H1, <- app_assoc. repeat split; assumption.
Qed.

(** X21: a compiled plan reads the entry channel, outputs the terminal
    channel, streams the output channels of the declared nodes in the order
    of their declaration, and carries the interrupt lists and the debug flag
    it was compiled with. *)
Theorem plan_frame g ib ia dbg plan :
  result (compile ib ia dbg g) = Ok plan ->
  input_channels plan = START /\
  output_channels plan = END /\
  stream_channels plan = Dict.keys (nodes g) /\
  interrupt_before_nodes plan = or_empty ib /\
  interrupt_after_nodes plan = or_empty ia /\
  debug plan = dbg.
Proof.
  intro Hc. apply compile_lowers in Hc.
  destruct (lower_stages _ _ _ _ _ Hc) as [c2 [He Hb]].
  set (c1 := fold_left _ _ _) in He.
  assert (H12 : same_frame c1 c2).
  { revert He. apply (foldM_mono (@same_frame Value));
      [apply same_frame_refl | apply same_frame_trans |].
    intros a x a'. apply attach_edge_frame. }
  assert (H23 : same_frame c2 plan).
  { revert Hb. apply (foldM_mono (@same_frame Value));
      [apply same_frame_refl | apply same_frame_trans |].
    intros a x a'. apply (foldM_mono (@same_frame Value));
      [apply same_frame_refl | apply same_frame_trans |].
    intros a0 x0 a0'. apply attach_branch_frame. }
  destruct (same_frame_trans _ _ _ H12 H23) as [A1 [A2 [A3 [A4 [A5 A6]]]]].
  destruct (attach_nodes_stream (nodes (set_compiled g true))
              (empty_plan (or_empty ib) (or_empty ia) dbg)) as [B1 [B2 [B3 [B4 [B5 B6]]]]].
  fold c1 in B1, B2, B3, B4, B5, B6.
  rewrite A1, A2, A3, A4, A5, A6, B1, B2, B3, B4, B5, B6. repeat split.
Qed.

End PlanContents.

Lemma foldM_succeeds_inv {A B} (P : A -> Prop) (step : A -> B -> Result A)
  (valid : B -> Prop) :
  (forall a item, P a -> valid item -> exists a', step a item = Ok a' /\ P a') ->
  forall l a, P a -> (forall item, In item l -> valid item) ->
    exists r, foldM step l a = Ok r /\ P r.
Proof.
  intro Hstep. induction l as [|y l IH]; intros a Ha Hall; simpl; [eauto|].
  destruct (Hstep a y Ha) as [a' [Hy Ha']]; [apply Hall; now left|].
  rewrite Hy. simpl. apply IH; [exact Ha'|]. intros item Hin. apply Hall. now right.
Qed.

Lemma foldM_visit_inv {A B} (P : A -> Prop) (f : A -> B -> Result A) :
  (forall a x a', P a -> f a x = Ok a' -> P a') ->
  forall l a r x, P a -> foldM f l a = Ok r -> In x l ->
    exists a1 a2, P a1 /\ f a1 x = Ok a2.
Proof.
  intro Hstep. induction l as [|y l IH]; intros a r x Ha Hf Hin; [destruct Hin|].
  simpl in Hf. destruct (f a y) as [a'|e] eqn:Hy; simpl in Hf; [|discriminate].
  destruct Hin as [->|Hin]; [exists a, a'; auto|].
  apply (IH a' r x); auto. eapply Hstep; eauto.
Qed.

Lemma foldM_raise_inv {A B} (P : A -> Prop) (Q : Error -> Prop) (f : A -> B -> Result A) :
  (forall a x a', P a -> f a x = Ok a' -> P a') ->
  (forall a x e, P a -> f a x = Raise e -> Q e) ->
  forall l a e, P a -> foldM f l a = Raise e -> Q e.
Proof.
  intros Hok Hraise. induction l as [|y l IH]; intros a e Ha; simpl; [discriminate|].
  destruct (f a y) as [a'|e'] eqn:Hy; simpl.
  - apply IH. eapply Hok; eauto.
  - intro H. injection H as <-. eapply Hraise; eauto.
Qed.

Section CompileOutcome.
Context {Value : Type}.
Implicit Types (g : Graph Value) (b : Branch Value) (c : CompiledGraph Value)
  (u : PregelNode Value).

Lemma units_cover_keeps g c c' : keeps_units c c' -> units_cover g c -> units_cover g c'.
Proof. intros Hk Hc k Hd. apply Hk. now apply Hc. Qed.

Lemma attach_nodes_cover g ib ia dbg :
  units_cover g (fold_left (fun c entry => attach_node c (fst entry) (snd entry))
                   (nodes g) (empty_plan ib ia dbg)).
Proof. intros k Hk. now apply attach_nodes_declared. Qed.

Lemma attach_nodes_only_declared g ib ia dbg :
  units_declared g (fold_left (fun c entry => attach_node c (fst entry) (snd entry))
                      (nodes g) (empty_plan ib ia dbg)).
Proof.
  apply (fold_left_invariant_In (units_declared g)).
  - intros a [k node] Hin Ha k0. unfold attach_node. simpl. rewrite mem_set.
    destruct (String.eqb_spec k k0) as [<-|Hne]; simpl; [|apply Ha].
    intros _. apply in_map_iff. exists (k, node). auto.
  - intros k H. discriminate H.
Qed.

Lemma attach_edge_only_declared g c s e c' :
  units_declared g c -> attach_edge c s e = Ok c' -> units_declared g c'.
Proof.
  intros Hc. unfold attach_edge.
  destruct (String.eqb e END);
    destruct (unit_of c _) as [u|err] eqn:Hu; simpl; try discriminate;
    intro H; injection H as <-; intros k0; simpl;
    rewrite (mem_set_present _ _ _ _ (unit_of_mem _ _ _ Hu)); apply Hc.
Qed.

Lemma attach_edge_ok c s e :
  Dict.mem (cg_nodes c) (if String.eqb e END then s else e) = true ->
  exists c', attach_edge c s e = Ok c'.
Proof.
  unfold attach_edge, unit_of. destruct (String.eqb e END); intro H;
    apply mem_get in H; destruct H as [u Hu]; rewrite Hu; simpl; eauto.
Qed.

Lemma attach_edge_raise g c s e err :
  units_cover g c -> attach_edge c s e = Raise err ->
  exists k, err = KeyError k /\ ~ declared g k.
Proof.
  intros Hc. unfold attach_edge, unit_of.
  destruct (String.eqb e END).
  - destruct (Dict.get (cg_nodes c) s) eqn:Hu; simpl; [discriminate|].
    intro H. injection H as <-. exists s. split; [reflexivity|].
    intro Hd. apply Hc in Hd. unfold Dict.mem in Hd. now rewrite Hu in Hd.
  - destruct (Dict.get (cg_nodes c) e) eqn:Hu; simpl; [discriminate|].
    intro H. injection H as <-. exists e. split; [reflexivity|].
    intro Hd. apply Hc in Hd. unfold Dict.mem in Hd. now rewrite Hu in Hd.
Qed.

Lemma attach_reader_ok s name c e :
  e = END \/ Dict.mem (cg_nodes c) e = true ->
  exists c', attach_reader s name c e = Ok c'.
Proof.
  unfold attach_reader, unit_of. intros [->|H].
  - rewrite String.eqb_refl. simpl. eauto.
  - destruct (negb (String.eqb e END)); [|eauto].
    simpl. apply mem_get in H. destruct H as [u Hu]. rewrite Hu. simpl. eauto.
Qed.

Lemma attach_reader_raise g s name c e err :
  units_cover g c -> attach_reader s name c e = Raise err ->
  exists k, err = KeyError k /\ ~ declared g k.
Proof.
  intros Hc. unfold attach_reader, unit_of.
  destruct (negb (String.eqb e END)); [|discriminate]. simpl.
  destruct (Dict.get (cg_nodes c) e) eqn:Hu; simpl; [discriminate|].
  intro H. injection H as <-. exists e. split; [reflexivity|].
  intro Hd. apply Hc in Hd. unfold Dict.mem in Hd. now rewrite Hu in Hd.
Qed.

Lemma attach_readers_ok s name l c :
  (forall e, In e l -> e = END \/ Dict.mem (cg_nodes c) e = true) ->
  exists c', foldM (attach_reader s name) l c = Ok c'.
Proof.
  intro Hall.
  destruct (foldM_succeeds_inv (keeps_units c) (attach_reader s name)
              (fun e => e = END \/ Dict.mem (cg_nodes c) e = true)) with (l := l) (a := c)
    as [r [Hr _]]; eauto.
  - intros a e Ha [->|Hm].
    + destruct (attach_reader_ok s name a END) as [a' Ha']; [now left|].
      exists a'. split; [exact Ha'|].
      eapply keeps_units_trans; [exact Ha|].
      apply extends_keeps_units. eapply attach_reader_extends; eauto.
    + destruct (attach_reader_ok s name a e) as [a' Ha']; [right; now apply Ha|].
      exists a'. split; [exact Ha'|].
      eapply keeps_units_trans; [exact Ha|].
      apply extends_keeps_units. eapply attach_reader_extends; eauto.
  - apply keeps_units_refl.
Qed.

Lemma attach_branch_ok g c s name b :
  units_cover g c ->
  declared g s \/ s = START ->
  (forall m e, ends b = Some m -> In e (Dict.values m) -> declared g e \/ e = END) ->
  exists c', attach_branch c s name b = Ok c'.
Proof.
  intros Hc Hs Hends. unfold attach_branch.
  pose proof (hidden_start_extends c s) as H0.
  set (c0 := if String.eqb s START && negb (Dict.mem (cg_nodes c) s) then _ else c) in *.
  assert (Hm : Dict.mem (cg_nodes c0) s = true).
  { unfold c0. destruct (String.eqb_spec s START) as [->|Hne]; simpl.
    - destruct (Dict.mem (cg_nodes c) START) eqn:Hm; simpl; [exact Hm|].
      now rewrite mem_set, String.eqb_refl.
    - destruct Hs as [Hd|Hd]; [now apply Hc | contradiction]. }
  unfold unit_of. apply mem_get in Hm. destruct Hm as [u Hu]. rewrite Hu. simpl.
  set (c1 := with_nodes c0 _).
  assert (H1 : extends c c1).
  { eapply extends_trans; [exact H0|].
    eapply extends_set_unit; [exact Hu | apply unit_le_append_writer]. }
  apply attach_readers_ok. intros e He.
  destruct (truthy (ends b)) eqn:Ht.
  - destruct (ends b) as [m|]; [|discriminate Ht].
    destruct (Hends m e eq_refl He) as [Hd| ->]; [|now left].
    right. apply (extends_keeps_units _ _ H1). now apply Hc.
  - right. now apply mem_keys.
Qed.

Lemma attach_branch_raise g c s name b err :
  units_cover g c -> attach_branch c s name b = Raise err ->
  exists k, err = KeyError k /\ ~ declared g k.
Proof.
  intros Hc. unfold attach_branch.
  pose proof (hidden_start_extends c s) as H0.
  set (c0 := if String.eqb s START && negb (Dict.mem (cg_nodes c) s) then _ else c) in *.
  assert (Hc0 : units_cover g c0).
  { eapply units_cover_keeps; [apply extends_keeps_units; exact H0 | exact Hc]. }
  unfold unit_of. destruct (Dict.get (cg_nodes c0) s) as [u|] eqn:Hu; simpl.
  - set (c1 := with_nodes c0 _).
    assert (Hc1 : units_cover g c1).
    { eapply units_cover_keeps; [|exact Hc0]. apply extends_keeps_units.
      eapply extends_set_unit; [exact Hu | apply unit_le_append_writer]. }
    apply (foldM_raise_inv (units_cover g)
             (fun err => exists k, err = KeyError k /\ ~ declared g k)); [| |exact Hc1].
    + intros a x a' Ha Hx. eapply units_cover_keeps; [|exact Ha].
      apply extends_keeps_units. eapply attach_reader_extends; eauto.
    + intros a x e Ha. now apply attach_reader_raise.
  - intro H. injection H as <-. exists s. split; [reflexivity|].
    intro Hd. apply Hc0 in Hd. unfold Dict.mem in Hd. now rewrite Hu in Hd.
Qed.

Lemma attach_branch_cover g c s name b c' :
  units_cover g c -> attach_branch c s name b = Ok c' -> units_cover g c'.
Proof.
  intros Hc H. eapply units_cover_keeps; [|exact Hc].
  apply extends_keeps_units. eapply attach_branch_extends; eauto.
Qed.

Lemma attach_edge_cover g c s e c' :
  units_cover g c -> attach_edge c s e = Ok c' -> units_cover g c'.
Proof.
  intros Hc H. eapply units_cover_keeps; [|exact Hc].
  apply extends_keeps_units. eapply attach_edge_extends; eauto.
Qed.

Lemma attach_all_ok g ib ia dbg :
  (forall s e, In (s, e) (edges g) -> e <> END -> declared g e) ->
  ends_valid g -> lowerable g ->
  exists plan, attach_all g ib ia dbg = Ok plan.
Proof.
  intros Hedges Hends [Hfin Hsrc]. unfold attach_all. cbv zeta.
  set (c1 := fold_left _ (nodes g) _).
  destruct (foldM_succeeds_inv (units_cover g)
              (fun c e => attach_edge c (fst e) (snd e))
              (fun e => In e (edges g))) with (l := edges g) (a := c1)
    as [c2 [H2 Hc2]]; auto.
  { intros a [s e] Ha Hin. simpl.
    destruct (attach_edge_ok a s e) as [a' Ha'].
    - apply Ha. destruct (String.eqb_spec e END) as [->|Hne]; [now apply Hfin|].
      now apply (Hedges s e).
    - exists a'. split; [exact Ha' | eapply attach_edge_cover; eauto]. }
  { apply attach_nodes_cover. }
  rewrite H2. simpl.
  destruct (foldM_succeeds_inv (units_cover g)
              (fun c entry =>
                 foldM (fun c' item => attach_branch c' (fst entry) (fst item) (snd item))
                       (snd entry) c)
              (fun entry => In entry (branches g))) with (l := branches g) (a := c2)
    as [c3 [H3 _]]; auto.
  { intros a [s brs] Ha Hout. simpl.
    apply (foldM_succeeds_inv (units_cover g)
             (fun c' item => attach_branch c' s (fst item) (snd item))
             (fun item => In item brs)); auto.
    intros a0 [name b] Ha0 Hin. simpl.
    assert (Hb : has_branch g s name b) by (exists brs; auto).
    destruct (attach_branch_ok g a0 s name b Ha0) as [a0' Ha0'].
    - now apply (Hsrc s name b).
    - intros m e Hm He. now apply (Hends s name b m e).
    - exists a0'. split; [exact Ha0' | eapply attach_branch_cover; eauto]. }
  eauto.
Qed.

(** the call [attach_branch(start, name, b)] of the third loop, and the
    plan after it *)
Lemma attach_all_visits_branch g ib ia dbg plan start name b :
  attach_all g ib ia dbg = Ok plan ->
  has_branch g start name b ->
  exists c c', attach_branch c start name b = Ok c' /\ extends c' plan.
Proof.
  intros Hl [brs [Hout Hin]].
  destruct (attach_all_stages _ _ _ _ _ Hl) as [c2 [He Hb]].
  destruct (foldM_visit extends
    (fun c entry =>
       foldM (fun c' item => attach_branch c' (fst entry) (fst item) (snd item))
             (snd entry) c)
    extends_refl extends_trans) with (l := branches g) (a := c2) (r := plan)
    (x := (start, brs)) as [a1 [a2 [H1 [Hstep H2]]]]; auto.
  { intros a x a'. apply attach_branches_extends. }
  simpl in Hstep.
  destruct (foldM_visit extends
    (fun c' item => attach_branch c' start (fst item) (snd item))
    extends_refl extends_trans) with (l := brs) (a := a1) (r := a2)
    (x := (name, b)) as [a3 [a4 [H3 [Hstep' H4]]]]; auto.
  { intros a x a'. apply attach_branch_extends. }
  simpl in Hstep'. exists a3, a4. split; [exact Hstep'|].
  eapply extends_trans; eauto.
Qed.

Lemma attach_all_lowerable g ib ia dbg plan :
  attach_all g ib ia dbg = Ok plan -> lowerable g.
Proof.
  intro Hl. split.
  - intros s Hin. destruct (attach_all_stages _ _ _ _ _ Hl) as [c2 [He _]].
    destruct (foldM_visit_inv (units_declared g)
                (fun c e => attach_edge c (fst e) (snd e))) with
      (l := edges g) (x := (s, END)) (r := c2)
      (a := fold_left (fun c entry => attach_node c (fst entry) (snd entry))
              (nodes g) (empty_plan ib ia dbg))
      as [a1 [a2 [Ha1 Hstep]]]; auto.
    + intros a x a' Ha. now apply attach_edge_only_declared.
    + apply attach_nodes_only_declared.
    + simpl in Hstep. unfold attach_edge in Hstep. rewrite String.eqb_refl in Hstep.
      destruct (unit_of a1 s) as [u|err] eqn:Hu; simpl in Hstep; [|discriminate].
      apply Ha1. exact (unit_of_mem _ _ _ Hu).
  - intros s name b Hb.
    destruct (attach_all_visits_branch _ _ _ _ _ s name b Hl Hb) as [c [c' [H2 H3]]].
    destruct (attach_branch_writer _ _ _ _ _ H2) as [u [Hu _]].
    destruct (proj2 H3 s u Hu) as [u' [Hu' _]].
    destruct (proj1 (attach_all_registry_sound _ _ _ _ _ Hl) s) as [Hd|[-> _]]; auto.
    apply mem_get. eauto.
Qed.

Lemma attach_all_raise g ib ia dbg err :
  attach_all g ib ia dbg = Raise err -> exists k, err = KeyError k /\ ~ declared g k.
Proof.
  unfold attach_all. cbv zeta.
  set (c1 := fold_left _ (nodes g) _).
  set (Q := fun err => exists k, err = KeyError k /\ ~ declared g k).
  destruct (foldM _ (edges g) c1) as [c2|e2] eqn:H2; simpl.
  - assert (Hc2 : units_cover g c2).
    { revert H2. apply (foldM_invariant (units_cover g)); [|apply attach_nodes_cover].
      intros a x a' Ha. now apply attach_edge_cover. }
    apply (foldM_raise_inv (units_cover g) Q); [| |exact Hc2].
    + intros a [s brs] a' Ha. simpl. apply (foldM_invariant (units_cover g)); [|exact Ha].
      intros a0 [name b] a0' Ha0. simpl. now apply attach_branch_cover.
    + intros a [s brs] e Ha. simpl.
      apply (foldM_raise_inv (units_cover g) Q); [| |exact Ha].
      * intros a0 [name b] a0' Ha0. simpl. now apply attach_branch_cover.
      * intros a0 [name b] e0 Ha0. simpl. now apply attach_branch_raise.
  - intro H. injection H as <-. revert H2.
    apply (foldM_raise_inv (units_cover g) Q); [| |apply attach_nodes_cover].
    + intros a x a' Ha. now apply attach_edge_cover.
    + intros a x e Ha. now apply attach_edge_raise.
Qed.

(** X22: once validation has passed, the three attach loops of [compile]
    run to their end exactly when every edge into the terminal identifier
    starts at a declared node and every branch sits on a declared node or on
    the entry identifier; so [compile] can return a plan only then. *)
Theorem attach_loops_complete_iff g ib ia dbg :
  result (validate (Some (or_empty ib ++ or_empty ia)%list) g) = Ok tt ->
  ((exists c, attach_all g (or_empty ib) (or_empty ia) dbg = Ok c) <-> lowerable g) /\
  ((exists plan, result (compile ib ia dbg g) = Ok plan) -> lowerable g).
Proof.
  rewrite validate_result. intro Hv.
  apply validate_checks_ok in Hv. destruct Hv as [_ [_ [Hknown _]]].
  split; [split|].
  - intros [c Hl]. apply attach_all_lowerable in Hl. exact Hl.
  - intro Hlow. apply attach_all_ok; [| |exact Hlow].
    + intros s e Hin Hne. destruct (Hknown e) as [Hd|Hd]; [|exact Hd|contradiction].
      left. eauto.
    + intros s name b m e Hb Hm He. apply Hknown.
      right. right. left. exists s, name, b, m. auto.
  - intros [plan Hc]. apply compile_lowers in Hc. rewrite lower_attach_all in Hc.
    destruct (attach_all (set_compiled g true) (or_empty ib) (or_empty ia) dbg)
      as [c|e] eqn:Hl; [|discriminate Hc].
    exact (attach_all_lowerable (set_compiled g true) _ _ _ _ Hl).
Qed.

(** X23: when validation raises, [compile] raises that exception and
    leaves the builder untouched; when validation passes and one of the
    attach loops raises, [compile] raises that exception, which is a
    [KeyError] for an identifier that is no declared node, and the builder is
    left marked compiled all the same. *)
Theorem attach_loops_raise g ib ia dbg :
  (forall err,
     result (validate (Some (or_empty ib ++ or_empty ia)%list) g) = Raise err ->
     result (compile ib ia dbg g) = Raise err /\
     state (compile ib ia dbg g) = g) /\
  (forall err,
     result (validate (Some (or_empty ib ++ or_empty ia)%list) g) = Ok tt ->
     attach_all g (or_empty ib) (or_empty ia) dbg = Raise err ->
     result (compile ib ia dbg g) = Raise err /\
     state (compile ib ia dbg g) = set_compiled g true /\
     exists k, err = KeyError k /\ ~ declared g k).
Proof.
  split; intros err; rewrite validate_result, compile_result, compile_state.
  - intro Hv. rewrite Hv. split; reflexivity.
  - intros Hv Hl. rewrite Hv. simpl. rewrite lower_attach_all.
    change (attach_all (set_compiled g true) (or_empty ib) (or_empty ia) dbg)
      with (attach_all g (or_empty ib) (or_empty ia) dbg).
    rewrite Hl. split; [reflexivity|]. split; [reflexivity|].
    exact (attach_all_raise _ _ _ _ _ Hl).
Qed.

Lemma check_sources_set_compiled g flag iter node :
  check_sources (set_compiled g flag) iter node = check_sources g iter node.
Proof.
  induction iter as [|s iter IH]; simpl; [reflexivity|].
  destruct node as [n|]; [|reflexivity].
  destruct (negb _ && negb _); [reflexivity | exact IH].
Qed.

Lemma check_targets_set_compiled g flag iter :
  check_targets (set_compiled g flag) iter = check_targets g iter.
Proof.
  induction iter as [|s iter IH]; simpl; [reflexivity|].
  destruct (negb _ && negb _); [reflexivity | exact IH].
Qed.

Lemma check_interrupts_set_compiled g flag iter :
  check_interrupts (set_compiled g flag) iter = check_interrupts g iter.
Proof.
  induction iter as [|s iter IH]; simpl; [reflexivity|].
  destruct (negb _); [reflexivity | exact IH].
Qed.

Lemma validate_checks_set_compiled g flag i :
  validate_checks (set_compiled g flag) i = validate_checks g i.
Proof.
  unfold validate_checks, validate_sources, validate_targets, validate_interrupts.
  change (assemble_sources (set_compiled g flag)) with (assemble_sources g).
  change (assemble_targets (set_compiled g flag)) with (assemble_targets g).
  simpl nodes.
  destruct (check_dead_ends _ _ _); simpl; [|reflexivity].
  rewrite check_sources_set_compiled.
  destruct (check_sources _ _ _); simpl; [|reflexivity].
  destruct (assemble_targets g); simpl; [|reflexivity].
  destruct (check_reachable _ _); simpl; [|reflexivity].
  rewrite check_targets_set_compiled.
  destruct (check_targets _ _); simpl; [|reflexivity].
  destruct i; [apply check_interrupts_set_compiled | reflexivity].
Qed.

(** X24: compiling is repeatable: a second [compile] of the same builder
    with the same arguments returns the same plan, or raises the same
    exception, as the first, and logs no warning. *)
Theorem compile_twice g ib ia dbg :
  result (compile ib ia dbg (state (compile ib ia dbg g))) = result (compile ib ia dbg g) /\
  logged (compile ib ia dbg (state (compile ib ia dbg g))) = [].
Proof.
  split.
  - rewrite !compile_result, compile_state.
    destruct (validate_checks g _) as [[]|e] eqn:Hv; simpl.
    + rewrite validate_checks_set_compiled, Hv. reflexivity.
    + rewrite Hv. reflexivity.
  - unfold compile, bind, gets, lift. cbv beta zeta.
    pose proof (validate_logged (Some (or_empty ib ++ or_empty ia)%list)
                  (state (compile ib ia dbg g))) as Hl.
    destruct (validate _ _) as [s1 l1 r1]. simpl in Hl. subst l1.
    destruct r1; reflexivity.
Qed.

End CompileOutcome.

(** * Further properties of the routing *)




Lemma string_app_assoc (a b c : string) :
  ((a ++ b) ++ c)%string = (a ++ (b ++ c))%string.
Proof. induction a as [|ch a IH]; simpl; [reflexivity | now rewrite IH]. Qed.

Lemma has_colon_split (a a' r r' : string) :
  has_colon a = false -> has_colon a' = false ->
  (a ++ ":" ++ r)%string = (a' ++ ":" ++ r')%string -> a = a' /\ r = r'.
Proof.
  revert a'. induction a as [|ch a IH]; intros [|ch' a'] Ha Ha' H; simpl in *.
  - injection H as ->. auto.
  - injection H as <- _. rewrite Ascii.eqb_refl in Ha'. discriminate.
  - injection H as -> _. rewrite Ascii.eqb_refl in Ha. discriminate.
  - injection H as <- H.
    apply orb_false_iff in Ha, Ha'. destruct Ha as [_ Ha]. destruct Ha' as [_ Ha'].
    destruct (IH a' Ha Ha' H) as [-> ->]. auto.
Qed.

Section RoutingExtras.
Context {Value : Type}.
Implicit Types (g : Graph Value) (b : Branch Value) (c : CompiledGraph Value).



(** X26: for a branch whose [ends] is missing or empty, a run of its
    writer stage never raises: the labels returned by the routing function
    are taken for destinations, and every label that is a declared node gets
    a write to a registered channel that triggers the unit of that node. *)
Theorem open_routing_writes_labels g ib ia dbg plan s name b input :
  result (compile ib ia dbg g) = Ok plan ->
  has_branch g s name b ->
  truthy (ends b) = false ->
  run_writer (BranchRun b s name) input
    = Ok (branch_writer s name (normalise (path_invoke (path b) input))) /\
  forall label,
    In label (normalise (path_invoke (path b) input)) ->
    declared g label -> label <> END ->
    In (branch_channel s name label)
       (branch_writer s name (normalise (path_invoke (path b) input))) /\
    Dict.mem (cg_channels plan) (branch_channel s name label) = true /\
    exists u, Dict.get (cg_nodes plan) label = Some u /\
              In (branch_channel s name label) (triggers u).
Proof.
  intros Hc Hb Ht. apply compile_lowers in Hc. split.
  - simpl. unfold _route. rewrite Ht. reflexivity.
  - intros label Hin Hd Hne.
    destruct (lower_visits_branch _ _ _ _ _ s name b Hc Hb) as [c [c' [H1 [H2 H3]]]].
    destruct (attach_branch_open _ _ _ _ _ H2 Ht label) as [Hreg [u [Hu Htr]]].
    { apply (extends_keeps_units _ _ H1). now apply attach_nodes_declared. }
    { exact Hne. }
    split; [|split].
    + unfold branch_writer. apply in_map_iff. exists label. split; [|exact Hin].
      destruct (String.eqb_spec label END); [contradiction | reflexivity].
    + now apply (proj1 H3).
    + destruct (proj2 H3 label u Hu) as [u' [Hu' [Htr' _]]].
      exists u'. split; [exact Hu' | now apply Htr'].
Qed.

End RoutingExtras.

(** X27: the channel of a branch destination determines the destination;
    it determines the source and the branch name as well when neither
    contains a colon, and otherwise not: moving a colon-separated part from
    the source to the branch name gives the same channel names. *)
Theorem branch_channel_names :
  (forall s n e e', branch_channel s n e = branch_channel s n e' -> e = e') /\
  (forall s n e s' n' e',
     has_colon s = false -> has_colon n = false ->
     has_colon s' = false -> has_colon n' = false ->
     branch_channel s n e = branch_channel s' n' e' ->
     s = s' /\ n = n' /\ e = e') /\
  (forall s n m e,
     branch_channel (s ++ ":" ++ n) m e = branch_channel s (n ++ ":" ++ m) e).
Proof.
  split; [|split].
  - apply branch_channel_inj.
  - intros s n e s' n' e' Hs Hn Hs' Hn' H. unfold branch_channel in H.
    apply append_cancel in H.
    destruct (has_colon_split s s' _ _ Hs Hs' H) as [-> H1].
    destruct (has_colon_split n n' _ _ Hn Hn' H1) as [-> ->]. auto.
  - intros s n m e. unfold branch_channel.
    rewrite !string_app_assoc. reflexivity.
Qed.

(** * The further properties on the example graphs *)

Lemma plan_triggers_sound_witness :
  exists plan u,
    result (compile None None false (state (build then_graph))) = Ok plan /\
    Dict.get (cg_nodes plan) "A" = Some u /\
    channels u = triggers u /\
    forall t, In t (triggers u) -> trigger_origin (state (build then_graph)) "A" t.
Proof.
  destruct (result (compile None None false (state (build then_graph))))
    as [plan|e] eqn:Hc.
  - destruct (Dict.get (cg_nodes plan) "A") as [u|] eqn:Hu.
    + exists plan, u. split; [reflexivity|]. split; [exact Hu|].
      exact (plan_triggers_sound (state (build then_graph)) None None false plan "A" u Hc Hu).
    + exfalso. vm_compute in Hc. injection Hc as <-. vm_compute in Hu. discriminate Hu.
  - exfalso. vm_compute in Hc. discriminate Hc.
Defined.

Lemma plan_edges_lowered_witness :
  exists plan,
    result (compile None None false (state (build line_graph))) = Ok plan /\
    exists u, Dict.get (cg_nodes plan) "B" = Some u /\ In "A" (triggers u).
Proof.
  destruct (result (compile None None false (state (build line_graph))))
    as [plan|e] eqn:Hc.
  - exists plan. split; [reflexivity|].
    apply (proj2 (plan_edges_lowered (state (build line_graph)) None None false plan
                    "A" "B" Hc (or_intror (or_introl eq_refl)))).
    discriminate.
  - exfalso. vm_compute in Hc. discriminate Hc.
Defined.

Lemma plan_branch_ends_lowered_witness :
  exists plan,
    result (compile None None false (state (build xy_graph))) = Ok plan /\
    Dict.mem (cg_channels plan) (branch_channel "S" "route" "A") = true /\
    exists u, Dict.get (cg_nodes plan) "A" = Some u /\
              In (branch_channel "S" "route" "A") (triggers u).
Proof.
  destruct (result (compile None None false (state (build xy_graph))))
    as [plan|e] eqn:Hc.
  - exists plan. split; [reflexivity|].
    apply (plan_branch_ends_lowered (state (build xy_graph)) None None false plan
             "S" "route" (xy_branch "x") [("x", "A"); ("y", "B")] "A" Hc).
    + exists [("route", xy_branch "x")]. split; left; reflexivity.
    + reflexivity.
    + discriminate.
    + left. reflexivity.
    + discriminate.
  - exfalso. vm_compute in Hc. discriminate Hc.
Defined.

Lemma plan_registry_witness :
  exists plan,
    result (compile None None false (state (build xy_graph))) = Ok plan /\
    Dict.mem (cg_channels plan) START = true /\
    Dict.mem (cg_channels plan) END = true /\
    (forall k, declared (state (build xy_graph)) k -> Dict.mem (cg_channels plan) k = true) /\
    (forall ch, Dict.mem (cg_channels plan) ch = true ->
                channel_origin (state (build xy_graph)) ch).
Proof.
  destruct (result (compile None None false (state (build xy_graph))))
    as [plan|e] eqn:Hc.
  - exists plan. split; [reflexivity|].
    exact (plan_registry (state (build xy_graph)) None None false plan Hc).
  - exfalso. vm_compute in Hc. discriminate Hc.
Defined.

Lemma plan_units_witness :
  exists plan,
    result (compile None None false (state (build two_finish_graph))) = Ok plan /\
    Dict.mem (cg_nodes plan) START = true /\
    exists u, Dict.get (cg_nodes plan) "B" = Some u /\
              bound u = Some (mkNodeRunnable "B" noop).
Proof.
  destruct (result (compile None None false (state (build two_finish_graph))))
    as [plan|e] eqn:Hc.
  - exists plan. split; [reflexivity|].
    destruct (plan_units (state (build two_finish_graph)) None None false plan Hc)
      as [Hunits Hbound].
    split.
    + apply Hunits. right. split; [reflexivity|].
      exists "route", (mkBranch (route_to "b") (Some [("b", "B")]) None).
      exists [("route", mkBranch (route_to "b") (Some [("b", "B")]) None)].
      split; left; reflexivity.
    + apply Hbound.
      * repeat constructor; simpl; intuition discriminate.
      * right. left. reflexivity.
  - exfalso. vm_compute in Hc. discriminate Hc.
Defined.

Lemma plan_frame_witness :
  exists plan,
    result (compile (Some ["A"]) None true (state (build line_graph))) = Ok plan /\
    input_channels plan = START /\
    output_channels plan = END /\
    stream_channels plan = ["A"; "B"] /\
    interrupt_before_nodes plan = ["A"] /\
    interrupt_after_nodes plan = [] /\
    debug plan = true.
Proof.
  destruct (result (compile (Some ["A"]) None true (state (build line_graph))))
    as [plan|e] eqn:Hc.
  - exists plan. split; [reflexivity|].
    exact (plan_frame (state (build line_graph)) (Some ["A"]) None true plan Hc).
  - exfalso. vm_compute in Hc. discriminate Hc.
Defined.

Lemma attach_loops_complete_iff_witness :
  ((exists c, attach_all (state (build line_graph)) [] [] false = Ok c)
   <-> lowerable (state (build line_graph))) /\
  ((exists plan, result (compile None None false (state (build line_graph))) = Ok plan)
   -> lowerable (state (build line_graph))).
Proof.
  apply (attach_loops_complete_iff (state (build line_graph)) None None false).
  reflexivity.
Defined.

(** validation passes, yet the edge from the entry to the terminal
    identifier cannot be lowered: its source has no unit *)
Lemma attach_loops_raise_witness :
  result (compile None None false (state (build entry_to_end_graph)))
    = Raise (KeyError START) /\
  state (compile None None false (state (build entry_to_end_graph)))
    = set_compiled (state (build entry_to_end_graph)) true /\
  exists k, KeyError START = KeyError k /\ ~ declared (state (build entry_to_end_graph)) k.
Proof.
  apply (proj2 (attach_loops_raise (state (build entry_to_end_graph)) None None false)
           (KeyError START)).
  - vm_compute. reflexivity.
  - vm_compute. reflexivity.
Defined.


Lemma open_routing_writes_labels_witness :
  exists plan,
    result (compile None None false (state (build open_branch_graph))) = Ok plan /\
    run_writer (BranchRun (mkBranch (route_to "B") None None) "A" "route") "input"
      = Ok [branch_channel "A" "route" "B"] /\
    exists u, Dict.get (cg_nodes plan) "B" = Some u /\
              In (branch_channel "A" "route" "B") (triggers u).
Proof.
  destruct (result (compile None None false (state (build open_branch_graph))))
    as [plan|e] eqn:Hc.
  - exists plan. split; [reflexivity|].
    destruct (open_routing_writes_labels (state (build open_branch_graph)) None None false
                plan "A" "route" (mkBranch (route_to "B") None None) "input" Hc)
      as [Hrun Hlabels].
    + exists [("route", mkBranch (route_to "B") None None)]. split; left; reflexivity.
    + reflexivity.
    + split; [exact Hrun|].
      apply (Hlabels "B").
      * left. reflexivity.
      * right. left. reflexivity.
      * discriminate.
  - exfalso. vm_compute in Hc. discriminate Hc.
Defined.

Lemma branch_channel_names_witness :
  has_colon "S" = false /\ has_colon "route" = false /\
  branch_channel "S" "route" "A" = "branch:S:route:A" /\
  ("S" = "S" /\ "route" = "route" /\ "A" = "A").
Proof.
  split; [reflexivity|]. split; [reflexivity|]. split; [reflexivity|].
  apply (proj1 (proj2 branch_channel_names) "S" "route" "A" "S" "route" "A");
    reflexivity.
Defined.

Section PlanAccounting.
Context {Value : Type}.
Implicit Types (g : Graph Value) (b : Branch Value) (c : CompiledGraph Value)
  (u : PregelNode Value).

Lemma triggers_accounted_set g c k u' :
  triggers_accounted g c ->
  (forall t, In t (triggers u') -> Dict.mem (cg_channels c) t = true \/ In (t, k) (edges g)) ->
  triggers_accounted g (with_nodes c (Dict.set (cg_nodes c) k u')).
Proof.
  intros [H0 Hc] Hu. split; [exact H0|].
  intros k0 u0 t. simpl. rewrite get_set.
  destruct (String.eqb_spec k k0) as [<-|Hne].
  - intro H. injection H as <-. apply Hu.
  - apply Hc.
Qed.

Lemma triggers_accounted_channel g c ch :
  triggers_accounted g c ->
  triggers_accounted g (with_channels c (Dict.set (cg_channels c) ch EphemeralValue)).
Proof.
  intros [H0 Hc]. split; simpl.
  - rewrite mem_set, H0. apply orb_true_r.
  - intros k u t Hu Ht. destruct (Hc k u t Hu Ht) as [H|H]; [|now right].
    left. rewrite mem_set, H. apply orb_true_r.
Qed.

Lemma lower_triggers_accounted g ib ia dbg plan :
  lower g ib ia dbg = Ok plan -> triggers_accounted g plan.
Proof.
  apply (lower_invariant (triggers_accounted g)).
  - split; [reflexivity | intros k u t H; discriminate H].
  - intros c k node Hin Hc. unfold attach_node.
    apply (triggers_accounted_channel g c k) in Hc.
    apply (triggers_accounted_set g _ k (node_unit k node)) in Hc; [exact Hc|].
    intros t [].
  - intros c s e c' Hin Hc. unfold attach_edge.
    destruct (String.eqb_spec e END) as [->|Hne].
    + destruct (unit_of c s) as [u|err] eqn:Hu; simpl; [|discriminate].
      intro H. injection H as <-. apply unit_of_ok in Hu.
      apply triggers_accounted_set; [exact Hc|].
      intros t. exact (proj2 Hc s u t Hu).
    + destruct (unit_of c e) as [u|err] eqn:Hu; simpl; [|discriminate].
      intro H. injection H as <-. apply unit_of_ok in Hu.
      apply triggers_accounted_set; [exact Hc|].
      intros t Ht. simpl in Ht. apply in_app_or in Ht.
      destruct Ht as [Ht|[<-|[]]]; [exact (proj2 Hc e u t Hu Ht) | now right].
  - intros c s name b c' Hb. apply attach_branch_invariant.
    + intros c0 Hc0 Hm ->. apply triggers_accounted_set; [exact Hc0|].
      intros t [<-|[]]. left. exact (proj1 Hc0).
    + intros c0 u Hc0 Hu. apply triggers_accounted_set; [exact Hc0|].
      intros t. exact (proj2 Hc0 s u t Hu).
    + intros c0 e c1 _ Hc0. unfold attach_reader.
      destruct (String.eqb_spec e END) as [->|Hne]; simpl.
      * intro H. now injection H as <-.
      * destruct (unit_of _ e) as [u|err] eqn:Hu; simpl; [|discriminate].
        intro H. injection H as <-. apply unit_of_ok in Hu.
        apply (triggers_accounted_channel g c0 (branch_channel s name e)) in Hc0.
        apply (triggers_accounted_set g
                 (with_channels c0 (Dict.set (cg_channels c0) (branch_channel s name e)
                                      EphemeralValue))
                 e (append_trigger u (branch_channel s name e)));
          [exact Hc0|].
        intros t Ht. simpl in Ht. apply in_app_or in Ht.
        destruct Ht as [Ht|[<-|[]]]; [exact (proj2 Hc0 e u t Hu Ht)|].
        left. simpl. now rewrite mem_set, String.eqb_refl.
Qed.

Lemma lower_registers_nodes g ib ia dbg plan k :
  lower g ib ia dbg = Ok plan -> declared g k -> Dict.mem (cg_channels plan) k = true.
Proof.
  intros Hl Hk.
  apply (proj1 (lower_extends_nodes_stage _ _ _ _ _ Hl)).
  apply in_map_iff in Hk. destruct Hk as [[k0 node] [Hk0 Hin]]. simpl in Hk0. subst k0.
  destruct (fold_left_visit (@keeps_channels Value)
    (fun c entry => attach_node c (fst entry) (snd entry))
    keeps_channels_refl keeps_channels_trans
    (fun a x => attach_node_keeps_channels a (fst x) (snd x))
    (nodes g) (empty_plan ib ia dbg) (k, node) Hin)
    as [a1 [_ H]].
  apply H. simpl. now rewrite mem_set, String.eqb_refl.
Qed.

(** X28: in a compiled plan every trigger of a unit is a channel of the
    registry, unless it is the source of an edge into that unit's node that
    is neither a declared node nor the entry identifier. *)
Theorem plan_triggers_registered g ib ia dbg plan k u t :
  result (compile ib ia dbg g) = Ok plan ->
  Dict.get (cg_nodes plan) k = Some u ->
  In t (triggers u) ->
  Dict.mem (cg_channels plan) t = true \/
  (In (t, k) (edges g) /\ ~ declared g t /\ t <> START).
Proof.
  intros Hc Hu Ht. apply compile_lowers in Hc.
  destruct (proj2 (lower_triggers_accounted _ _ _ _ _ Hc) k u t Hu Ht) as [H|H];
    [now left|].
  destruct (Dict.mem (nodes g) t) eqn:Hm.
  - left. apply (lower_registers_nodes (set_compiled g true) _ _ _ plan t Hc).
    now apply mem_keys.
  - destruct (String.eqb_spec t START) as [->|Hne].
    + left. exact (proj1 (lower_triggers_accounted _ _ _ _ _ Hc)).
    + right. repeat split; auto. intro Hd. apply mem_keys in Hd. congruence.
Qed.

Lemma terminal_writers_set g c k u' :
  terminal_writers_from_edges g c ->
  (In (ChannelWrite [END]) (writers u') -> k = END \/ In (k, END) (edges g)) ->
  terminal_writers_from_edges g (with_nodes c (Dict.set (cg_nodes c) k u')).
Proof.
  intros Hc Hu k0 u0. simpl. rewrite get_set.
  destruct (String.eqb_spec k k0) as [<-|Hne].
  - intro H. injection H as <-. exact Hu.
  - apply Hc.
Qed.

Lemma lower_terminal_writers g ib ia dbg plan :
  lower g ib ia dbg = Ok plan -> terminal_writers_from_edges g plan.
Proof.
  apply (lower_invariant (terminal_writers_from_edges g)).
  - intros k u H. discriminate H.
  - intros c k node Hin Hc. unfold attach_node.
    apply (terminal_writers_set g
             (with_channels c (Dict.set (cg_channels c) k EphemeralValue)));
      [exact Hc|].
    intros [H|[]]. injection H as ->. now left.
  - intros c s e c' Hin Hc. unfold attach_edge.
    destruct (String.eqb_spec e END) as [->|Hne].
    + destruct (unit_of c s) as [u|err] eqn:Hu; simpl; [|discriminate].
      intro H. injection H as <-. apply terminal_writers_set; [exact Hc|].
      intros _. now right.
    + destruct (unit_of c e) as [u|err] eqn:Hu; simpl; [|discriminate].
      intro H. injection H as <-. apply unit_of_ok in Hu.
      apply terminal_writers_set; [exact Hc|]. exact (Hc e u Hu).
  - intros c s name b c' Hb. apply attach_branch_invariant.
    + intros c0 Hc0 Hm ->. apply terminal_writers_set; [exact Hc0|]. intros [].
    + intros c0 u Hc0 Hu. apply terminal_writers_set; [exact Hc0|].
      simpl. intro H. apply in_app_or in H.
      destruct H as [H|[H|[]]]; [exact (Hc0 s u Hu H) | discriminate H].
    + intros c0 e c1 _ Hc0. unfold attach_reader.
      destruct (negb (String.eqb e END)).
      * destruct (unit_of _ e) as [u|err] eqn:Hu; simpl; [|discriminate].
        intro H. injection H as <-. apply unit_of_ok in Hu.
        apply (terminal_writers_set g
                 (with_channels c0 (Dict.set (cg_channels c0) (branch_channel s name e)
                                      EphemeralValue)));
          [exact Hc0|]. exact (Hc0 e u Hu).
      * intro H. now injection H as <-.
Qed.

(** X29: in a compiled plan the unit of a node holds a fixed writer to the
    terminal channel exactly when the builder has an edge from that node to
    the terminal identifier. *)
Theorem plan_terminal_writers g ib ia dbg plan k u :
  result (compile ib ia dbg g) = Ok plan ->
  Dict.get (cg_nodes plan) k = Some u ->
  k <> END ->
  (In (ChannelWrite [END]) (writers u) <-> In (k, END) (edges g)).
Proof.
  intros Hc Hu Hk. apply compile_lowers in Hc. split.
  - intro H. destruct (lower_terminal_writers _ _ _ _ _ Hc k u Hu H) as [He|He];
      [contradiction | exact He].
  - intro Hin.
    destruct (lower_visits_edge _ _ _ _ _ k END Hc Hin) as [c [c' [_ [Hstep Hext]]]].
    unfold attach_edge in Hstep. rewrite String.eqb_refl in Hstep.
    destruct (unit_of c k) as [u0|err] eqn:Hu0; simpl in Hstep; [|discriminate].
    injection Hstep as <-.
    destruct (proj2 Hext k (append_writer u0 (ChannelWrite [END]))) as [u' [Hu' [_ [Hw _]]]].
    { simpl. apply get_set_same. }
    rewrite Hu in Hu'. injection Hu' as <-.
    apply Hw. simpl. apply in_or_app. right. now left.
Qed.

End PlanAccounting.

Lemma plan_triggers_registered_witness :
  exists plan u,
    result (compile None None false (state (build xy_graph))) = Ok plan /\
    Dict.get (cg_nodes plan) "A" = Some u /\
    (Dict.mem (cg_channels plan) (branch_channel "S" "route" "A") = true \/
     (In (branch_channel "S" "route" "A", "A") (edges (state (build xy_graph))) /\
      ~ declared (state (build xy_graph)) (branch_channel "S" "route" "A") /\
      branch_channel "S" "route" "A" <> START)).
Proof.
  destruct (result (compile None None false (state (build xy_graph))))
    as [plan|e] eqn:Hc.
  - destruct (Dict.get (cg_nodes plan) "A") as [u|] eqn:Hu.
    + exists plan, u. split; [reflexivity|]. split; [exact Hu|].
      apply (plan_triggers_registered (state (build xy_graph)) None None false plan
               "A" u (branch_channel "S" "route" "A") Hc Hu).
      vm_compute in Hc. injection Hc as <-. vm_compute in Hu. injection Hu as <-.
      left. reflexivity.
    + exfalso. vm_compute in Hc. injection Hc as <-. vm_compute in Hu. discriminate Hu.
  - exfalso. vm_compute in Hc. discriminate Hc.
Defined.

Lemma plan_terminal_writers_witness :
  exists plan u,
    result (compile None None false (state (build line_graph))) = Ok plan /\
    Dict.get (cg_nodes plan) "B" = Some u /\
    (In (ChannelWrite [END]) (writers u) <-> In ("B", END) (edges (state (build line_graph)))).
Proof.
  destruct (result (compile None None false (state (build line_graph))))
    as [plan|e] eqn:Hc.
  - destruct (Dict.get (cg_nodes plan) "B") as [u|] eqn:Hu.
    + exists plan, u. split; [reflexivity|]. split; [exact Hu|].
      apply (plan_terminal_writers (state (build line_graph)) None None false plan
               "B" u Hc Hu).
      discriminate.
    + exfalso. vm_compute in Hc. injection Hc as <-. vm_compute in Hu. discriminate Hu.
  - exfalso. vm_compute in Hc. discriminate Hc.
Defined.

(** * The writer stages of every unit *)

Lemma foldM_append {A B W} (m : A -> list W) (f : A -> B -> Result A) (w : B -> list W) :
  (forall a x a', f a x = Ok a' -> m a' = (m a ++ w x)%list) ->
  forall l a r, foldM f l a = Ok r -> m r = (m a ++ flat_map w l)%list.
Proof.
  intro Hstep. induction l as [|y l IH]; intros a r; simpl.
  - intro H. injection H as <-. now rewrite app_nil_r.
  - destruct (f a y) as [a'|e] eqn:Hf; simpl; [|discriminate].
    intro H. rewrite (IH _ _ H), (Hstep _ _ _ Hf). now rewrite <- app_assoc.
Qed.

Lemma flat_map_if_singleton {A B} (p : A -> bool) (c : B) (l : list A) :
  flat_map (fun x => if p x then [c] else []) l = map (fun _ => c) (filter p l).
Proof.
  induction l as [|x l IH]; simpl; [reflexivity|].
  destruct (p x); simpl; now rewrite IH.
Qed.

Lemma filter_none {A} (p : A -> bool) l :
  (forall x, In x l -> p x = false) -> filter p l = [].
Proof.
  induction l as [|x l IH]; intro H; simpl; [reflexivity|].
  rewrite (H x) by now left. apply IH. intros y Hy. apply H. now right.
Qed.

Lemma filter_all {A} (p : A -> bool) l :
  (forall x, In x l -> p x = true) -> filter p l = l.
Proof.
  induction l as [|x l IH]; intro H; simpl; [reflexivity|].
  rewrite (H x) by now left. f_equal. apply IH. intros y Hy. apply H. now right.
Qed.

(** a dictionary has one entry per key *)
Lemma flat_map_select {V W} (f : V -> list W) (d : Dict.t V) k v :
  NoDup (Dict.keys d) -> In (k, v) d ->
  flat_map (fun entry => if String.eqb (fst entry) k then f (snd entry) else []) d = f v.
Proof.
  induction d as [|[k0 v0] d IH]; intros Hnd Hin; [destruct Hin|].
  simpl in Hnd. inversion Hnd as [|? ? Hnotin Hnd']; subst. simpl.
  destruct Hin as [Heq|Hin].
  - injection Heq as -> ->. rewrite String.eqb_refl.
    replace (flat_map _ d) with (@nil W); [now rewrite app_nil_r|].
    symmetry. clear IH Hnd Hnd'. induction d as [|[k1 v1] d IHd]; simpl; [reflexivity|].
    destruct (String.eqb_spec k1 k) as [->|Hne].
    + exfalso. apply Hnotin. now left.
    + apply IHd. intro H. apply Hnotin. now right.
  - destruct (String.eqb_spec k0 k) as [->|Hne].
    + exfalso. apply Hnotin. apply in_map_iff. exists (k, v). auto.
    + simpl. now apply IH.
Qed.

Lemma filter_key {V} (d : Dict.t V) k v :
  NoDup (Dict.keys d) -> In (k, v) d ->
  filter (fun entry => String.eqb (fst entry) k) d = [(k, v)].
Proof.
  induction d as [|[k0 v0] d IH]; intros Hnd Hin; [destruct Hin|].
  simpl in Hnd. inversion Hnd as [|? ? Hnotin Hnd']; subst. simpl.
  destruct Hin as [Heq|Hin].
  - injection Heq as -> ->. rewrite String.eqb_refl. f_equal.
    apply filter_none. intros [k1 v1] H1. simpl.
    destruct (String.eqb_spec k1 k) as [->|Hne]; [|reflexivity].
    exfalso. apply Hnotin. apply in_map_iff. exists (k, v1). auto.
  - destruct (String.eqb_spec k0 k) as [->|Hne].
    + exfalso. apply Hnotin. apply in_map_iff. exists (k, v). auto.
    + now apply IH.
Qed.

Lemma has_colon_branch_channel s n e : has_colon (branch_channel s n e) = true.
Proof. reflexivity. Qed.

Lemma branch_channel_not_end s n e : branch_channel s n e <> END.
Proof. discriminate. Qed.

Lemma branch_channel_not_start s n e : branch_channel s n e <> START.
Proof. discriminate. Qed.

(** without a colon in the source and in the branch name, the channel name
    tells the branch *)
Lemma branch_channel_inj_names s n e s' n' e' :
  has_colon s = false -> has_colon n = false ->
  has_colon s' = false -> has_colon n' = false ->
  branch_channel s n e = branch_channel s' n' e' ->
  s = s' /\ n = n' /\ e = e'.
Proof.
  intros Hs Hn Hs' Hn' H. unfold branch_channel in H.
  apply append_cancel in H.
  destruct (has_colon_split s s' _ _ Hs Hs' H) as [-> H1].
  destruct (has_colon_split n n' _ _ Hn Hn' H1) as [-> ->].
  auto.
Qed.

Section WriterLists.
Context {Value : Type}.
Implicit Types (g : Graph Value) (b : Branch Value) (c : CompiledGraph Value)
  (u : PregelNode Value) (w : Writer Value).

Lemma writers_at_get c k u : Dict.get (cg_nodes c) k = Some u -> writers_at c k = writers u.
Proof. unfold writers_at. now intros ->. Qed.

Lemma writers_at_set c k u k0 :
  writers_at (with_nodes c (Dict.set (cg_nodes c) k u)) k0
  = if String.eqb k k0 then writers u else writers_at c k0.
Proof.
  unfold writers_at. simpl. rewrite get_set. now destruct (String.eqb k k0).
Qed.

(** what a routing writer stage can write to: the terminal channel and
    the channels of its own branch *)
Lemma run_writer_channels b s n (input : Value) chans ch :
  run_writer (BranchRun b s n) input = Ok chans -> In ch chans ->
  ch = END \/ exists e, e <> END /\ ch = branch_channel s n e.
Proof.
  unfold run_writer, _route. cbv zeta.
  match goal with
  | |- rbind ?m _ = _ -> _ => destruct m as [dests|err]; cbn [rbind]; [|discriminate]
  end.
  intro H. injection H as <-. unfold branch_writer. intro Hin.
  apply in_map_iff in Hin. destruct Hin as [d [Hd _]]. subst ch.
  destruct (String.eqb_spec d END) as [Hde|Hne]; cbn [negb]; [now left|].
  right. exists d. auto.
Qed.

(** lines 312-313: a declared node has its own writer, and nothing else *)
Lemma attach_nodes_writers g ib ia dbg k :
  writers_at (fold_left (fun c entry => attach_node c (fst entry) (snd entry))
                (nodes g) (empty_plan ib ia dbg)) k
  = if Dict.mem (nodes g) k then [ChannelWrite [k]] else [].
Proof.
  destruct (Dict.mem (nodes g) k) eqn:Hm.
  - apply mem_keys in Hm.
    pose proof (attach_nodes_declared (nodes g) (empty_plan ib ia dbg) k Hm) as Hd.
    apply mem_get in Hd. destruct Hd as [u Hu].
    rewrite (writers_at_get _ _ _ Hu).
    destruct (attach_nodes_fresh (nodes g) (empty_plan ib ia dbg)
                (empty_plan_fresh ib ia dbg) k u Hu) as [node ->].
    reflexivity.
  - unfold writers_at. rewrite attach_nodes_other; [reflexivity|].
    intro H. apply mem_keys in H. congruence.
Qed.

(** lines 338-347 *)
Lemma attach_edge_writers c s e c' k :
  attach_edge c s e = Ok c' ->
  writers_at c' k
  = (writers_at c k ++ if edge_eqb (k, END) (s, e) then [ChannelWrite [END]] else [])%list.
Proof.
  unfold attach_edge, edge_eqb. cbn [fst snd].
  destruct (String.eqb_spec e END) as [->|Hne].
  - destruct (unit_of c s) as [u|err] eqn:Hu; cbn [rbind]; [|discriminate].
    intro H. injection H as <-. apply unit_of_ok in Hu.
    rewrite writers_at_set, String.eqb_refl, andb_true_r, (String.eqb_sym k s).
    destruct (String.eqb_spec s k) as [<-|Hk].
    + now rewrite (writers_at_get _ _ _ Hu).
    + now rewrite app_nil_r.
  - destruct (unit_of c e) as [u|err] eqn:Hu; cbn [rbind]; [|discriminate].
    intro H. injection H as <-. apply unit_of_ok in Hu.
    rewrite writers_at_set.
    replace (String.eqb END e) with false
      by (symmetry; apply String.eqb_neq; congruence).
    rewrite andb_false_r, app_nil_r.
    destruct (String.eqb_spec e k) as [<-|Hk]; [|reflexivity].
    now rewrite (writers_at_get _ _ _ Hu).
Qed.

(** lines 367-372 *)
Lemma attach_reader_writers s n c e c' k :
  attach_reader s n c e = Ok c' -> writers_at c' k = writers_at c k.
Proof.
  unfold attach_reader. destruct (negb (String.eqb e END)).
  - cbv zeta. destruct (unit_of _ e) as [u|err] eqn:Hu; cbn [rbind]; [|discriminate].
    intro H. injection H as <-. apply unit_of_ok in Hu. simpl in Hu.
    unfold writers_at. unfold with_nodes, with_channels. cbn [cg_nodes]. rewrite get_set.
    destruct (String.eqb_spec e k) as [<-|Hk]; [now rewrite Hu | reflexivity].
  - intro H. now injection H as <-.
Qed.

(** lines 349-372 *)
Lemma attach_branch_writers c s n b c' k :
  attach_branch c s n b = Ok c' ->
  writers_at c' k
  = (writers_at c k ++ if String.eqb s k then [BranchRun b s n] else [])%list.
Proof.
  unfold attach_branch.
  set (c0 := if String.eqb s START && negb (Dict.mem (cg_nodes c) s) then _ else c).
  assert (H0 : writers_at c0 k = writers_at c k).
  { unfold c0. destruct (String.eqb_spec s START) as [->|Hs]; cbn [andb]; [|reflexivity].
    destruct (Dict.mem (cg_nodes c) START) eqn:Hm; cbn [negb]; [reflexivity|].
    rewrite writers_at_set.
    destruct (String.eqb_spec START k) as [<-|Hk]; [|reflexivity].
    unfold writers_at. unfold Dict.mem in Hm.
    destruct (Dict.get (cg_nodes c) START); [discriminate | reflexivity]. }
  destruct (unit_of c0 s) as [u|err] eqn:Hu; cbn [rbind]; [|discriminate].
  apply unit_of_ok in Hu. cbv zeta. intro H.
  assert (H1 : writers_at c' k
               = writers_at (with_nodes c0 (Dict.set (cg_nodes c0) s
                               (append_writer u (BranchRun b s n)))) k).
  { revert H.
    apply (foldM_invariant
             (fun a => writers_at a k
                       = writers_at (with_nodes c0 (Dict.set (cg_nodes c0) s
                                       (append_writer u (BranchRun b s n)))) k));
      [|reflexivity].
    intros a x a' Ha Hstep. now rewrite (attach_reader_writers _ _ _ _ _ k Hstep). }
  rewrite H1, writers_at_set, <- H0.
  destruct (String.eqb_spec s k) as [<-|Hk].
  - now rewrite (writers_at_get _ _ _ Hu).
  - now rewrite app_nil_r.
Qed.

Lemma branch_writers_at (l : Dict.t (Dict.t (Branch Value))) k :
  flat_map (fun entry =>
              flat_map (fun item =>
                          if String.eqb (fst entry) k
                          then [BranchRun (snd item) (fst entry) (fst item)] else [])
                       (snd entry)) l
  = map (fun item => BranchRun (snd item) k (fst item))
        (flat_map (fun entry => if String.eqb (fst entry) k then snd entry else []) l).
Proof.
  induction l as [|[s brs] l IH]; simpl; [reflexivity|].
  rewrite map_app, IH. f_equal.
  destruct (String.eqb_spec s k) as [->|Hne].
  - induction brs as [|item brs IHb]; simpl; [reflexivity | now rewrite IHb].
  - induction brs as [|item brs IHb]; simpl; [reflexivity | exact IHb].
Qed.

(** the writer stages of a unit, in the order the three loops attach them *)
Lemma lower_writers g ib ia dbg plan k :
  lower g ib ia dbg = Ok plan ->
  writers_at plan k
  = ((if Dict.mem (nodes g) k then [ChannelWrite [k]] else []) ++
     map (fun _ => ChannelWrite [END]) (filter (edge_eqb (k, END)) (edges g)) ++
     map (fun item => BranchRun (snd item) k (fst item)) (branches_at g k))%list.
Proof.
  intro Hl. destruct (lower_stages _ _ _ _ _ Hl) as [c2 [He Hb]].
  apply (foldM_append (fun c => writers_at c k)
           (fun c e => attach_edge c (fst e) (snd e))
           (fun e => if edge_eqb (k, END) e then [ChannelWrite [END]] else [])) in He.
  2:{ intros a [s e] a' Hstep. cbn [fst snd] in Hstep.
      exact (attach_edge_writers _ _ _ _ k Hstep). }
  apply (foldM_append (fun c => writers_at c k)
           (fun c entry =>
              foldM (fun c' item => attach_branch c' (fst entry) (fst item) (snd item))
                    (snd entry) c)
           (fun entry =>
              flat_map (fun item =>
                          if String.eqb (fst entry) k
                          then [BranchRun (snd item) (fst entry) (fst item)] else [])
                       (snd entry))) in Hb.
  2:{ intros a [s brs] a'. cbn [fst snd].
      apply (foldM_append (fun c => writers_at c k)
               (fun c' item => attach_branch c' s (fst item) (snd item))
               (fun item => if String.eqb s k
                            then [BranchRun (snd item) s (fst item)] else [])).
      intros a0 [n b] a0' Hstep. cbn [fst snd] in Hstep. cbn [fst snd].
      exact (attach_branch_writers _ _ _ _ _ k Hstep). }
  cbv beta in He, Hb.
  rewrite Hb, He, attach_nodes_writers, branch_writers_at.
  rewrite (flat_map_if_singleton (edge_eqb (k, END)) (ChannelWrite [END])).
  unfold branches_at. now rewrite <- app_assoc.
Qed.

Lemma branches_at_source g s brs :
  NoDup (Dict.keys (branches g)) -> In (s, brs) (branches g) -> branches_at g s = brs.
Proof.
  intros Hnd Hin. unfold branches_at.
  exact (flat_map_select (fun x => x) (branches g) s brs Hnd Hin).
Qed.

(** C5, as amended: in every plan produced by [compile] the writer stages
    of the unit of k are, in this order: one fixed writer to the channel of
    k if k is a declared node, one fixed writer to the terminal channel for
    each edge from k into the terminal identifier, and one routing writer for
    each branch declared on k.  So a fixed writer on the unit of k publishes
    to the channel of k or to the terminal channel and to nothing else;
    every declared node has exactly one fixed writer to its own channel and
    no other unit has a fixed writer to it; a routing writer sits on the
    unit of the source of its branch; every declared branch has exactly one
    routing writer, and the terminal channel has one fixed writer for each
    edge into the terminal identifier, on as many units as there are sources
    of such edges.  Counting the routing writers too: the only stage that
    can write to the channel of a declared node is the fixed writer of that
    node, and the only stage that can write to a channel of a branch is the
    routing writer of that branch, provided no node key, branch source or
    branch name contains a colon; no stage can write to the entry channel. *)
Theorem C5_writer_stages g ib ia dbg plan :
  result (compile ib ia dbg g) = Ok plan ->
  (forall k u entries,
     Dict.get (cg_nodes plan) k = Some u ->
     In (ChannelWrite entries) (writers u) ->
     entries = [k] \/ entries = [END]) /\
  (forall k u ch,
     Dict.get (cg_nodes plan) k = Some u ->
     ch <> END ->
     existsb (static_writes_to ch) (writers u) = true ->
     k = ch) /\
  (forall k,
     In k (Dict.keys (nodes g)) -> k <> END ->
     exists u, Dict.get (cg_nodes plan) k = Some u /\
               length (filter (static_writes_to k) (writers u)) = 1) /\
  (forall k u b start name,
     Dict.get (cg_nodes plan) k = Some u ->
     In (BranchRun b start name) (writers u) ->
     start = k /\ has_branch g start name b) /\
  (forall k u,
     Dict.get (cg_nodes plan) k = Some u ->
     writers u
     = ((if Dict.mem (nodes g) k then [ChannelWrite [k]] else []) ++
        map (fun _ => ChannelWrite [END]) (filter (edge_eqb (k, END)) (edges g)) ++
        map (fun item => BranchRun (snd item) k (fst item)) (branches_at g k))%list) /\
  (forall s name b,
     has_branch g s name b ->
     NoDup (Dict.keys (branches g)) ->
     (forall s' brs, In (s', brs) (branches g) -> NoDup (Dict.keys brs)) ->
     exists u, Dict.get (cg_nodes plan) s = Some u /\
               filter (routes_for s name) (writers u) = [BranchRun b s name]) /\
  (forall k u,
     Dict.get (cg_nodes plan) k = Some u -> k <> END ->
     length (filter (static_writes_to END) (writers u))
     = length (filter (edge_eqb (k, END)) (edges g))) /\
  (forall k0 k u w,
     In k0 (Dict.keys (nodes g)) -> k0 <> END -> has_colon k0 = false ->
     Dict.get (cg_nodes plan) k = Some u -> In w (writers u) ->
     may_write w k0 ->
     k = k0 /\ w = ChannelWrite [k0]) /\
  (forall s name b e k u w,
     (forall k', In k' (Dict.keys (nodes g)) -> has_colon k' = false) ->
     (forall s' n' b', has_branch g s' n' b' ->
        has_colon s' = false /\ has_colon n' = false) ->
     has_branch g s name b ->
     Dict.get (cg_nodes plan) k = Some u -> In w (writers u) ->
     may_write w (branch_channel s name e) ->
     k = s /\ routes_for s name w = true) /\
  (forall k u w,
     Dict.mem (nodes g) START = false ->
     Dict.get (cg_nodes plan) k = Some u -> In w (writers u) ->
     ~ may_write w START).
Proof.
  intro Hc. apply compile_lowers in Hc.
  pose proof (lower_well_written _ _ _ _ _ Hc) as Hw.
  assert (Hlist : forall k u,
     Dict.get (cg_nodes plan) k = Some u ->
     writers u
     = ((if Dict.mem (nodes g) k then [ChannelWrite [k]] else []) ++
        map (fun _ => ChannelWrite [END]) (filter (edge_eqb (k, END)) (edges g)) ++
        map (fun item => BranchRun (snd item) k (fst item)) (branches_at g k))%list).
  { intros k u Hu. rewrite <- (writers_at_get _ _ _ Hu).
    exact (lower_writers (set_compiled g true) _ _ _ _ k Hc). }
  split; [|split; [|split; [|split; [|split; [exact Hlist|split; [|split; [|split; [|split]]]]]]]].
  - intros k u entries Hu. apply (proj1 (Hw k u Hu)).
  - intros k u ch Hu Hch He. apply existsb_exists in He.
    destruct He as [[entries|b s n] [Hin Hs]]; simpl in Hs; [|discriminate].
    apply str_mem_In in Hs.
    destruct (proj1 (Hw k u Hu) entries Hin) as [-> | ->];
      destruct Hs as [Hs|[]]; congruence.
  - intros k Hk Hne.
    destruct (lower_stages _ _ _ _ _ Hc) as [c2 [He Hb]].
    set (c1 := fold_left _ _ _) in He.
    assert (H1 : exists node, Dict.get (cg_nodes c1) k = Some (node_unit k node)).
    { assert (Hm : Dict.mem (cg_nodes c1) k = true) by now apply attach_nodes_declared.
      apply mem_get in Hm. destruct Hm as [u Hu].
      destruct (attach_nodes_fresh _ _ (empty_plan_fresh _ _ _) k u Hu) as [node ->].
      eauto. }
    destruct H1 as [node H1].
    assert (Hext : extends c1 plan).
    { eapply extends_trans; [eapply attach_edges_extends; exact He|].
      revert Hb. apply foldM_mono; [apply extends_refl | apply extends_trans |].
      intros a x a'. apply attach_branches_extends. }
    destruct (proj2 Hext k _ H1) as [u [Hu [_ [_ Hbound]]]].
    exists u. split; [exact Hu|].
    rewrite (proj2 (proj2 (Hw k u Hu)) Hne), Hbound. reflexivity.
  - intros k u b start name Hu Hin.
    apply (proj1 (proj2 (Hw k u Hu)) b start name Hin).
  - intros s name b Hb Hnd Hnd'.
    destruct (lower_attaches_writer _ _ _ _ _ s name b Hc Hb) as [u [Hu _]].
    exists u. split; [exact Hu|].
    destruct Hb as [brs [Hout Hin]].
    rewrite (Hlist s u Hu), (branches_at_source g s brs Hnd Hout).
    rewrite !filter_app.
    rewrite (filter_none (routes_for s name)
               (if Dict.mem (nodes g) s then [ChannelWrite [s]] else []))
      by (intros x Hx; destruct (Dict.mem (nodes g) s);
          [destruct Hx as [<-|[]]; reflexivity | destruct Hx]).
    rewrite (filter_none (routes_for s name)
               (map (fun _ => ChannelWrite [END]) (filter (edge_eqb (s, END)) (edges g))))
      by (intros x Hx; apply in_map_iff in Hx; destruct Hx as [y [<- _]]; reflexivity).
    cbn [app].
    assert (Hf : forall l : Dict.t (Branch Value),
              filter (routes_for s name)
                (map (fun item => BranchRun (snd item) s (fst item)) l)
              = map (fun item => BranchRun (snd item) s (fst item))
                  (filter (fun item => String.eqb (fst item) name) l)).
    { induction l as [|item l IH]; simpl; [reflexivity|].
      rewrite String.eqb_refl. cbn [andb].
      destruct (String.eqb (fst item) name); cbn [map]; now rewrite IH. }
    rewrite Hf, (filter_key brs name b (Hnd' s brs Hout) Hin). reflexivity.
  - intros k u Hu Hne. rewrite (Hlist k u Hu), !filter_app, !length_app.
    rewrite (filter_none (static_writes_to END)
               (if Dict.mem (nodes g) k then [ChannelWrite [k]] else [])).
    2:{ intros x Hx. destruct (Dict.mem (nodes g) k); [|destruct Hx].
        destruct Hx as [<-|[]]. unfold static_writes_to.
        destruct (str_mem END [k]) eqn:Hm; [|reflexivity].
        apply str_mem_In in Hm. destruct Hm as [Hm|[]]. congruence. }
    rewrite (filter_none (static_writes_to END)
               (map (fun item => BranchRun (snd item) k (fst item)) (branches_at g k)))
      by (intros x Hx; apply in_map_iff in Hx; destruct Hx as [y [<- _]]; reflexivity).
    rewrite (filter_all (static_writes_to END)
               (map (fun _ => ChannelWrite [END]) (filter (edge_eqb (k, END)) (edges g)))).
    2:{ intros x Hx. apply in_map_iff in Hx. destruct Hx as [y [<- _]].
        unfold static_writes_to. apply str_mem_In. now left. }
    cbn [length Nat.add]. now rewrite length_map, Nat.add_0_r.
  - intros k0 k u w Hk0 Hne Hcol Hu Hin Hmay.
    destruct w as [entries|b s n]; simpl in Hmay.
    + destruct (proj1 (Hw k u Hu) entries Hin) as [-> | ->];
        destruct Hmay as [Hm|[]]; [subst k0; auto | congruence].
    + destruct Hmay as [input [chans [Hrun Hch]]].
      destruct (run_writer_channels _ _ _ _ _ _ Hrun Hch) as [He|[e [_ He]]];
        [contradiction|].
      rewrite He, has_colon_branch_channel in Hcol. discriminate.
  - intros s name b e k u w Hkeys Hnames Hb Hu Hin Hmay.
    destruct w as [entries|b' s' n']; simpl in Hmay.
    + exfalso.
      destruct (proj1 (Hw k u Hu) entries Hin) as [-> | ->];
        destruct Hmay as [Hm|[]]; [|exact (branch_channel_not_end _ _ _ (eq_sym Hm))].
      assert (Hk : Dict.mem (cg_nodes plan) k = true) by (apply mem_get; eauto).
      destruct (lower_units_known _ _ _ _ _ Hc k Hk) as [Hd|[Hs _]].
      * apply Hkeys in Hd. rewrite Hm, has_colon_branch_channel in Hd. discriminate.
      * rewrite Hs in Hm. exact (branch_channel_not_start _ _ _ (eq_sym Hm)).
    + destruct Hmay as [input [chans [Hrun Hch]]].
      destruct (proj1 (proj2 (Hw k u Hu)) b' s' n' Hin) as [-> Hb'].
      destruct (run_writer_channels _ _ _ _ _ _ Hrun Hch) as [He|[e' [_ He]]];
        [exfalso; exact (branch_channel_not_end _ _ _ He)|].
      destruct (Hnames s name b Hb) as [Hs Hn].
      destruct (Hnames k n' b' Hb') as [Hs' Hn'].
      destruct (branch_channel_inj_names _ _ _ _ _ _ Hs Hn Hs' Hn' He) as [-> [-> _]].
      split; [reflexivity|]. simpl. now rewrite !String.eqb_refl.
  - intros k u w Hst Hu Hin Hmay.
    destruct w as [entries|b s n]; simpl in Hmay.
    + destruct (proj1 (Hw k u Hu) entries Hin) as [-> | ->];
        destruct Hmay as [Hm|[]]; [|discriminate Hm].
      subst k. rewrite (Hlist START u Hu), Hst in Hin. cbn [app] in Hin.
      apply in_app_or in Hin. destruct Hin as [Hin|Hin];
        apply in_map_iff in Hin; destruct Hin as [y [Hy _]]; discriminate Hy.
    + destruct Hmay as [input [chans [Hrun Hch]]].
      destruct (run_writer_channels _ _ _ _ _ _ Hrun Hch) as [He|[e [_ He]]].
      * discriminate He.
      * exact (branch_channel_not_start _ _ _ (eq_sym He)).
Qed.

End WriterLists.

Lemma C5_witness :
  exists plan,
    result (compile None None false (state (build two_finish_graph))) = Ok plan /\
    exists u, Dict.get (cg_nodes plan) "A" = Some u /\
              length (filter (static_writes_to "A") (writers u)) = 1.
Proof.
  destruct (result (compile None None false (state (build two_finish_graph))))
    as [plan|e] eqn:Hc.
  - exists plan. split; [reflexivity|].
    apply (proj1 (proj2 (proj2
             (C5_writer_stages (state (build two_finish_graph)) None None false plan Hc)))).
    + left. reflexivity.
    + discriminate.
  - vm_compute in Hc. discriminate Hc.
Defined.
